(** * Audio-to-text backend (app.py): job pipeline, transcription
      orchestration and notification with fallback

    A shallow embedding of [src/audiototext-backend/app.py].  The
    collaborators of the program (the decoder, the speech model, the SMTP
    transport, the file system calls that may fail, the uuid and clock
    sources) are gathered in a record [Env]; the mutable state of the
    process (temporary files, the job queue, the worker thread) is a record
    [World].  Python functions become computations of the monad [M], which
    threads a [World] and may raise.  For the two threads of the process the
    same functions are given once more as sequences of library calls
    ([Prog], module [Steps]), which the scheduler [run_picks] interleaves. *)

From Stdlib Require Import ZArith String Ascii List Lia Floats Uint63.
From stdpp Require Import base option list gmap strings pretty.

Open Scope string_scope.
Open Scope list_scope.
Open Scope Z_scope.

(** ** Python built-ins used by the program *)

Module Py.

(** A [str] is kept as the bytes of its UTF-8 encoding.  [chars s] are its
    code points, each as its bytes: the first byte of a code point tells how
    many bytes it takes. *)
Fixpoint chars (s : string) : list string :=
  match s with
  | EmptyString => []
  | String c t =>
      let n := nat_of_ascii c in
      if (n <? 192)%nat then String c EmptyString :: chars t
      else
        match t with
        | String d t2 =>
            if (n <? 224)%nat then String c (String d EmptyString) :: chars t2
            else
              match t2 with
              | String e t3 =>
                  if (n <? 240)%nat
                  then String c (String d (String e EmptyString)) :: chars t3
                  else
                    match t3 with
                    | String f t4 =>
                        String c (String d (String e (String f EmptyString)))
                        :: chars t4
                    | EmptyString => [s]
                    end
              | EmptyString => [s]
              end
        | EmptyString => [s]
        end
  end.

(** The number of a code point, from its bytes. *)
Definition ord (ch : string) : Z :=
  match Z.of_nat <$> (nat_of_ascii <$> list_ascii_of_string ch) with
  | [c] => c
  | [c; d] => Z.land c 31 * 64 + Z.land d 63
  | [c; d; e] => Z.land c 15 * 4096 + Z.land d 63 * 64 + Z.land e 63
  | [c; d; e; f] =>
      Z.land c 7 * 262144 + Z.land d 63 * 4096 + Z.land e 63 * 64 + Z.land f 63
  | _ => -1
  end.

(** [ch.isspace()] for one code point: the white space of Unicode. *)
Definition isspace (ch : string) : bool :=
  let n := ord ch in
  ((9 <=? n) && (n <=? 13)) || ((28 <=? n) && (n <=? 32))
  || (n =? 133) || (n =? 160) || (n =? 5760)
  || ((8192 <=? n) && (n <=? 8202))
  || (n =? 8232) || (n =? 8233) || (n =? 8239) || (n =? 8287) || (n =? 12288).

(** The code points left when the leading run of white space is dropped *)
Fixpoint skip_spaces (l : list string) : list string :=
  match l with
  | ch :: t => if isspace ch then skip_spaces t else l
  | [] => []
  end.

Definition lstrip (s : string) : string :=
  String.concat EmptyString (skip_spaces (chars s)).

Definition rstrip (s : string) : string :=
  String.concat EmptyString (rev (skip_spaces (rev (chars s)))).

(** [s.strip()] *)
Definition strip (s : string) : string :=
  String.concat EmptyString
    (rev (skip_spaces (rev (skip_spaces (chars s))))).

(** Truth value of a string: [if s:] *)
Definition truthy (s : string) : bool :=
  match s with EmptyString => false | _ => true end.

(** The number of bytes of the line end that [s] starts with, as
    [str.splitlines] sees line ends: 0 when [s] starts with none.  The line
    ends are the code points 10 to 13, 28 to 30, 133, 8232 and 8233, and a
    carriage return with the line feed that follows it is one line end. *)
Definition line_end_len (s : string) : nat :=
  match s with
  | String c t =>
      let n := nat_of_ascii c in
      if (n =? 13)%nat then
        match t with
        | String d _ => if (nat_of_ascii d =? 10)%nat then 2%nat else 1%nat
        | EmptyString => 1%nat
        end
      else if ((10 <=? n)%nat && (n <=? 12)%nat)
              || ((28 <=? n)%nat && (n <=? 30)%nat) then 1%nat
      else if (n =? 194)%nat then
        match t with
        | String d _ => if (nat_of_ascii d =? 133)%nat then 2%nat else 0%nat
        | EmptyString => 0%nat
        end
      else if (n =? 226)%nat then
        match t with
        | String d (String e _) =>
            if (nat_of_ascii d =? 128)%nat
               && ((nat_of_ascii e =? 168)%nat || (nat_of_ascii e =? 169)%nat)
            then 3%nat else 0%nat
        | _ => 0%nat
        end
      else 0%nat
  | EmptyString => 0%nat
  end.

(** [s] holds a line end. *)
Fixpoint has_line_end (s : string) : bool :=
  match s with
  | String c t => if (0 <? line_end_len s)%nat then true else has_line_end t
  | EmptyString => false
  end.

(** [s[n:]] on bytes *)
Fixpoint skip (n : nat) (s : string) : string :=
  match n, s with
  | S k, String _ t => skip k t
  | _, _ => s
  end.

(** [len(s.splitlines()) > 1]: something follows the first line end. *)
Fixpoint line_inside (s : string) : bool :=
  match s with
  | String c t =>
      match line_end_len s with
      | O => line_inside t
      | n => truthy (skip n s)
      end
  | EmptyString => false
  end.

(** [s.isascii()] *)
Fixpoint isascii (s : string) : bool :=
  match s with
  | String c t => (nat_of_ascii c <? 128)%nat && isascii t
  | EmptyString => true
  end.

(** [c in s] for a one-character [c] *)
Fixpoint contains (c : ascii) (s : string) : bool :=
  match s with
  | String d t => if Ascii.eqb c d then true else contains c t
  | EmptyString => false
  end.

(** [s.split(sep, 1)] for a one-character separator: one element when the
    separator does not occur, else the text before and after its first
    occurrence. *)
Fixpoint split1 (sep : ascii) (s : string) : list string :=
  match s with
  | EmptyString => [EmptyString]
  | String c t =>
      if Ascii.eqb c sep then [EmptyString; t]
      else match split1 sep t with
           | [a] => [String c a]
           | a :: rest => String c a :: rest
           | [] => []
           end
  end.

(** [sep.join(l)] *)
Fixpoint join (sep : string) (l : list string) : string :=
  match l with
  | [] => EmptyString
  | [x] => x
  | x :: rest => x +:+ sep +:+ join sep rest
  end.

(** [s[:n]] *)
Fixpoint prefix (n : nat) (s : string) : string :=
  match n, s with
  | S k, String c t => String c (prefix k t)
  | _, _ => EmptyString
  end.

(** [enumerate(l, start)] *)
Fixpoint enumerate {A} (start : nat) (l : list A) : list (nat * A) :=
  match l with
  | [] => []
  | x :: t => (start, x) :: enumerate (S start) t
  end.

(** The values of [range(start, stop, step)] for a positive step, produced
    as the iterator does: emit [start] while it is below [stop], then add
    [step].  [fuel] bounds the number of values. *)
Fixpoint range_from (fuel : nat) (start stop step : Z) : list Z :=
  match fuel with
  | O => []
  | S f => if start <? stop then start :: range_from f (start + step) stop step
           else []
  end.

(** [range(0, stop, step)]: [None] stands for the ValueError of a zero
    step; a negative step counts downwards, which mirrors counting upwards
    to [- stop] by [- step]. *)
Definition range0 (stop step : Z) : option (list Z) :=
  if step =? 0 then None
  else if step <? 0 then
    Some (map Z.opp (range_from (Z.to_nat (- stop)) 0 (- stop) (- step)))
  else Some (range_from (Z.to_nat stop) 0 stop step).

(** *** [f"{x:.1f}"] on a float

    Python prints the decimal with one fractional digit nearest to the
    exact binary value, ties to even.  The value of a finite float is
    [m * 2^e]. *)
Definition round_half_even (num den : Z) : Z :=
  let q := num / den in
  let r := num mod den in
  if 2 * r <? den then q
  else if den <? 2 * r then q + 1
  else if Z.even q then q else q + 1.

Definition tenths (m : positive) (e : Z) : Z :=
  if 0 <=? e then 10 * Z.pos m * 2 ^ e
  else round_half_even (10 * Z.pos m) (2 ^ (- e)).

Definition format_1f (x : float) : string :=
  match Prim2SF x with
  | S754_zero s => (if s then "-0.0" else "0.0")
  | S754_infinity s => (if s then "-inf" else "inf")
  | S754_nan => "nan"
  | S754_finite s m e =>
      let t := tenths m e in
      (if s then "-" else "") +:+ pretty (t / 10) +:+ "." +:+ pretty (t mod 10)
  end.

(** [n / 1000.0] for an int [n] (exact conversion below 2^53). *)
Definition div1000 (n : Z) : float :=
  PrimFloat.div (PrimFloat.of_uint63 (Uint63.of_Z n))
                (PrimFloat.of_uint63 (Uint63.of_Z 1000)).

(** The line feed of a ["\n"] in a Python literal. *)
Definition LF : string := String (ascii_of_nat 10) EmptyString.

(** [posixpath.join(a, b)] *)
Definition path_join (a b : string) : string :=
  match b with
  | String "/" _ => b
  | _ =>
      match a with
      | EmptyString => b
      | _ => if String.eqb (substring (String.length a - 1) 1 a) "/"
             then a +:+ b else a +:+ "/" +:+ b
      end
  end.

(** [os.path.splitext(p)[1]]: the text from the last dot of the last path
    component, unless only dots precede it there. *)
Fixpoint last_component (acc s : string) : string :=
  match s with
  | EmptyString => acc
  | String c t => if Ascii.eqb c "/" then last_component t t
                  else last_component acc t
  end.

Fixpoint ext_after_dot (s : string) : option string :=
  match s with
  | EmptyString => None
  | String c t =>
      match ext_after_dot t with
      | Some e => Some e
      | None => if Ascii.eqb c "." then Some s else None
      end
  end.

Fixpoint skip_dots (s : string) : string :=
  match s with
  | String "." t => skip_dots t
  | _ => s
  end.

Definition splitext_ext (p : string) : string :=
  match ext_after_dot (skip_dots (last_component p p)) with
  | Some e => e
  | None => EmptyString
  end.

End Py.

Abbreviation LF := Py.LF.


(** ** Data *)

(** Python's [str] and [bytes] are both [string] here, a sequence of bytes;
    [s.encode("utf-8")] is the identity. *)

(** A raised exception, with the text [str(e)] that the program formats
    into its messages. *)
Record exn := Exn { exn_msg : string }.

Inductive res (A : Type) : Type :=
| Ok (a : A)
| Raise (e : exn).
Arguments Ok {A} a.
Arguments Raise {A} e.

(** A decoded [AudioSegment]: one frame per millisecond, so that [len(audio)]
    is the length of the list and [audio[a:b]] a sub-list. *)
Definition frame := Z.
Definition Audio := list frame.

Definition audio_len (a : Audio) : Z := Z.of_nat (length a).

(** [audio[start_ms:end_ms]] for [0 <= start_ms <= end_ms] *)
Definition audio_slice (a : Audio) (start_ms end_ms : Z) : Audio :=
  take (Z.to_nat (end_ms - start_ms)) (drop (Z.to_nat start_ms) a).

(** The content of a temporary file: bytes as they were written, or a WAV
    file produced by [export], which decodes to the audio it was made of. *)
Inductive FileData :=
| Raw (bytes : string)
| Wav (a : Audio).

(** The job dictionary built by [submit]. *)
Record Job := {
  job_id : string;
  email : string;
  audio_path : string;
  filename : string;
  submitted_at : Z
}.

(** An attachment tuple [(filename, bytes, mime_type)]. *)
Record Attachment := {
  att_filename : string;
  att_bytes : string;
  att_mime : string
}.

Record MimePart := {
  part_filename : string;
  part_bytes : string;
  part_maintype : string;
  part_subtype : string
}.

Record EmailMessage := {
  msg_from : string;
  msg_to : string;
  msg_subject : string;
  msg_content : string;
  msg_parts : list MimePart
}.

(** What the program does to the outside, in the order it does it. *)
Inductive Event :=
| EvPut (j : Job)                          (* job_q.put(j) *)
| EvGet (j : Job)                          (* job_q.get returned j *)
| EvTaskDone                               (* job_q.task_done() *)
| EvExport (path : string) (a : Audio)     (* audio.export(path, format="wav") *)
| EvInfer (path : string) (r : res string) (* model.transcribe(path), its outcome *)
| EvSend (m : EmailMessage) (r : option exn) (* the SMTP session, its failure *)
| EvWrite (path : string) (data : string)  (* open(path, "wb") and f.write(data) *)
| EvRemove (path : string).                (* os.remove(path) *)

(** The configuration read from the environment variables at import. *)
Record Config := {
  SEG_LEN_SECONDS : Z;
  CHUNK_THRESHOLD_S : Z;
  MAX_UPLOAD_S : Z;
  EMAIL_FROM : string
}.

Definition default_config : Config :=
  {| SEG_LEN_SECONDS := 20; CHUNK_THRESHOLD_S := 40; MAX_UPLOAD_S := 600;
     EMAIL_FROM := "no-reply@example.com" |}.

(** The collaborators.  Each field is the behaviour of a library call the
    program makes; [Some e] or [Raise e] is the exception that call raises. *)
Record Env := {
  tmpdir : string;                           (* tempfile.gettempdir() *)
  uuid4_hex : nat -> string;                 (* the n-th uuid.uuid4().hex *)
  time_time : nat -> Z;                      (* the n-th int(time.time()) *)
  decode : string -> res Audio;              (* AudioSegment.from_file on bytes *)
  export_err : string -> option exn;         (* audio.export to a path *)
  model_transcribe : string -> Audio -> res string;
                                             (* model.transcribe(path).get("text", "") *)
  header_err : string -> string -> option exn;
                                             (* msg[name] = value *)
  attach_err : string -> string -> string -> option exn;
                                             (* msg.add_attachment(data, maintype,
                                                subtype, filename), by the file
                                                name and the two types *)
  smtp_err : EmailMessage -> option exn;     (* connect, starttls, login, send *)
  open_err : string -> option exn;           (* open(path, "wb") and write *)
  remove_err : string -> option exn;         (* os.remove(path) *)
  format_exc : exn -> string;                (* traceback.format_exc() *)
  (* What the mail library does in every environment.  Its policy refuses
     to store a header value that [str.splitlines] cuts in more than one
     line; [add_attachment] stores the content type "maintype/subtype" and
     a disposition that quotes the file name through that policy, and
     raises nothing else. *)
  header_law : forall name value,
    Py.line_inside value = true -> header_err name value <> None;
  attach_law : forall fname maintype subtype,
    attach_err fname maintype subtype <> None ->
    Py.has_line_end fname = true \/
    Py.line_inside (maintype +:+ "/" +:+ subtype) = true
}.

(** The state of the process. *)
Record World := {
  files : gmap string FileData;
  job_q : list Job;
  worker_alive : bool;
  n_uuid : nat;
  n_time : nat;
  trace : list Event
}.

Definition with_files (f : gmap string FileData) (w : World) : World :=
  {| files := f; job_q := job_q w; worker_alive := worker_alive w;
     n_uuid := n_uuid w; n_time := n_time w; trace := trace w |}.

Definition with_job_q (q : list Job) (w : World) : World :=
  {| files := files w; job_q := q; worker_alive := worker_alive w;
     n_uuid := n_uuid w; n_time := n_time w; trace := trace w |}.

Definition with_worker_alive (b : bool) (w : World) : World :=
  {| files := files w; job_q := job_q w; worker_alive := b;
     n_uuid := n_uuid w; n_time := n_time w; trace := trace w |}.

Definition with_n_uuid (n : nat) (w : World) : World :=
  {| files := files w; job_q := job_q w; worker_alive := worker_alive w;
     n_uuid := n; n_time := n_time w; trace := trace w |}.

Definition with_n_time (n : nat) (w : World) : World :=
  {| files := files w; job_q := job_q w; worker_alive := worker_alive w;
     n_uuid := n_uuid w; n_time := n; trace := trace w |}.

Definition emit (ev : Event) (w : World) : World :=
  {| files := files w; job_q := job_q w; worker_alive := worker_alive w;
     n_uuid := n_uuid w; n_time := n_time w; trace := trace w ++ [ev] |}.

(** ** The monad of Python computations *)

Definition M (A : Type) : Type := World -> res A * World.

Definition ret {A} (a : A) : M A := fun w => (Ok a, w).

Definition raise {A} (e : exn) : M A := fun w => (Raise e, w).

Definition bind {A B} (m : M A) (k : A -> M B) : M B :=
  fun w => match m w with
           | (Ok a, w') => k a w'
           | (Raise e, w') => (Raise e, w')
           end.

(** [try: body  except Exception as e: handler e] *)
Definition try_except {A} (body : M A) (handler : exn -> M A) : M A :=
  fun w => match body w with
           | (Ok a, w') => (Ok a, w')
           | (Raise e, w') => handler e w'
           end.

(** [try: body  finally: fin] -- [fin] runs on both exits; an exception of
    [fin] replaces the outcome of [body]. *)
Definition try_finally {A} (body : M A) (fin : M unit) : M A :=
  fun w => match body w with
           | (r, w') => match fin w' with
                        | (Ok _, w'') => (r, w'')
                        | (Raise e, w'') => (Raise e, w'')
                        end
           end.

Declare Scope py_scope.
Delimit Scope py_scope with py.
Notation "'let*' x ':=' m 'in' k" := (bind m (fun x => k))
  (at level 10, x pattern, m at level 100, k at level 200) : py_scope.
Notation "m ';;' k" := (bind m (fun _ => k))
  (at level 100, k at level 200, right associativity) : py_scope.
Open Scope py_scope.

(** A [for] loop whose body appends one value per iteration. *)
Fixpoint for_each {A B} (body : A -> M B) (l : list A) : M (list B) :=
  match l with
  | [] => ret []
  | x :: t => let* y := body x in
              let* ys := for_each body t in
              ret (y :: ys)
  end.

(** ** The program *)

Section App.

Context (env : Env) (cfg : Config).

(** *** Library calls *)

Definition uuid4 : M string :=
  fun w => (Ok (uuid4_hex env (n_uuid w)), with_n_uuid (S (n_uuid w)) w).

Definition now : M Z :=
  fun w => (Ok (time_time env (n_time w)), with_n_time (S (n_time w)) w).

Definition tmp_path (name : string) : string :=
  Py.path_join (tmpdir env) name.

(** What a reader of [path] gets as audio. *)
Definition read_audio (w : World) (path : string) : res Audio :=
  match files w !! path with
  | None => Raise (Exn ("[Errno 2] No such file or directory: '" +:+ path +:+ "'"))
  | Some (Wav a) => Ok a
  | Some (Raw b) => decode env b
  end.

(** [AudioSegment.from_file(path)] *)
Definition from_file (path : string) : M Audio :=
  fun w => (read_audio w path, w).

(** [audio.export(path, format="wav")] *)
Definition export (a : Audio) (path : string) : M unit :=
  fun w =>
    let w1 := emit (EvExport path a) w in
    match export_err env path with
    | Some e => (Raise e, w1)
    | None => (Ok tt, with_files (<[path := Wav a]> (files w1)) w1)
    end.

(** [model.transcribe(path).get("text", "")] *)
Definition whisper (path : string) : M string :=
  fun w =>
    let r := match read_audio w path with
             | Ok a => model_transcribe env path a
             | Raise e => Raise e
             end in
    (r, emit (EvInfer path r) w).

(** [os.path.exists(path)] *)
Definition os_path_exists (path : string) : M bool :=
  fun w => (Ok (bool_decide (is_Some (files w !! path))), w).

(** [os.remove(path)] *)
Definition os_remove (path : string) : M unit :=
  fun w =>
    let w1 := emit (EvRemove path) w in
    match files w !! path with
    | None => (Raise (Exn ("[Errno 2] No such file or directory: '" +:+ path +:+ "'")), w1)
    | Some _ =>
        match remove_err env path with
        | Some e => (Raise e, w1)
        | None => (Ok tt, with_files (delete path (files w1)) w1)
        end
    end.

(** [with open(path, "wb") as f: f.write(data)] *)
Definition write_file (path data : string) : M unit :=
  fun w =>
    let w1 := emit (EvWrite path data) w in
    match open_err env path with
    | Some e => (Raise e, w1)
    | None => (Ok tt, with_files (<[path := Raw data]> (files w1)) w1)
    end.

(** The [with smtplib.SMTP(...)] block: ehlo, starttls, ehlo, login,
    send_message. *)
Definition smtp_deliver (msg : EmailMessage) : M unit :=
  fun w =>
    let r := smtp_err env msg in
    let w1 := emit (EvSend msg r) w in
    match r with
    | Some e => (Raise e, w1)
    | None => (Ok tt, w1)
    end.

(** [job_q.put(job)] *)
Definition q_put (j : Job) : M unit :=
  fun w => (Ok tt, emit (EvPut j) (with_job_q (job_q w ++ [j]) w)).

(** [job_q.get(timeout=1.0)]: the head of the queue, or [None] for
    [queue.Empty] when the time-out passes on an empty queue. *)
Definition q_get : M (option Job) :=
  fun w => match job_q w with
           | [] => (Ok None, w)
           | j :: q => (Ok (Some j), emit (EvGet j) (with_job_q q w))
           end.

(** [job_q.task_done()] *)
Definition task_done : M unit :=
  fun w => (Ok tt, emit EvTaskDone w).

(** *** Audio helpers *)

(** The duration is kept in integer milliseconds, [len(audio)]; the
    program's [duration_s] is [Py.div1000] of it. *)
Definition ensure_wav_copy (in_path : string) : M (string * Z) :=
  let* u := uuid4 in
  let out_path := tmp_path ("whisper_input_" +:+ u +:+ ".wav") in
  let* audio := from_file in_path in
  export audio out_path;;
  ret (out_path, audio_len audio).

(** [range(0, duration_ms, seg_len_ms)] *)
Definition segment_starts (duration_ms seg_len_ms : Z) : M (list Z) :=
  match Py.range0 duration_ms seg_len_ms with
  | Some l => ret l
  | None => raise (Exn "range() arg 3 must not be zero")
  end.

(** The body of the [for i, start_ms in enumerate(range(...))] loop. *)
Definition export_segment (audio : Audio) (duration_ms seg_len_ms base_ts : Z)
    (entry : nat * Z) : M string :=
  let '(i, start_ms) := entry in
  let end_ms := Z.min (start_ms + seg_len_ms) duration_ms in
  let chunk := audio_slice audio start_ms end_ms in
  let* u := uuid4 in
  let out_path :=
    tmp_path ("whisper_chunk_" +:+ pretty base_ts +:+ "_" +:+ u +:+ "_"
              +:+ pretty i +:+ ".wav") in
  export chunk out_path;;
  ret out_path.

Definition split_audio_to_files (audio_path : string) (seg_len_s : Z)
  : M (list string) :=
  let* audio := from_file audio_path in
  let duration_ms := audio_len audio in
  let seg_len_ms := seg_len_s * 1000 in
  let* base_ts := now in
  let* starts := segment_starts duration_ms seg_len_ms in
  for_each (export_segment audio duration_ms seg_len_ms base_ts)
           (Py.enumerate 0%nat starts).

Definition transcribe_chunk (path : string) : M string :=
  let* text := whisper path in
  ret (Py.strip text).

(** *** Transcription *)

Definition chunk_error (idx : nat) (e : exn) : string :=
  "[ERROR transcribing chunk " +:+ pretty idx +:+ ": " +:+ exn_msg e +:+ "]".

Definition em_dash : string :=
  String (ascii_of_nat 226) (String (ascii_of_nat 128)
    (String (ascii_of_nat 148) EmptyString)).

Definition chunked_summary (n_chunks : nat) (duration_ms : Z) : string :=
  "(Chunked " +:+ em_dash +:+ " " +:+ pretty n_chunks +:+
  " chunks, original duration " +:+ Py.format_1f (Py.div1000 duration_ms) +:+ "s)".

Definition single_summary (duration_ms : Z) : string :=
  "(Single-pass " +:+ em_dash +:+ " duration " +:+
  Py.format_1f (Py.div1000 duration_ms) +:+ "s)".

(** [duration_s > seconds], on the milliseconds: Python compares a float
    with an int by value, and for thresholds below 2^43 seconds the float
    [ms / 1000.0] is above [seconds] exactly when [ms > 1000 * seconds]
    (the quotient is rounded to nearest, a distance of 0.001 is wider than
    the rounding there). *)
Definition longer_than (duration_ms seconds : Z) : bool :=
  1000 * seconds <? duration_ms.

(** The body of the [for idx, p in enumerate(out_paths, start=1)] loop. *)
Definition transcribe_one (ip : nat * string) : M string :=
  let '(idx, p) := ip in
  let* txt := try_except (transcribe_chunk p)
                         (fun e => ret (chunk_error idx e)) in
  try_except (os_remove p) (fun _ => ret tt);;
  ret txt.

(** The [try] block of [transcribe_file]. *)
Definition transcribe_body (wav_path : string) (duration_ms : Z) : M string :=
  if longer_than duration_ms (CHUNK_THRESHOLD_S cfg) then
    let* out_paths := split_audio_to_files wav_path (SEG_LEN_SECONDS cfg) in
    let* parts := for_each transcribe_one (Py.enumerate 1%nat out_paths) in
    let joined := Py.join (LF +:+ LF) (filter (fun p => Py.truthy p = true) parts) in
    let summary := chunked_summary (length out_paths) duration_ms in
    ret (summary +:+ LF +:+ LF +:+ joined)
  else
    let* text := whisper wav_path in
    let summary := single_summary duration_ms in
    ret (summary +:+ LF +:+ LF +:+ Py.strip text).

(** The [finally] block of [transcribe_file]. *)
Definition remove_working_file (wav_path : string) : M unit :=
  try_except
    (if Py.truthy wav_path then
       let* there := os_path_exists wav_path in
       if there then os_remove wav_path else ret tt
     else ret tt)
    (fun _ => ret tt).

Definition transcribe_file (audio_path : string) : M string :=
  let* (wav_path, duration_ms) := ensure_wav_copy audio_path in
  try_finally (transcribe_body wav_path duration_ms)
              (remove_working_file wav_path).

(** *** E-mail with fallback *)

(** [maintype, subtype = mime.split("/", 1)] *)
Definition split_mime (mime : string) : M (string * string) :=
  match Py.split1 "/" mime with
  | [maintype; subtype] => ret (maintype, subtype)
  | _ => raise (Exn "not enough values to unpack (expected 2, got 1)")
  end.

(** [msg[name] = value] *)
Definition set_header (name value : string) : M unit :=
  match header_err env name value with
  | Some e => raise e
  | None => ret tt
  end.

(** [msg.add_attachment(data_bytes, maintype=maintype, subtype=subtype,
    filename=fname)] *)
Definition add_attachment (fname maintype subtype : string) : M unit :=
  match attach_err env fname maintype subtype with
  | Some e => raise e
  | None => ret tt
  end.

(** Truth value of the [attachments] argument, a list or [None]. *)
Definition some_attachments (attachments : option (list Attachment))
  : list Attachment :=
  match attachments with
  | Some l => l
  | None => []
  end.

(** The statements of [send_email_with_fallback] before its [try].  A
    header assignment raises what the policy of the mail library raises for
    the value (the default policy: ValueError for a value with a line break
    before its end), and so does [add_attachment] for the file name and the
    content type; [set_content] stores the body, which as a [str] always
    encodes. *)
Definition build_message (to_address subject body_text : string)
    (attachments : option (list Attachment)) : M EmailMessage :=
  set_header "From" (EMAIL_FROM cfg);;
  set_header "To" to_address;;
  set_header "Subject" subject;;
  let* parts :=
    for_each
      (fun a =>
         let* (maintype, subtype) := split_mime (att_mime a) in
         add_attachment (att_filename a) maintype subtype;;
         ret {| part_filename := att_filename a; part_bytes := att_bytes a;
                part_maintype := maintype; part_subtype := subtype |})
      (some_attachments attachments) in
  ret {| msg_from := EMAIL_FROM cfg; msg_to := to_address;
         msg_subject := subject; msg_content := body_text;
         msg_parts := parts |}.

(** The bytes the fallback file gets:
    [attachments and attachments[0] and attachments[0][1]] selects the
    first attachment's bytes, and the body text is written otherwise. *)
Definition fallback_payload (body_text : string)
    (attachments : option (list Attachment)) : string :=
  match some_attachments attachments with
  | a :: _ => if Py.truthy (att_bytes a) then att_bytes a else body_text
  | [] => body_text
  end.

Definition smtp_error_text (e : exn) : string :=
  "SMTP send error: " +:+ exn_msg e +:+ LF +:+ format_exc env e.

Definition path_given (fallback_save_path : option string) : option string :=
  match fallback_save_path with
  | Some p => if Py.truthy p then Some p else None
  | None => None
  end.

Definition send_email_with_fallback (to_address subject body_text : string)
    (attachments : option (list Attachment))
    (fallback_save_path : option string) : M (bool * option string) :=
  let* msg := build_message to_address subject body_text attachments in
  let* failure :=
    try_except (smtp_deliver msg;; ret None)
               (fun e => ret (Some (smtp_error_text e))) in
  match failure with
  | None => ret (true, None)
  | Some err =>
      match path_given fallback_save_path with
      | Some path =>
          try_except (write_file path (fallback_payload body_text attachments))
                     (fun _ => ret tt)
      | None => ret tt
      end;;
      ret (false, Some err)
  end.

(** *** Worker *)

Definition transcription_failed (e : exn) : string :=
  "[ERROR] Transcription failed: " +:+ exn_msg e +:+ LF +:+ LF +:+ format_exc env e.

Definition email_subject (id : string) : string :=
  "Your transcription (job " +:+ id +:+ ")".

Definition email_body (id original_filename transcript : string) : string :=
  "Hello," +:+ LF +:+ LF +:+ "Attached is the transcription for job " +:+ id
  +:+ " (file: " +:+ original_filename +:+ ")." +:+ LF +:+ LF
  +:+ "--- Transcript below ---" +:+ LF +:+ LF +:+ transcript +:+ LF +:+ LF
  +:+ "Regards," +:+ LF +:+ "Your Transcription Server".

Definition fallback_path_of (id : string) : string :=
  tmp_path ("transcript_fallback_" +:+ id +:+ ".txt").

(** The [try] block that follows a successful [job_q.get]. *)
Definition process_job (job : Job) : M unit :=
  let* transcript :=
    try_except (transcribe_file (audio_path job))
               (fun e => ret (transcription_failed e)) in
  let subject := email_subject (job_id job) in
  let body := email_body (job_id job) (filename job) transcript in
  let fallback_path := fallback_path_of (job_id job) in
  let* _ :=
    send_email_with_fallback (email job) subject body
      (Some [ {| att_filename := "transcript_" +:+ job_id job +:+ ".txt";
                 att_bytes := transcript; att_mime := "text/plain" |} ])
      (Some fallback_path) in
  try_except
    (let* there := os_path_exists (audio_path job) in
     if there then os_remove (audio_path job) else ret tt)
    (fun _ => ret tt).

(** One turn of the [while not SHUTDOWN_EVENT.is_set()] loop. *)
Definition worker_iteration : M unit :=
  let* got := q_get in
  match got with
  | None => ret tt
  | Some job => try_finally (process_job job) task_done
  end.

(** [worker_loop], for [n] turns before the shut-down flag is seen set.
    An exception that leaves a turn leaves the loop. *)
Fixpoint worker_loop (n : nat) : M unit :=
  match n with
  | O => ret tt
  | S k => worker_iteration;; worker_loop k
  end.

(** [start_worker]: a thread is started unless one is alive. *)
Definition start_worker : M unit :=
  fun w => (Ok tt, if worker_alive w then w else with_worker_alive true w).

(** *** Intake *)

Inductive Response :=
| JSONError (status_code : Z) (error : string)
| Accepted (message : string) (id : string).

Definition too_long_message (duration_ms : Z) : string :=
  "Uploaded audio too long (" +:+ Py.format_1f (Py.div1000 duration_ms)
  +:+ "s). Max " +:+ pretty (MAX_UPLOAD_S cfg) +:+ "s.".

(** The [quick duration guard]: [Some r] when the guard returns the
    response [r], [None] when control reaches the statements after it. *)
Definition duration_guard (dest : string) : M (option Response) :=
  try_except
    (let* a := from_file dest in
     let duration_ms := audio_len a in
     if longer_than duration_ms (MAX_UPLOAD_S cfg) then
       try_except (os_remove dest) (fun _ => ret tt);;
       ret (Some (JSONError 400 (too_long_message duration_ms)))
     else ret None)
    (fun _ => ret None).

(** [os.path.splitext(audio.filename)[1] or ".wav"] *)
Definition upload_suffix (audio_filename : string) : string :=
  if Py.truthy (Py.splitext_ext audio_filename)
  then Py.splitext_ext audio_filename else ".wav".

Definition upload_path (u suffix : string) : string :=
  tmp_path ("upload_" +:+ u +:+ suffix).

(** The path [submit] saves the upload to in world [w]. *)
Definition dest_of (w : World) (audio_filename : string) : string :=
  upload_path (uuid4_hex env (n_uuid w)) (upload_suffix audio_filename).

(** The world of [submit] once the upload is saved. *)
Definition saved (w : World) (audio_filename audio_bytes : string) : World :=
  let w1 := emit (EvWrite (dest_of w audio_filename) audio_bytes)
                 (with_n_uuid (S (n_uuid w)) w) in
  with_files (<[dest_of w audio_filename := Raw audio_bytes]> (files w1)) w1.

Definition submit (email_addr : string) (audio_filename audio_bytes : string)
  : M Response :=
  if negb (Py.contains "@" email_addr) then
    ret (JSONError 400 "Invalid email")
  else
    let suffix := upload_suffix audio_filename in
    let* u := uuid4 in
    let dest := upload_path u suffix in
    write_file dest audio_bytes;;
    let* guard := duration_guard dest in
    match guard with
    | Some response => ret response
    | None =>
        let* u2 := uuid4 in
        let id := Py.prefix 12 u2 in
        let* t := now in
        let job := {| job_id := id; email := email_addr; audio_path := dest;
                      filename := audio_filename; submitted_at := t |} in
        q_put job;;
        start_worker;;
        ret (Accepted ("Job accepted (ID: " +:+ id
                       +:+ "). Check email (or fallback file).") id)
    end.

(** *** The process, without interruption

    The intake handler runs on the server's event loop and the worker on
    its own thread.  In the runs of this section a thread is not
    interrupted: a run is a sequence of actions, in each of which a request
    is served from its arrival to its answer, or the worker thread, when
    alive, takes one whole turn of its loop.  An exception that leaves the
    loop ends the thread.  These are some of the runs of the process; all of
    them, with the library calls of the threads interleaved, are the runs of
    [run_picks] below. *)

Inductive Action :=
| Request (email_addr audio_filename audio_bytes : string)
| WorkerTurn.

Definition worker_turn (w : World) : World :=
  if worker_alive w then
    match worker_iteration w with
    | (Ok _, w') => w'
    | (Raise _, w') => with_worker_alive false w'
    end
  else w.

Definition act (w : World) (a : Action) : World :=
  match a with
  | Request e f b => snd (submit e f b w)
  | WorkerTurn => worker_turn w
  end.

Definition run (acts : list Action) (w : World) : World :=
  fold_left act acts w.

End App.

(** The process after import: no job, no worker thread, nothing done yet. *)
Definition boot (fs : gmap string FileData) : World :=
  {| files := fs; job_q := []; worker_alive := false;
     n_uuid := 0; n_time := 0; trace := [] |}.

(** ** Reading a trace *)

(** The events a computation added to the trace of [w]. *)
Definition since (w w' : World) : list Event :=
  drop (length (trace w)) (trace w').

Definition enqueued (tr : list Event) : list Job :=
  omap (fun ev => match ev with EvPut j => Some j | _ => None end) tr.

Definition dequeued (tr : list Event) : list Job :=
  omap (fun ev => match ev with EvGet j => Some j | _ => None end) tr.

Definition exported (tr : list Event) : list Audio :=
  omap (fun ev => match ev with EvExport _ a => Some a | _ => None end) tr.

Definition inferred (tr : list Event) : list (res string) :=
  omap (fun ev => match ev with EvInfer _ r => Some r | _ => None end) tr.

Definition written (tr : list Event) : list (string * string) :=
  omap (fun ev => match ev with EvWrite p d => Some (p, d) | _ => None end) tr.

(** The worker as a two-state machine that reads the trace: it holds no job
    until an [EvGet], and holds one until the next [EvTaskDone].  [Some h]
    is its state after the trace; [None] says that a job was taken while one
    was held, or marked done while none was. *)
Fixpoint worker_state (holding : bool) (tr : list Event) : option bool :=
  match tr with
  | [] => Some holding
  | EvGet _ :: t => if holding then None else worker_state true t
  | EvTaskDone :: t => if holding then worker_state false t else None
  | _ :: t => worker_state holding t
  end.

(** ** Environments and inputs used in the examples *)

(** The check of Python's default e-mail policy on a header value: a
    value that [str.splitlines] cuts in more than one line is refused with
    a ValueError. *)
Definition refused_header (value : string) : option exn :=
  if Py.line_inside value
  then Some (Exn "Header values may not contain linefeed or carriage return characters")
  else None.

(** [add_attachment] stores the content type and a disposition that quotes
    the file name, 'attachment; filename="..."', through that policy; a
    file name outside ASCII is encoded first and holds no line end then. *)
Definition refused_attachment (fname maintype subtype : string) : option exn :=
  if Py.line_inside (maintype +:+ "/" +:+ subtype)
     || (Py.isascii fname && Py.has_line_end fname)
  then Some (Exn "Header values may not contain linefeed or carriage return characters")
  else None.

Lemma refused_header_law (name value : string) :
  Py.line_inside value = true -> refused_header value <> None.
Proof. unfold refused_header. by intros ->. Qed.

Lemma refused_attachment_law (fname maintype subtype : string) :
  refused_attachment fname maintype subtype <> None ->
  Py.has_line_end fname = true \/
  Py.line_inside (maintype +:+ "/" +:+ subtype) = true.
Proof.
  unfold refused_attachment.
  destruct (Py.line_inside _); [by right|]. simpl.
  destruct (Py.isascii fname); simpl; [|done].
  destruct (Py.has_line_end fname); [by left|done].
Qed.

(** A machine on which nothing fails: every byte of an upload decodes to one
    second of sound, an empty upload does not decode, the model hears a
    fixed sentence, and header values and attachments are checked as Python
    does. *)
Definition calm_env : Env :=
  {| tmpdir := "/tmp";
     uuid4_hex := fun n => "0123456789abcdef" +:+ pretty n;
     time_time := fun _ => 1700000000;
     decode := fun b => if Py.truthy b
                        then Ok (repeat 0 (1000 * String.length b)%nat)
                        else Raise (Exn "Decoding failed");
     export_err := fun _ => None;
     model_transcribe := fun _ _ => Ok " hello world ";
     header_err := fun _ v => refused_header v;
     attach_err := refused_attachment;
     smtp_err := fun _ => None;
     open_err := fun _ => None;
     remove_err := fun _ => None;
     format_exc := fun e => "Traceback (most recent call last): " +:+ exn_msg e;
     header_law := refused_header_law;
     attach_law := refused_attachment_law |}.

(** The same machine with another transport, model, or file system. *)
Definition with_smtp_err (f : EmailMessage -> option exn) (env : Env) : Env :=
  {| tmpdir := tmpdir env; uuid4_hex := uuid4_hex env; time_time := time_time env;
     decode := decode env; export_err := export_err env;
     model_transcribe := model_transcribe env; header_err := header_err env;
     attach_err := attach_err env;
     smtp_err := f; open_err := open_err env; remove_err := remove_err env;
     format_exc := format_exc env;
     header_law := header_law env; attach_law := attach_law env |}.

Definition with_model (f : string -> Audio -> res string) (env : Env) : Env :=
  {| tmpdir := tmpdir env; uuid4_hex := uuid4_hex env; time_time := time_time env;
     decode := decode env; export_err := export_err env;
     model_transcribe := f; header_err := header_err env;
     attach_err := attach_err env;
     smtp_err := smtp_err env; open_err := open_err env; remove_err := remove_err env;
     format_exc := format_exc env;
     header_law := header_law env; attach_law := attach_law env |}.

Definition with_open_err (f : string -> option exn) (env : Env) : Env :=
  {| tmpdir := tmpdir env; uuid4_hex := uuid4_hex env; time_time := time_time env;
     decode := decode env; export_err := export_err env;
     model_transcribe := model_transcribe env; header_err := header_err env;
     attach_err := attach_err env;
     smtp_err := smtp_err env; open_err := f; remove_err := remove_err env;
     format_exc := format_exc env;
     header_law := header_law env; attach_law := attach_law env |}.

Definition with_remove_err (f : string -> option exn) (env : Env) : Env :=
  {| tmpdir := tmpdir env; uuid4_hex := uuid4_hex env; time_time := time_time env;
     decode := decode env; export_err := export_err env;
     model_transcribe := model_transcribe env; header_err := header_err env;
     attach_err := attach_err env;
     smtp_err := smtp_err env; open_err := open_err env; remove_err := f;
     format_exc := format_exc env;
     header_law := header_law env; attach_law := attach_law env |}.

(** A transport that is down. *)
Definition offline_env : Env :=
  with_smtp_err (fun _ => Some (Exn "[Errno 111] Connection refused")) calm_env.

(** ** Effects that a computation leaves alone

    [keeps R m]: whatever [m] does, the world it ends in is [R]-related to
    the one it started in.  With a pre-order [R] the property follows the
    structure of the program. *)

Definition keeps {A} (R : relation World) (m : M A) : Prop :=
  forall w, R w (snd (m w)).

(** Computations that change nothing. *)
Definition unchanged : relation World := fun w w' => w' = w.

(** Computations that leave the queue and the worker thread alone and add
    to the trace no queue event. *)
Definition quiet (ev : Event) : bool :=
  match ev with
  | EvPut _ | EvGet _ | EvTaskDone => false
  | _ => true
  end.

Definition quietly : relation World := fun w w' =>
  job_q w' = job_q w /\ worker_alive w' = worker_alive w /\
  exists evs, trace w' = trace w ++ evs /\ forallb quiet evs = true.

(** ** What the chunked branch computes *)

(** The text a chunk contributes, from the outcome of the model on it: the
    stripped text, or the marker of the [except] clause. *)
Definition chunk_text (idx : nat) (r : res string) : string :=
  match r with
  | Ok t => Py.strip t
  | Raise e => chunk_error idx e
  end.

(** The audio of the window that starts at [start_ms]. *)
Definition window (a : Audio) (seg_len_ms start_ms : Z) : Audio :=
  audio_slice a start_ms (Z.min (start_ms + seg_len_ms) (audio_len a)).

(** The events of the chunk loop: the model is called on a chunk, then the
    chunk file is removed. *)
Definition chunk_events (paths : list string) (outs : list (res string))
  : list Event :=
  mjoin (zip_with (fun p r => [EvInfer p r; EvRemove p]) paths outs).

(** ** The statements under test, in the specification's words *)

Module Spec.

(** "the first attachment's raw payload if any attachment exists,
    otherwise the raw body text" *)
Definition fallback_payload (body_text : string)
    (attachments : option (list Attachment)) : string :=
  match attachments with
  | Some (a :: _) => att_bytes a
  | _ => body_text
  end.

(** "a transcript containing N positions, with the failing position
    replaced by an error marker and the other N-1 positions containing
    real text": the blank-line join of one text per segment. *)
Definition body (outs : list (res string)) : string :=
  Py.join (LF +:+ LF) (zip_with chunk_text (seq 1 (length outs)) outs).

End Spec.

(** ** Inputs used in the examples *)

Definition attachment (name bytes mime : string) : Attachment :=
  {| att_filename := name; att_bytes := bytes; att_mime := mime |}.

(** An address that passes the intake check and carries a second line. *)
Definition two_line_address : string :=
  "a@b.c" +:+ LF +:+ "Bcc: x@y.z".

(** One-second segments, chunking above two seconds. *)
Definition short_segments : Config :=
  {| SEG_LEN_SECONDS := 1; CHUNK_THRESHOLD_S := 2; MAX_UPLOAD_S := 600;
     EMAIL_FROM := "no-reply@example.com" |}.

(** The process at start with one decodable file in the temporary
    directory. *)
Definition one_file (path : string) (a : Audio) : World :=
  boot {[ path := Wav a ]}.

(** Two and a half seconds of sound; the three seconds differ in their
    frames. *)
Definition three_parts : Audio :=
  repeat 1 1000 ++ repeat 2 1000 ++ repeat 3 500.

(** A model that hears words in frames 1, silence in frames 2, and fails on
    frames 3. *)
Definition patchy_model (path : string) (a : Audio) : res string :=
  match a with
  | 1 :: _ => Ok " first words "
  | 2 :: _ => Ok "   "
  | _ => Raise (Exn "CUDA out of memory")
  end.

Definition patchy_env : Env := with_model patchy_model calm_env.

(** A file system that refuses every removal. *)
Definition locked_env : Env :=
  with_remove_err (fun _ => Some (Exn "[Errno 13] Permission denied")) calm_env.

(** Ninety bytes, which [calm_env] decodes to ninety seconds. *)
Definition ninety_bytes : string :=
  string_of_list_ascii (repeat "x"%char 90).

(** Events that are not a turn of the worker. *)
Definition no_turn (ev : Event) : bool :=
  match ev with
  | EvGet _ | EvTaskDone => false
  | _ => true
  end.

(** What serving a request may do: add events that are no turn of the
    worker, and put on the tail of the queue the jobs of its [EvPut]
    events. *)
Definition intake : relation World := fun w w' =>
  exists evs, trace w' = trace w ++ evs /\ forallb no_turn evs = true /\
              job_q w' = job_q w ++ enqueued evs.

(** The invariant of the process: the jobs taken by the worker, followed by
    the jobs that wait, are the jobs put, in the order they were put; and
    the worker holds no job between two actions. *)
Definition in_order (w : World) : Prop :=
  dequeued (trace w) ++ job_q w = enqueued (trace w) /\
  worker_state false (trace w) = Some false.

(** A machine on which the model, the transport, the fallback write and
    every removal fail. *)
Definition hostile_env : Env :=
  with_model (fun _ _ => Raise (Exn "CUDA out of memory"))
    (with_open_err (fun _ => Some (Exn "[Errno 28] No space left on device"))
       (with_remove_err (fun _ => Some (Exn "[Errno 13] Permission denied"))
          offline_env)).

(** A job as [submit] builds it. *)
Definition job_for (id address path : string) : Job :=
  {| job_id := id; email := address; audio_path := path;
     filename := "clip.mp3"; submitted_at := 1700000000 |}.

(** Two requests, the first with a two-line address, then three turns of
    the worker. *)
Definition two_requests : list Action :=
  [ Request two_line_address "first.mp3" "abc";
    Request "good@b.c" "second.mp3" "abcd" ].

Definition three_turns : list Action := [WorkerTurn; WorkerTurn; WorkerTurn].

(** ** Further readers of the trace *)

Definition sent (tr : list Event) : list EmailMessage :=
  omap (fun ev => match ev with EvSend m _ => Some m | _ => None end) tr.

Definition removed (tr : list Event) : list string :=
  omap (fun ev => match ev with EvRemove p => Some p | _ => None end) tr.

Definition tasks_done (tr : list Event) : nat :=
  length (omap (fun ev => match ev with EvTaskDone => Some tt | _ => None end) tr).

(** The events of the audio pipeline: exports, calls of the model and
    removals. *)
Definition audio_event (ev : Event) : bool :=
  match ev with
  | EvExport _ _ | EvInfer _ _ | EvRemove _ => true
  | _ => false
  end.

(** Computations that add to the trace only events that satisfy [P]. *)
Definition adding (P : Event -> bool) : relation World := fun w w' =>
  exists evs, trace w' = trace w ++ evs /\ forallb P evs = true.

(** The three header values of the e-mail of job [j] are accepted by the
    mail library. *)
Definition headers_accepted (env : Env) (cfg : Config) (j : Job) : Prop :=
  header_err env "From" (EMAIL_FROM cfg) = None /\
  header_err env "To" (email j) = None /\
  header_err env "Subject" (email_subject (job_id j)) = None.

(** The e-mail the worker builds for job [j] and a transcript. *)
Definition job_message (cfg : Config) (j : Job) (transcript : string)
  : EmailMessage :=
  {| msg_from := EMAIL_FROM cfg; msg_to := email j;
     msg_subject := email_subject (job_id j);
     msg_content := email_body (job_id j) (filename j) transcript;
     msg_parts := [ {| part_filename := "transcript_" +:+ job_id j +:+ ".txt";
                       part_bytes := transcript;
                       part_maintype := "text"; part_subtype := "plain" |} ] |}.

(** The transcript the worker mails: the one [transcribe_file] returns, or
    the text of the [except] clause when it raises. *)
Definition mailed_transcript (env : Env) (r : res string) : string :=
  match r with
  | Ok t => t
  | Raise e => transcription_failed env e
  end.

(** A job whose upload is in the temporary directory. *)
Definition waiting_job : Job :=
  job_for "0123456789ab" "a@b.c" "/tmp/upload_1.mp3".

Definition one_waiting : World :=
  one_file "/tmp/upload_1.mp3" three_parts.

(** Configurations with a segment length that is not positive. *)
Definition zero_segments : Config :=
  {| SEG_LEN_SECONDS := 0; CHUNK_THRESHOLD_S := 2; MAX_UPLOAD_S := 600;
     EMAIL_FROM := "no-reply@example.com" |}.

Definition negative_segments : Config :=
  {| SEG_LEN_SECONDS := -5; CHUNK_THRESHOLD_S := 2; MAX_UPLOAD_S := 600;
     EMAIL_FROM := "no-reply@example.com" |}.

(** ** The names of the temporary files *)

(** The text after the last [c] of [s]; [acc] when [s] holds none. *)
Fixpoint after_last (c : ascii) (acc s : string) : string :=
  match s with
  | EmptyString => acc
  | String d t => if Ascii.eqb d c then after_last c t t else after_last c acc t
  end.

(** What [tmp_path] puts before a name that starts with no separator. *)
Definition tmp_prefix (env : Env) : string :=
  match tmpdir env with
  | EmptyString => EmptyString
  | a => if String.eqb (substring (String.length a - 1) 1 a) "/"
         then a else a +:+ "/"
  end.

(** The path of a chunk file with index [i], as [split_audio_to_files]
    names it: the index is the last field of the name. *)
Definition chunk_named (env : Env) (p : string) (i : nat) : Prop :=
  exists mid, p = tmp_prefix env +:+ "whisper_chunk_" +:+ mid +:+ "_"
                  +:+ pretty i +:+ ".wav".

(** The outcome of the model on each chunk file, given what the file
    holds. *)
Definition model_on (env : Env) (paths : list string) (chunks : list Audio)
  : list (res string) :=
  zip_with (model_transcribe env) paths chunks.

(** ** Threads

    The worker runs on a thread of its own and the handler of a request on
    the event loop of the server, so that the library calls of the two
    interleave.  [Prog A] is a computation as the sequence of its library
    calls: each call is one step on the world, and the rest of the
    computation depends on what the call returned or raised. *)
Inductive Prog (A : Type) : Type :=
| Done (r : res A)
| Call {X : Type} (op : M X) (k : res X -> Prog A).
Arguments Done {A} r.
Arguments Call {A X} op k.

(** [p], then [f] on its outcome. *)
Fixpoint and_then {A B} (p : Prog A) (f : res A -> Prog B) : Prog B :=
  match p with
  | Done r => f r
  | Call op k => Call op (fun x => and_then (k x) f)
  end.

(** A thread that is never interrupted is the computation of [M]. *)
Fixpoint interp {A} (p : Prog A) (w : World) : res A * World :=
  match p with
  | Done r => (r, w)
  | Call op k => let (x, w') := op w in interp (k x) w'
  end.

Declare Scope steps_scope.
Delimit Scope steps_scope with steps.

(** The program of [Section App] once more, call by call. *)
Module Steps.

Definition call {X} (op : M X) : Prog X := Call op Done.

Definition ret {A} (a : A) : Prog A := Done (Ok a).

Definition bind {A B} (p : Prog A) (k : A -> Prog B) : Prog B :=
  and_then p (fun r => match r with
                       | Ok a => k a
                       | Raise e => Done (Raise e)
                       end).

Definition try_except {A} (body : Prog A) (handler : exn -> Prog A) : Prog A :=
  and_then body (fun r => match r with
                          | Ok a => Done (Ok a)
                          | Raise e => handler e
                          end).

Definition try_finally {A} (body : Prog A) (fin : Prog unit) : Prog A :=
  and_then body (fun r =>
    and_then fin (fun rf => match rf with
                            | Ok _ => Done r
                            | Raise e => Done (Raise e)
                            end)).

Notation "'let*' x ':=' m 'in' k" := (bind m (fun x => k))
  (at level 10, x pattern, m at level 100, k at level 200) : steps_scope.
Notation "m ';;' k" := (bind m (fun _ => k))
  (at level 100, k at level 200, right associativity) : steps_scope.
#[local] Open Scope steps_scope.

Fixpoint for_each {A B} (body : A -> Prog B) (l : list A) : Prog (list B) :=
  match l with
  | [] => ret []
  | x :: t => let* y := body x in
              let* ys := for_each body t in
              ret (y :: ys)
  end.

Section App.

Context (env : Env) (cfg : Config).

Definition ensure_wav_copy (in_path : string) : Prog (string * Z) :=
  let* u := call (uuid4 env) in
  let out_path := tmp_path env ("whisper_input_" +:+ u +:+ ".wav") in
  let* audio := call (from_file env in_path) in
  call (export env audio out_path);;
  ret (out_path, audio_len audio).

Definition export_segment (audio : Audio) (duration_ms seg_len_ms base_ts : Z)
    (entry : nat * Z) : Prog string :=
  let '(i, start_ms) := entry in
  let end_ms := Z.min (start_ms + seg_len_ms) duration_ms in
  let chunk := audio_slice audio start_ms end_ms in
  let* u := call (uuid4 env) in
  let out_path :=
    tmp_path env ("whisper_chunk_" +:+ pretty base_ts +:+ "_" +:+ u +:+ "_"
                  +:+ pretty i +:+ ".wav") in
  call (export env chunk out_path);;
  ret out_path.

Definition split_audio_to_files (audio_path : string) (seg_len_s : Z)
  : Prog (list string) :=
  let* audio := call (from_file env audio_path) in
  let duration_ms := audio_len audio in
  let seg_len_ms := seg_len_s * 1000 in
  let* base_ts := call (now env) in
  let* starts := call (segment_starts duration_ms seg_len_ms) in
  for_each (export_segment audio duration_ms seg_len_ms base_ts)
           (Py.enumerate 0%nat starts).

Definition transcribe_chunk (path : string) : Prog string :=
  let* text := call (whisper env path) in
  ret (Py.strip text).

Definition transcribe_one (ip : nat * string) : Prog string :=
  let '(idx, p) := ip in
  let* txt := try_except (transcribe_chunk p)
                         (fun e => ret (chunk_error idx e)) in
  try_except (call (os_remove env p)) (fun _ => ret tt);;
  ret txt.

Definition transcribe_body (wav_path : string) (duration_ms : Z) : Prog string :=
  if longer_than duration_ms (CHUNK_THRESHOLD_S cfg) then
    let* out_paths := split_audio_to_files wav_path (SEG_LEN_SECONDS cfg) in
    let* parts := for_each transcribe_one (Py.enumerate 1%nat out_paths) in
    let joined := Py.join (LF +:+ LF) (filter (fun p => Py.truthy p = true) parts) in
    let summary := chunked_summary (length out_paths) duration_ms in
    ret (summary +:+ LF +:+ LF +:+ joined)
  else
    let* text := call (whisper env wav_path) in
    let summary := single_summary duration_ms in
    ret (summary +:+ LF +:+ LF +:+ Py.strip text).

Definition remove_working_file (wav_path : string) : Prog unit :=
  try_except
    (if Py.truthy wav_path then
       let* there := call (os_path_exists wav_path) in
       if there then call (os_remove env wav_path) else ret tt
     else ret tt)
    (fun _ => ret tt).

Definition transcribe_file (audio_path : string) : Prog string :=
  let* (wav_path, duration_ms) := ensure_wav_copy audio_path in
  try_finally (transcribe_body wav_path duration_ms)
              (remove_working_file wav_path).

Definition build_message (to_address subject body_text : string)
    (attachments : option (list Attachment)) : Prog EmailMessage :=
  call (set_header env "From" (EMAIL_FROM cfg));;
  call (set_header env "To" to_address);;
  call (set_header env "Subject" subject);;
  let* parts :=
    for_each
      (fun a =>
         let* (maintype, subtype) := call (split_mime (att_mime a)) in
         call (add_attachment env (att_filename a) maintype subtype);;
         ret {| part_filename := att_filename a; part_bytes := att_bytes a;
                part_maintype := maintype; part_subtype := subtype |})
      (some_attachments attachments) in
  ret {| msg_from := EMAIL_FROM cfg; msg_to := to_address;
         msg_subject := subject; msg_content := body_text;
         msg_parts := parts |}.

Definition send_email_with_fallback (to_address subject body_text : string)
    (attachments : option (list Attachment))
    (fallback_save_path : option string) : Prog (bool * option string) :=
  let* msg := build_message to_address subject body_text attachments in
  let* failure :=
    try_except (call (smtp_deliver env msg);; ret None)
               (fun e => ret (Some (smtp_error_text env e))) in
  match failure with
  | None => ret (true, None)
  | Some err =>
      match path_given fallback_save_path with
      | Some path =>
          try_except
            (call (write_file env path (fallback_payload body_text attachments)))
            (fun _ => ret tt)
      | None => ret tt
      end;;
      ret (false, Some err)
  end.

Definition process_job (job : Job) : Prog unit :=
  let* transcript :=
    try_except (transcribe_file (audio_path job))
               (fun e => ret (transcription_failed env e)) in
  let subject := email_subject (job_id job) in
  let body := email_body (job_id job) (filename job) transcript in
  let fallback_path := fallback_path_of env (job_id job) in
  let* _ :=
    send_email_with_fallback (email job) subject body
      (Some [ {| att_filename := "transcript_" +:+ job_id job +:+ ".txt";
                 att_bytes := transcript; att_mime := "text/plain" |} ])
      (Some fallback_path) in
  try_except
    (let* there := call (os_path_exists (audio_path job)) in
     if there then call (os_remove env (audio_path job)) else ret tt)
    (fun _ => ret tt).

Definition worker_iteration : Prog unit :=
  let* got := call q_get in
  match got with
  | None => ret tt
  | Some job => try_finally (process_job job) (call task_done)
  end.

Definition duration_guard (dest : string) : Prog (option Response) :=
  try_except
    (let* a := call (from_file env dest) in
     let duration_ms := audio_len a in
     if longer_than duration_ms (MAX_UPLOAD_S cfg) then
       try_except (call (os_remove env dest)) (fun _ => ret tt);;
       ret (Some (JSONError 400 (too_long_message cfg duration_ms)))
     else ret None)
    (fun _ => ret None).

Definition submit (email_addr : string) (audio_filename audio_bytes : string)
  : Prog Response :=
  if negb (Py.contains "@" email_addr) then
    ret (JSONError 400 "Invalid email")
  else
    let suffix := upload_suffix audio_filename in
    let* u := call (uuid4 env) in
    let dest := upload_path env u suffix in
    call (write_file env dest audio_bytes);;
    let* guard := duration_guard dest in
    match guard with
    | Some response => ret response
    | None =>
        let* u2 := call (uuid4 env) in
        let id := Py.prefix 12 u2 in
        let* t := call (now env) in
        let job := {| job_id := id; email := email_addr; audio_path := dest;
                      filename := audio_filename; submitted_at := t |} in
        call (q_put job);;
        call start_worker;;
        ret (Accepted ("Job accepted (ID: " +:+ id
                       +:+ "). Check email (or fallback file).") id)
    end.

End App.

End Steps.

(** [p] run without interruption does what [m] does. *)
Definition runs_as {A} (p : Prog A) (m : M A) : Prop :=
  forall w, interp p w = m w.

(** *** The process, call by call

    The threads of the process: the worker, when it is inside a turn of
    its loop, with the rest of that turn; and the handlers of the requests
    that are being served, each with the rest of its work.  The journal is
    the trace with the thread that made each event. *)
Inductive Who := WorkerThread | EventLoop.

#[global] Instance Who_eq_dec : EqDecision Who.
Proof. solve_decision. Defined.

Record Proc := {
  world : World;
  worker : option (Prog unit);
  handlers : list (Prog Response);
  journal : list (Who * Event)
}.

(** What the scheduler does next: a request arrives and its handler
    starts; the handler of the [i]-th request in service makes its next
    library call, or answers when it has none left; the worker thread makes
    its next library call, or goes to the next turn of its loop when the
    turn has none left. *)
Inductive Pick :=
| Arrive (email_addr audio_filename audio_bytes : string)
| Serve (i : nat)
| Work.

Definition by_thread (who : Who) (jl : list (Who * Event)) : list Event :=
  omap (fun x => if decide (x.1 = who) then Some x.2 else None) jl.

Section Threads.

Context (env : Env) (cfg : Config).

Definition step (pr : Proc) (pick : Pick) : Proc :=
  match pick with
  | Arrive e f b =>
      {| world := world pr; worker := worker pr;
         handlers := handlers pr ++ [Steps.submit env cfg e f b];
         journal := journal pr |}
  | Serve i =>
      match handlers pr !! i with
      | Some (Call op k) =>
          let (x, w') := op (world pr) in
          {| world := w'; worker := worker pr;
             handlers := <[i := k x]> (handlers pr);
             journal := journal pr
                        ++ ((fun ev => (EventLoop, ev)) <$> since (world pr) w') |}
      | Some (Done _) =>
          {| world := world pr; worker := worker pr;
             handlers := delete i (handlers pr); journal := journal pr |}
      | None => pr
      end
  | Work =>
      match worker pr with
      | Some (Call op k) =>
          let (x, w') := op (world pr) in
          {| world := w'; worker := Some (k x); handlers := handlers pr;
             journal := journal pr
                        ++ ((fun ev => (WorkerThread, ev)) <$> since (world pr) w') |}
      | Some (Done (Ok _)) =>
          {| world := world pr; worker := None; handlers := handlers pr;
             journal := journal pr |}
      | Some (Done (Raise _)) =>
          {| world := with_worker_alive false (world pr); worker := None;
             handlers := handlers pr; journal := journal pr |}
      | None =>
          if worker_alive (world pr)
          then {| world := world pr;
                  worker := Some (Steps.worker_iteration env cfg);
                  handlers := handlers pr; journal := journal pr |}
          else pr
      end
  end.

Definition run_picks (picks : list Pick) (pr : Proc) : Proc :=
  fold_left step picks pr.

End Threads.

(** The process after import. *)
Definition start (fs : gmap string FileData) : Proc :=
  {| world := boot fs; worker := None; handlers := []; journal := [] |}.

(** *** What a thread may do, whatever the other threads do *)

(** Every library call of [p], in whatever world it is made, leaves a
    world that is [R]-related to that world. *)
Fixpoint calls {A} (R : relation World) (p : Prog A) : Prop :=
  match p with
  | Done _ => True
  | Call op k => keeps R op /\ forall x, calls R (k x)
  end.

(** [Q evs r] holds of the events [evs] that the calls of [p] add to the
    trace and of the outcome [r] of [p], whatever the world is at each of
    the calls. *)
Fixpoint emits {A} (p : Prog A) (Q : list Event -> res A -> Prop) : Prop :=
  match p with
  | Done r => Q [] r
  | Call op k =>
      forall w, emits (k (fst (op w)))
                      (fun evs r => Q (since w (snd (op w)) ++ evs) r)
  end.

(** A thread that adds only events that satisfy [P]. *)
Definition yields {A} (P : Event -> bool) (p : Prog A) : Prop :=
  emits p (fun evs _ => forallb P evs = true).

(** The events of a handler: the upload is saved, a rejected upload is
    removed, a job is put. *)
Definition request_event (ev : Event) : bool :=
  match ev with
  | EvPut _ | EvWrite _ _ | EvRemove _ => true
  | _ => false
  end.

(** What a call of a handler may do. *)
Definition serving : relation World := fun w w' =>
  exists evs, trace w' = trace w ++ evs /\ forallb request_event evs = true /\
              job_q w' = job_q w ++ enqueued evs.

(** What any call may do to the queue: the jobs it takes leave the head of
    the queue and the jobs it puts join the tail. *)
Definition fifo : relation World := fun w w' =>
  exists evs, trace w' = trace w ++ evs /\
              dequeued evs ++ job_q w' = job_q w ++ enqueued evs.

(** The events of the work on job [j]: no event of the queue, at most one
    SMTP session, and that for the e-mail of [j]. *)
Definition job_work (j : Job) (work : list Event) : Prop :=
  forallb quiet work = true /\
  (length (sent work) <= 1)%nat /\
  Forall (fun m => msg_to m = email j /\
                   msg_subject m = email_subject (job_id j)) (sent work).

(** The events of the turn of the loop in which job [j] is processed. *)
Definition job_turn (jw : Job * list Event) : list Event :=
  EvGet jw.1 :: jw.2 ++ [EvTaskDone].

(** A whole turn of the loop: nothing when the queue is empty; else a job
    is taken, worked on and marked done, and when its headers are accepted
    the turn returns and has sent the e-mail of the job. *)
Definition whole_turn (env : Env) (cfg : Config) (evs : list Event)
    (r : res unit) : Prop :=
  evs = [] \/
  exists j work,
    evs = job_turn (j, work) /\ job_work j work /\
    (headers_accepted env cfg j ->
       r = Ok tt /\ exists t, sent work = [job_message cfg j t]).

(** The events of a job that are neither of the queue nor an SMTP
    session. *)
Definition backstage (ev : Event) : bool :=
  match ev with
  | EvExport _ _ | EvInfer _ _ | EvWrite _ _ | EvRemove _ => true
  | _ => false
  end.

(** A thread that returns, whatever its calls do. *)
Definition returns {A} (p : Prog A) : Prop :=
  emits p (fun _ r => exists a, r = Ok a).

(** A thread that returns and adds only events that satisfy [P]. *)
Definition quietly_returns {A} (P : Event -> bool) (p : Prog A) : Prop :=
  emits p (fun evs r => forallb P evs = true /\ exists a, r = Ok a).

(** The invariant of the process: the journal is the trace; the jobs taken,
    followed by the jobs that wait, are the jobs put; the handlers only
    serve; and the events of the worker are whole turns of its loop,
    followed by the events of the turn it is in, which the rest of the turn
    completes. *)
Definition tidy (env : Env) (cfg : Config) (pr : Proc) : Prop :=
  snd <$> journal pr = trace (world pr) /\
  dequeued (trace (world pr)) ++ job_q (world pr) = enqueued (trace (world pr)) /\
  Forall (calls serving) (handlers pr) /\
  forallb request_event (by_thread EventLoop (journal pr)) = true /\
  exists turns pre,
    by_thread WorkerThread (journal pr) = mjoin turns ++ pre /\
    Forall (fun t => exists r, whole_turn env cfg t r) turns /\
    match worker pr with
    | None => pre = []
    | Some p =>
        calls fifo p /\
        emits p (fun evs r => whole_turn env cfg (pre ++ evs) r)
    end.

(** A job that was processed, with the events of the work on it: when the
    headers of its e-mail are accepted, the e-mail was sent. *)
Definition processed (env : Env) (cfg : Config) (jw : Job * list Event) : Prop :=
  job_work jw.1 jw.2 /\
  (headers_accepted env cfg jw.1 ->
     exists t, sent jw.2 = [job_message cfg jw.1 t]).

(** The events of the turn the worker is in: the job it took and the work
    on it so far. *)
Definition open_turn (current : option (Job * list Event)) : list Event :=
  match current with
  | Some jw => EvGet jw.1 :: jw.2
  | None => []
  end.

(** A schedule in which a second request arrives and is served while the
    worker is at work on the job of the first. *)
Definition during_a_job : list Pick :=
  [Arrive "first@b.c" "one.mp3" "abc"] ++ replicate 8 (Serve 0)
  ++ replicate 5 Work
  ++ [Arrive "second@b.c" "two.mp3" "abcd"] ++ replicate 8 (Serve 0)
  ++ replicate 40 Work.

(** An event in a few words. *)
Definition label (ev : Event) : string :=
  match ev with
  | EvPut j => "put " +:+ job_id j
  | EvGet j => "get " +:+ job_id j
  | EvTaskDone => "task_done"
  | EvExport p _ => "export " +:+ p
  | EvInfer p _ => "transcribe " +:+ p
  | EvSend m _ => "send to " +:+ msg_to m
  | EvWrite p _ => "write " +:+ p
  | EvRemove p => "remove " +:+ p
  end.

(** * Proofs *)

(** ** Structure of [keeps] *)

Section Keeps.

Context (R : relation World) `{!PreOrder R}.

Lemma keeps_ret {A} (a : A) : keeps R (ret a).
Proof. intros w. simpl. reflexivity. Qed.

Lemma keeps_raise {A} (e : exn) : keeps R (@raise A e).
Proof. intros w. simpl. reflexivity. Qed.

Lemma keeps_bind {A B} (m : M A) (k : A -> M B) :
  keeps R m -> (forall a, keeps R (k a)) -> keeps R (bind m k).
Proof.
  intros Hm Hk w. unfold bind. specialize (Hm w).
  destruct (m w) as [[a|e] w1]; simpl in *; [|done].
  etransitivity; [exact Hm | apply Hk].
Qed.

Lemma keeps_try_except {A} (m : M A) (h : exn -> M A) :
  keeps R m -> (forall e, keeps R (h e)) -> keeps R (try_except m h).
Proof.
  intros Hm Hh w. unfold try_except. specialize (Hm w).
  destruct (m w) as [[a|e] w1]; simpl in *; [done|].
  etransitivity; [exact Hm | apply Hh].
Qed.

Lemma keeps_try_finally {A} (m : M A) (fin : M unit) :
  keeps R m -> keeps R fin -> keeps R (try_finally m fin).
Proof.
  intros Hm Hf w. unfold try_finally. specialize (Hm w).
  destruct (m w) as [r w1]. specialize (Hf w1).
  destruct (fin w1) as [[u|e] w2]; simpl in *; etransitivity; eauto.
Qed.

Lemma keeps_for_each {A B} (body : A -> M B) (l : list A) :
  (forall x, keeps R (body x)) -> keeps R (for_each body l).
Proof.
  intros Hb. induction l as [|x t IH]; simpl.
  - apply keeps_ret.
  - apply keeps_bind; [apply Hb|]. intros y.
    apply keeps_bind; [apply IH|]. intros ys. apply keeps_ret.
Qed.

End Keeps.

(** Taking a [keeps] goal apart along the program text. *)
Ltac keeps_step :=
  first
    [ match goal with |- PreOrder _ => typeclasses eauto end
    | apply keeps_ret | apply keeps_raise
    | apply keeps_bind | apply keeps_try_except | apply keeps_try_finally
    | apply keeps_for_each
    | match goal with
      | |- keeps _ (match ?x with _ => _ end) => destruct x
      | |- forall _, _ => intro
      end ].

Ltac keeps_tac := repeat (try assumption; keeps_step).

#[local] Instance unchanged_preorder : PreOrder unchanged.
Proof. split; [intros w; reflexivity | intros a b c H1 H2; unfold unchanged in *; congruence]. Qed.

#[local] Instance quietly_preorder : PreOrder quietly.
Proof.
  split.
  - intros w. repeat split. exists []. by rewrite app_nil_r.
  - intros a b c (Hq1 & Ha1 & e1 & Ht1 & Hf1) (Hq2 & Ha2 & e2 & Ht2 & Hf2).
    repeat split; [congruence | congruence |].
    exists (e1 ++ e2). rewrite Ht2, Ht1, <- app_assoc. split; [done|].
    rewrite forallb_app, Hf1, Hf2. done.
Qed.

Lemma quietly_emit (ev : Event) (w : World) :
  quiet ev = true -> quietly w (emit ev w).
Proof.
  intros H. repeat split. exists [ev]. split; [done|]. simpl. by rewrite H.
Qed.

Lemma quietly_files (f : gmap string FileData) (w : World) :
  quietly w (with_files f w).
Proof. repeat split. exists []. by rewrite app_nil_r. Qed.

Section Quiet.

Context (env : Env) (cfg : Config).

Lemma quiet_uuid4 : keeps quietly (uuid4 env).
Proof. intros w. repeat split. exists []. simpl. by rewrite app_nil_r. Qed.

Lemma quiet_now : keeps quietly (now env).
Proof. intros w. repeat split. exists []. simpl. by rewrite app_nil_r. Qed.

Lemma quiet_from_file p : keeps quietly (from_file env p).
Proof. intros w. simpl. reflexivity. Qed.

Lemma quiet_os_path_exists p : keeps quietly (os_path_exists p).
Proof. intros w. simpl. reflexivity. Qed.

Lemma quiet_export a p : keeps quietly (export env a p).
Proof.
  intros w. unfold export. destruct (export_err env p); simpl.
  - by apply quietly_emit.
  - etransitivity; [by apply (quietly_emit (EvExport p a))|apply quietly_files].
Qed.

Lemma quiet_whisper p : keeps quietly (whisper env p).
Proof. intros w. unfold whisper. simpl. by apply quietly_emit. Qed.

Lemma quiet_os_remove p : keeps quietly (os_remove env p).
Proof.
  intros w. unfold os_remove.
  destruct (files w !! p); [destruct (remove_err env p)|]; simpl;
    by apply quietly_emit.
Qed.

Lemma quiet_write_file p d : keeps quietly (write_file env p d).
Proof.
  intros w. unfold write_file. destruct (open_err env p); simpl.
  - by apply quietly_emit.
  - etransitivity; [by apply (quietly_emit (EvWrite p d))|apply quietly_files].
Qed.

Lemma quiet_smtp_deliver m : keeps quietly (smtp_deliver env m).
Proof.
  intros w. unfold smtp_deliver. destruct (smtp_err env m); simpl;
    by apply quietly_emit.
Qed.

Create HintDb quiet.

Hint Resolve quiet_uuid4 quiet_now quiet_from_file quiet_os_path_exists
  quiet_export quiet_whisper quiet_os_remove quiet_write_file
  quiet_smtp_deliver : quiet.

Ltac quiet_tac := repeat (first [ solve [auto with quiet] | keeps_step ]).

Lemma quiet_transcribe_file p : keeps quietly (transcribe_file env cfg p).
Proof.
  unfold transcribe_file, ensure_wav_copy, transcribe_body,
    remove_working_file, split_audio_to_files, segment_starts,
    export_segment, transcribe_one, transcribe_chunk.
  quiet_tac.
Qed.

Lemma quiet_send_email a s b atts fb :
  keeps quietly (send_email_with_fallback env cfg a s b atts fb).
Proof.
  unfold send_email_with_fallback, build_message, set_header, split_mime, add_attachment.
  quiet_tac.
Qed.

Lemma quiet_process_job j : keeps quietly (process_job env cfg j).
Proof.
  unfold process_job.
  pose proof quiet_transcribe_file. pose proof quiet_send_email.
  quiet_tac.
Qed.

End Quiet.

(** ** Reading the trace *)

Lemma since_app (w w' : World) (evs : list Event) :
  trace w' = trace w ++ evs -> since w w' = evs.
Proof. intros H. unfold since. rewrite H. apply drop_app_length. Qed.

Lemma since_emit (ev : Event) (w : World) : since w (emit ev w) = [ev].
Proof. by apply since_app. Qed.

(** ** Floats

    The comparison on milliseconds and the comparison of the float agree
    around the default thresholds. *)
Example longer_than_agrees_with_float :
  forallb (fun '(ms, t) =>
             Bool.eqb (longer_than ms t)
                      (PrimFloat.ltb (PrimFloat.of_uint63 (Uint63.of_Z t))
                                     (Py.div1000 ms)))
          [(39999, 40); (40000, 40); (40001, 40);
           (599999, 600); (600000, 600); (600001, 600); (0, 0); (1, 0)]
  = true.
Proof. vm_compute. reflexivity. Qed.

(** ** The notification dispatcher *)

Section Dispatcher.

Context (env : Env) (cfg : Config).

Lemma build_message_unchanged a s b atts :
  keeps unchanged (build_message env cfg a s b atts).
Proof.
  unfold build_message, set_header, split_mime, add_attachment. keeps_tac.
Qed.

(** The message is built from the arguments alone. *)
Lemma build_message_ok a s b atts w msg w' :
  build_message env cfg a s b atts w = (Ok msg, w') ->
  w' = w /\ msg_to msg = a /\ msg_subject msg = s /\ msg_content msg = b.
Proof.
  intros H. split.
  - pose proof (build_message_unchanged a s b atts w) as Hu.
    rewrite H in Hu. exact Hu.
  - revert H. unfold build_message, bind, set_header.
    repeat match goal with
           | |- context [header_err ?e ?n ?v] => destruct (header_err e n v)
           end; simpl; try discriminate.
    match goal with |- context [for_each ?f ?l ?w] => destruct (for_each f l w) as [[ps|e] w1] end;
      simpl; [|discriminate].
    intros [= <- <-]. done.
Qed.

(** Once the message is built the dispatcher returns: a transport failure
    and a failure of the fallback write both end in a returned pair. *)
Lemma send_email_returns a s b atts fb w msg :
  build_message env cfg a s b atts w = (Ok msg, w) ->
  fst (send_email_with_fallback env cfg a s b atts fb w) =
    Ok (match smtp_err env msg with
        | None => (true, None)
        | Some e => (false, Some (smtp_error_text env e))
        end).
Proof.
  intros Hb. unfold send_email_with_fallback, bind at 1. rewrite Hb.
  unfold bind, try_except, smtp_deliver.
  destruct (smtp_err env msg) as [e|]; simpl; [|done].
  destruct (path_given fb) as [path|]; simpl; [|done].
  unfold write_file. destruct (open_err env path); done.
Qed.

End Dispatcher.

(** C4 (as amended): when the transport fails and a fallback path is given,
    the dispatcher makes exactly one fallback write, to that path, of the
    first attachment's bytes when there is a first attachment and its bytes
    are not empty, and of the body text otherwise; whether or not that write
    fails, the dispatcher returns the failure outcome; when the write does
    not fail the file holds the payload. *)
Theorem fallback_written_exactly_once
    (env : Env) (cfg : Config) (a s b : string)
    (atts : option (list Attachment)) (fb : option string)
    (path : string) (msg : EmailMessage) (e : exn) (w : World) :
  build_message env cfg a s b atts w = (Ok msg, w) ->
  smtp_err env msg = Some e ->
  path_given fb = Some path ->
  let out := send_email_with_fallback env cfg a s b atts fb w in
  fst out = Ok (false, Some (smtp_error_text env e)) /\
  written (since w (snd out)) = [(path, fallback_payload b atts)] /\
  (open_err env path = None ->
   files (snd out) !! path = Some (Raw (fallback_payload b atts))).
Proof.
  intros Hb Hs Hp out.
  set (payload := fallback_payload b atts).
  set (w2 := emit (EvWrite path payload) (emit (EvSend msg (Some e)) w)).
  assert (out = (Ok (false, Some (smtp_error_text env e)),
                 match open_err env path with
                 | Some _ => w2
                 | None => with_files (<[path := Raw payload]> (files w2)) w2
                 end)) as ->.
  { unfold out, send_email_with_fallback, bind at 1. rewrite Hb.
    unfold bind, try_except, smtp_deliver. rewrite Hs. simpl. rewrite Hp.
    unfold write_file. fold payload. simpl.
    destruct (open_err env path); reflexivity. }
  assert (trace w2 = trace w ++ [EvSend msg (Some e); EvWrite path payload]) as Ht.
  { unfold w2. simpl. by rewrite <- app_assoc. }
  split; [done|]. split.
  - erewrite since_app; [|destruct (open_err env path); exact Ht]. done.
  - intros ->. simpl. apply lookup_insert_eq.
Qed.

Lemma fallback_written_exactly_once_witness :
  let atts := Some [attachment "transcript_1.txt" "the text" "text/plain"] in
  let out := send_email_with_fallback offline_env default_config
               "a@b.c" "subject" "hello" atts (Some "/tmp/f.txt") (boot ∅) in
  fst out = Ok (false, Some (smtp_error_text offline_env
                               (Exn "[Errno 111] Connection refused"))) /\
  written (since (boot ∅) (snd out)) = [("/tmp/f.txt", "the text")] /\
  (open_err offline_env "/tmp/f.txt" = None ->
   files (snd out) !! "/tmp/f.txt" = Some (Raw "the text")).
Proof.
  apply (fallback_written_exactly_once offline_env default_config
           "a@b.c" "subject" "hello"
           (Some [attachment "transcript_1.txt" "the text" "text/plain"])
           (Some "/tmp/f.txt") "/tmp/f.txt"
           {| msg_from := "no-reply@example.com"; msg_to := "a@b.c";
              msg_subject := "subject"; msg_content := "hello";
              msg_parts := [ {| part_filename := "transcript_1.txt";
                                part_bytes := "the text";
                                part_maintype := "text";
                                part_subtype := "plain" |} ] |}
           (Exn "[Errno 111] Connection refused") (boot ∅));
    reflexivity.
Defined.

(** C4 (as stated) fails: with a first attachment whose bytes are empty the
    fallback file gets the body text, not the attachment's payload. *)
Lemma fallback_skips_empty_attachment :
  let atts := Some [attachment "transcript_1.txt" "" "text/plain"] in
  let out := send_email_with_fallback offline_env default_config
               "a@b.c" "subject" "hello" atts (Some "/tmp/f.txt") (boot ∅) in
  written (trace (snd out)) = [("/tmp/f.txt", "hello")] /\
  written (trace (snd out)) <> [("/tmp/f.txt", Spec.fallback_payload "hello" atts)].
Proof. vm_compute. split; [reflexivity | discriminate]. Qed.

(** C6: the statements before the [try] of [send_email_with_fallback] are
    not guarded.  An attachment whose mime type has no slash, or an address
    with a second line, makes the dispatcher raise; nothing is sent and no
    fallback is written. *)
Theorem send_email_raises_before_try :
  let bad_mime := send_email_with_fallback calm_env default_config
                    "a@b.c" "subject" "hello"
                    (Some [attachment "t.txt" "x" "plain"])
                    (Some "/tmp/f.txt") (boot ∅) in
  let bad_to := send_email_with_fallback calm_env default_config
                    two_line_address "subject" "hello"
                    (Some [attachment "t.txt" "x" "text/plain"])
                    (Some "/tmp/f.txt") (boot ∅) in
  fst bad_mime = Raise (Exn "not enough values to unpack (expected 2, got 1)") /\
  trace (snd bad_mime) = [] /\
  fst bad_to = Raise (Exn "Header values may not contain linefeed or carriage return characters") /\
  trace (snd bad_to) = [].
Proof. vm_compute. repeat split. Qed.

(** ** Intake *)

Section Intake.

Context (env : Env) (cfg : Config).

Lemma submit_after_save w email_addr audio_filename audio_bytes :
  Py.contains "@" email_addr = true ->
  open_err env (dest_of env w audio_filename) = None ->
  submit env cfg email_addr audio_filename audio_bytes w =
    (let* guard := duration_guard env cfg (dest_of env w audio_filename) in
     match guard with
     | Some response => ret response
     | None =>
         let* u2 := uuid4 env in
         let id := Py.prefix 12 u2 in
         let* t := now env in
         let job := {| job_id := id; email := email_addr;
                       audio_path := dest_of env w audio_filename;
                       filename := audio_filename; submitted_at := t |} in
         q_put job;;
         start_worker;;
         ret (Accepted ("Job accepted (ID: " +:+ id
                        +:+ "). Check email (or fallback file).") id)
     end) (saved env w audio_filename audio_bytes).
Proof.
  intros Hat Ho. unfold submit. rewrite Hat. simpl.
  unfold bind at 1. simpl. unfold bind at 1, write_file.
  fold (dest_of env w audio_filename). simpl. rewrite Ho. reflexivity.
Qed.

Lemma saved_read w audio_filename audio_bytes :
  read_audio env (saved env w audio_filename audio_bytes) (dest_of env w audio_filename)
  = decode env audio_bytes.
Proof. unfold read_audio, saved. simpl. by rewrite lookup_insert_eq. Qed.

End Intake.

(** C5: a submission whose measured duration exceeds [MAX_UPLOAD_S] is
    answered with a 400 rejection; no job is put on the queue, which is as
    it was. *)
Theorem too_long_is_rejected
    (env : Env) (cfg : Config) (w : World)
    (email_addr audio_filename audio_bytes : string) (a : Audio) :
  open_err env (dest_of env w audio_filename) = None ->
  decode env audio_bytes = Ok a ->
  1000 * MAX_UPLOAD_S cfg < audio_len a ->
  let out := submit env cfg email_addr audio_filename audio_bytes w in
  (exists error, fst out = Ok (JSONError 400 error)) /\
  job_q (snd out) = job_q w /\
  enqueued (since w (snd out)) = [].
Proof.
  intros Ho Hd Hlen out. unfold out. clear out.
  destruct (submit env cfg email_addr audio_filename audio_bytes w)
    as [r w'] eqn:Hsub. simpl.
  destruct (Py.contains "@" email_addr) eqn:Hat.
  - rewrite submit_after_save in Hsub by done.
    unfold bind at 1, duration_guard, try_except, bind at 1, from_file in Hsub.
    rewrite saved_read, Hd in Hsub. simpl in Hsub.
    unfold longer_than in Hsub. rewrite (proj2 (Z.ltb_lt _ _) Hlen) in Hsub.
    set (dest := dest_of env w audio_filename) in *.
    set (w1 := saved env w audio_filename audio_bytes) in Hsub.
    unfold bind, try_except in Hsub.
    assert (exists evs, trace (snd (os_remove env dest w1))
                        = trace w ++ EvWrite dest audio_bytes :: evs
                        /\ enqueued evs = []
                        /\ job_q (snd (os_remove env dest w1)) = job_q w)
      as (evs & Ht & He & Hq).
    { unfold os_remove, w1, saved. fold dest. destruct (files _ !! dest);
        [destruct (remove_err env dest)|]; simpl;
        exists [EvRemove dest]; rewrite <- app_assoc; repeat split. }
    destruct (os_remove env dest w1) as [[u|e] w2]; simpl in *;
      injection Hsub as <- <-;
      (split; [by eexists|]); (split; [done|]);
      erewrite since_app by exact Ht; simpl; exact He.
  - unfold submit in Hsub. rewrite Hat in Hsub. injection Hsub as <- <-.
    split; [by eexists|]. split; [done|].
    unfold since. by rewrite drop_all.
Qed.

Lemma too_long_is_rejected_witness :
  let bytes := "eleven secs" in
  let cfg := {| SEG_LEN_SECONDS := 20; CHUNK_THRESHOLD_S := 40;
                MAX_UPLOAD_S := 10; EMAIL_FROM := "no-reply@example.com" |} in
  let out := submit calm_env cfg "a@b.c" "clip.mp3" bytes (boot ∅) in
  (exists error, fst out = Ok (JSONError 400 error)) /\
  job_q (snd out) = job_q (boot ∅) /\
  enqueued (since (boot ∅) (snd out)) = [].
Proof.
  apply (too_long_is_rejected calm_env
           {| SEG_LEN_SECONDS := 20; CHUNK_THRESHOLD_S := 40;
              MAX_UPLOAD_S := 10; EMAIL_FROM := "no-reply@example.com" |}
           (boot ∅) "a@b.c" "clip.mp3" "eleven secs"
           (repeat 0 (1000 * 11)%nat));
    [reflexivity | reflexivity | vm_compute; reflexivity].
Defined.

(** C10: when the saved upload does not decode, [submit] skips the duration
    check and accepts: the job is put at the tail of the queue with the
    saved file as its audio path, the file stays, and the worker's
    normalisation of that file raises the decoder's error. *)
Theorem undecodable_upload_is_enqueued
    (env : Env) (cfg : Config) (w : World)
    (email_addr audio_filename audio_bytes : string) (e : exn) :
  Py.contains "@" email_addr = true ->
  open_err env (dest_of env w audio_filename) = None ->
  decode env audio_bytes = Raise e ->
  let dest := dest_of env w audio_filename in
  let out := submit env cfg email_addr audio_filename audio_bytes w in
  exists id message t,
    fst out = Ok (Accepted message id) /\
    job_q (snd out) =
      job_q w ++ [ {| job_id := id; email := email_addr; audio_path := dest;
                      filename := audio_filename; submitted_at := t |} ] /\
    files (snd out) !! dest = Some (Raw audio_bytes) /\
    (forall w', files w' !! dest = Some (Raw audio_bytes) ->
                fst (ensure_wav_copy env dest w') = Raise e /\
                fst (transcribe_file env cfg dest w') = Raise e).
Proof.
  intros Hat Ho Hd dest out. unfold out. clear out.
  destruct (submit env cfg email_addr audio_filename audio_bytes w)
    as [r w'] eqn:Hsub. simpl.
  rewrite submit_after_save in Hsub by done.
  unfold bind at 1, duration_guard, try_except, bind at 1, from_file in Hsub.
  rewrite saved_read, Hd in Hsub.
  cbv beta iota delta [bind ret uuid4 now q_put start_worker] in Hsub.
  fold dest in Hsub. injection Hsub as <- <-.
  exists (Py.prefix 12 (uuid4_hex env (S (n_uuid w)))). eexists.
  exists (time_time env (n_time w)).
  split; [reflexivity|]. split; [by destruct (worker_alive _)|].
  split; [destruct (worker_alive _); simpl; apply lookup_insert_eq|].
  intros w'' Hf.
  assert (fst (ensure_wav_copy env dest w'') = Raise e) as He.
  { unfold ensure_wav_copy, bind, uuid4, from_file, read_audio. simpl.
    by rewrite Hf, Hd. }
  split; [exact He|].
  unfold transcribe_file, bind.
  destruct (ensure_wav_copy env dest w'') as [[[wav ms]|e'] w3];
    simpl in He; [discriminate|]. simpl. congruence.
Qed.

Lemma undecodable_upload_is_enqueued_witness :
  let dest := dest_of calm_env (boot ∅) "notes.txt" in
  let out := submit calm_env default_config "a@b.c" "notes.txt" "" (boot ∅) in
  exists id message t,
    fst out = Ok (Accepted message id) /\
    job_q (snd out) =
      job_q (boot ∅) ++
        [ {| job_id := id; email := "a@b.c"; audio_path := dest;
             filename := "notes.txt"; submitted_at := t |} ] /\
    files (snd out) !! dest = Some (Raw "") /\
    (forall w', files w' !! dest = Some (Raw "") ->
                fst (ensure_wav_copy calm_env dest w') = Raise (Exn "Decoding failed") /\
                fst (transcribe_file calm_env default_config dest w')
                = Raise (Exn "Decoding failed")).
Proof.
  apply (undecodable_upload_is_enqueued calm_env default_config (boot ∅)
           "a@b.c" "notes.txt" "" (Exn "Decoding failed"));
    reflexivity.
Defined.

(** ** Segmentation *)

(** [ceil(d / l)] for a positive [l] *)
Lemma range_from_multiples (step stop : Z) (fuel : nat) (q : Z) :
  0 < step ->
  stop - q * step <= Z.of_nat fuel ->
  Py.range_from fuel (q * step) stop step =
    (fun k => k * step) <$> seqZ q ((stop - q * step + step - 1) / step).
Proof.
  intros Hstep. revert q.
  induction fuel as [|f IH]; intros q Hfuel.
  - rewrite seqZ_nil; [done|].
    apply Z.lt_succ_r, Z.div_lt_upper_bound; lia.
  - simpl. destruct (Z.ltb_spec (q * step) stop) as [Hlt|Hge].
    + replace (q * step + step) with (Z.succ q * step) by lia.
      rewrite IH by lia.
      rewrite (seqZ_cons q).
      * simpl. do 3 f_equal.
        replace (stop - q * step + step - 1)
          with ((stop - Z.succ q * step + step - 1) + 1 * step) by lia.
        rewrite Z.div_add by lia. lia.
      * apply Z.div_str_pos. lia.
    + rewrite seqZ_nil; [done|].
      apply Z.lt_succ_r, Z.div_lt_upper_bound; lia.
Qed.

Lemma range0_positive (stop step : Z) :
  0 < step -> 0 <= stop ->
  Py.range0 stop step = Some ((fun k => k * step) <$> seqZ 0 ((stop + step - 1) / step)).
Proof.
  intros Hstep Hstop. unfold Py.range0.
  destruct (Z.eqb_spec step 0); [lia|].
  destruct (Z.ltb_spec step 0); [lia|].
  f_equal.
  pose proof (range_from_multiples step stop (Z.to_nat stop) 0 Hstep) as Hr.
  rewrite Z.mul_0_l, Z.sub_0_r in Hr. apply Hr. lia.
Qed.

Lemma enumerate_fst {A} (l : list A) (start : nat) :
  (Py.enumerate start l).*1 = seq start (length l).
Proof.
  revert start. induction l as [|x t IH]; intros start; simpl; [done|].
  by rewrite IH.
Qed.

Lemma enumerate_snd {A} (l : list A) (start : nat) :
  (Py.enumerate start l).*2 = l.
Proof.
  revert start. induction l as [|x t IH]; intros start; simpl; [done|].
  by rewrite IH.
Qed.

Lemma enumerate_length {A} (l : list A) (start : nat) :
  length (Py.enumerate start l) = length l.
Proof. by rewrite <- (length_fmap snd), enumerate_snd. Qed.

(** ** The two loops of the chunked branch *)

Section Loops.

Context (env : Env) (cfg : Config).

Hypothesis exports_succeed : forall p, export_err env p = None.

Lemma export_segment_run a d l ts i s w :
  exists path w',
    export_segment env a d l ts (i, s) w = (Ok path, w') /\
    files w' !! path = Some (Wav (audio_slice a s (Z.min (s + l) d))) /\
    trace w' = trace w ++ [EvExport path (audio_slice a s (Z.min (s + l) d))].
Proof.
  unfold export_segment, bind, uuid4, export. simpl.
  rewrite exports_succeed. simpl.
  eexists _, _. split; [reflexivity|]. split; [|reflexivity].
  simpl. apply lookup_insert_eq.
Qed.

Lemma export_loop_run a d l ts (entries : list (nat * Z)) w :
  exists paths w',
    for_each (export_segment env a d l ts) entries w = (Ok paths, w') /\
    length paths = length entries /\
    trace w' = trace w ++
      zip_with EvExport paths
        ((fun s => audio_slice a s (Z.min (s + l) d)) <$> entries.*2).
Proof.
  revert w. induction entries as [|[i s] t IH]; intros w; cbn [for_each].
  - exists [], w. simpl. by rewrite app_nil_r.
  - destruct (export_segment_run a d l ts i s w) as (path & w1 & Hrun & _ & Ht).
    destruct (IH w1) as (paths & w2 & Hloop & Hlen & Ht2).
    exists (path :: paths), w2. unfold bind at 1. rewrite Hrun.
    unfold bind at 1. rewrite Hloop. simpl. split; [done|]. split; [by rewrite Hlen|].
    rewrite Ht2, Ht, <- app_assoc. done.
Qed.

End Loops.

Section ChunkLoop.

Context (env : Env).

(** A turn of the chunk loop never raises: a failure of the model becomes
    the marker, a failure of the removal is dropped. *)
Lemma transcribe_one_run idx p w :
  exists r w',
    transcribe_one env (idx, p) w = (Ok (chunk_text idx r), w') /\
    trace w' = trace w ++ [EvInfer p r; EvRemove p].
Proof.
  unfold transcribe_one, bind at 1, try_except at 1, transcribe_chunk,
    bind at 1, whisper.
  set (r := match read_audio env w p with
            | Ok a => model_transcribe env p a
            | Raise e => Raise e
            end).
  exists r.
  assert (forall w0, trace w0 = trace w ++ [EvInfer p r] ->
            exists w',
              (try_except (os_remove env p) (fun _ => ret tt);;
               ret (chunk_text idx r)) w0 = (Ok (chunk_text idx r), w') /\
              trace w' = trace w ++ [EvInfer p r; EvRemove p]) as Hrm.
  { intros w0 Ht. unfold bind, try_except, os_remove.
    destruct (files w0 !! p); [destruct (remove_err env p)|]; simpl;
      eexists; (split; [reflexivity|]); simpl; rewrite Ht, <- app_assoc; done. }
  destruct r as [t|e]; simpl; apply Hrm; done.
Qed.

Lemma chunk_loop_run (entries : list (nat * string)) w :
  exists outs w',
    for_each (transcribe_one env) entries w
      = (Ok (zip_with chunk_text entries.*1 outs), w') /\
    length outs = length entries /\
    trace w' = trace w ++ chunk_events entries.*2 outs.
Proof.
  revert w. induction entries as [|[idx p] t IH]; intros w; cbn [for_each].
  - exists [], w. simpl. by rewrite app_nil_r.
  - destruct (transcribe_one_run idx p w) as (r & w1 & Hrun & Ht).
    destruct (IH w1) as (outs & w2 & Hloop & Hlen & Ht2).
    exists (r :: outs), w2. unfold bind at 1. rewrite Hrun.
    unfold bind at 1. rewrite Hloop. simpl. split; [done|]. split; [by rewrite Hlen|].
    rewrite Ht2, Ht. unfold chunk_events. simpl. rewrite <- app_assoc. done.
Qed.

End ChunkLoop.

(** ** Reading the events of the chunked branch *)

Lemma exported_exports (paths : list string) (chunks : list Audio) :
  length paths = length chunks ->
  exported (zip_with EvExport paths chunks) = chunks.
Proof.
  revert chunks. induction paths as [|p t IH]; intros [|c cs] Hlen;
    simpl in *; try done.
  all: unfold exported in *; simpl; by rewrite IH by lia.
Qed.

Lemma inferred_exports (paths : list string) (chunks : list Audio) :
  inferred (zip_with EvExport paths chunks) = [].
Proof.
  revert chunks. induction paths as [|p t IH]; intros [|c cs]; simpl; try done.
  all: unfold inferred in *; simpl; apply IH.
Qed.

Lemma exported_chunk_events (paths : list string) (outs : list (res string)) :
  exported (chunk_events paths outs) = [].
Proof.
  revert outs. induction paths as [|p t IH]; intros [|r rs]; simpl; try done.
  all: unfold exported, chunk_events in *; simpl; apply IH.
Qed.

Lemma inferred_chunk_events (paths : list string) (outs : list (res string)) :
  length paths = length outs ->
  inferred (chunk_events paths outs) = outs.
Proof.
  revert outs. induction paths as [|p t IH]; intros [|r rs] Hlen;
    simpl in *; try done.
  all: unfold inferred, chunk_events in *; simpl; by rewrite IH by lia.
Qed.

Lemma window_length (a : Audio) (l s : Z) :
  0 <= l -> 0 <= s <= audio_len a ->
  audio_len (window a l s) = Z.min l (audio_len a - s).
Proof.
  intros Hl Hs. unfold window, audio_slice, audio_len in *.
  rewrite length_take, length_drop. lia.
Qed.

(** ** The [try] block of [transcribe_file] *)

Section Body.

Context (env : Env) (cfg : Config).

Lemma ensure_wav_copy_ok in_path w wav ms w1 :
  ensure_wav_copy env in_path w = (Ok (wav, ms), w1) ->
  exists a,
    read_audio env w in_path = Ok a /\ audio_len a = ms /\
    files w1 !! wav = Some (Wav a) /\
    Py.truthy wav = true /\
    trace w1 = trace w ++ [EvExport wav a].
Proof.
  unfold ensure_wav_copy, bind, uuid4, from_file, export.
  change (read_audio env (with_n_uuid (S (n_uuid w)) w) in_path)
    with (read_audio env w in_path).
  destruct (read_audio env w in_path) as [a|e]; [|discriminate].
  destruct (export_err env _); [discriminate|].
  unfold ret. intros [= <- <- <-]. exists a.
  split; [done|]. split; [done|]. split; [simpl; apply lookup_insert_eq|].
  split; [|done].
  unfold tmp_path, Py.path_join. simpl.
  destruct (tmpdir env) as [|c t]; [done|].
  by destruct (String.eqb _ _).
Qed.

(** The short file: one call of the model, on the working file. *)
Lemma transcribe_body_single wav a w :
  files w !! wav = Some (Wav a) ->
  longer_than (audio_len a) (CHUNK_THRESHOLD_S cfg) = false ->
  let r := model_transcribe env wav a in
  transcribe_body env cfg wav (audio_len a) w =
    (match r with
     | Ok t => Ok (single_summary (audio_len a) +:+ LF +:+ LF +:+ Py.strip t)
     | Raise e => Raise e
     end, emit (EvInfer wav r) w).
Proof.
  intros Hf Hshort r. unfold transcribe_body. rewrite Hshort.
  unfold bind, whisper, read_audio. rewrite Hf. fold r.
  by destruct r.
Qed.

(** The long file: the windows are exported, then each chunk is given to
    the model and removed; the transcript is assembled from the texts of
    the chunks. *)
Lemma transcribe_body_chunked wav a w :
  (forall p, export_err env p = None) ->
  0 < SEG_LEN_SECONDS cfg ->
  files w !! wav = Some (Wav a) ->
  longer_than (audio_len a) (CHUNK_THRESHOLD_S cfg) = true ->
  let l := SEG_LEN_SECONDS cfg * 1000 in
  let starts := (fun k => k * l) <$> seqZ 0 ((audio_len a + l - 1) / l) in
  exists paths outs w',
    length paths = length starts /\ length outs = length starts /\
    transcribe_body env cfg wav (audio_len a) w =
      (Ok (chunked_summary (length starts) (audio_len a) +:+ LF +:+ LF +:+
           Py.join (LF +:+ LF)
             (filter (fun p => Py.truthy p = true)
                (zip_with chunk_text (seq 1 (length starts)) outs))), w') /\
    trace w' = trace w ++ zip_with EvExport paths (window a l <$> starts)
                       ++ chunk_events paths outs.
Proof.
  intros Hexp Hseg Hf Hlong l starts.
  unfold transcribe_body. rewrite Hlong.
  unfold split_audio_to_files, bind at 1 2, from_file, read_audio.
  rewrite Hf. unfold bind at 1, now. simpl.
  unfold bind at 1, segment_starts.
  rewrite range0_positive by (unfold audio_len; lia).
  fold l. fold starts. unfold ret at 1.
  set (w0 := with_n_time _ w).
  destruct (export_loop_run env Hexp a (audio_len a) l (time_time env (n_time w))
              (Py.enumerate 0 starts) w0) as (paths & w1 & Hloop & Hlen & Ht).
  rewrite Hloop.
  rewrite enumerate_length in Hlen. rewrite enumerate_snd in Ht.
  destruct (chunk_loop_run env (Py.enumerate 1 paths) w1)
    as (outs & w2 & Hloop2 & Hlen2 & Ht2).
  rewrite enumerate_length in Hlen2.
  rewrite enumerate_fst in Hloop2. rewrite enumerate_snd in Ht2.
  exists paths, outs, w2.
  split; [done|]. split; [lia|].
  unfold bind at 1. rewrite Hloop2. unfold ret. rewrite Hlen.
  split; [done|].
  rewrite Ht2, Ht. subst w0. simpl. by rewrite <- app_assoc.
Qed.

End Body.

Lemma exported_app (tr1 tr2 : list Event) :
  exported (tr1 ++ tr2) = exported tr1 ++ exported tr2.
Proof. apply omap_app. Qed.

Lemma inferred_app (tr1 tr2 : list Event) :
  inferred (tr1 ++ tr2) = inferred tr1 ++ inferred tr2.
Proof. apply omap_app. Qed.

Lemma exported_chunked (paths : list string) (chunks : list Audio)
    (outs : list (res string)) :
  length paths = length chunks ->
  exported (zip_with EvExport paths chunks ++ chunk_events paths outs) = chunks.
Proof.
  intros Hlen.
  by rewrite exported_app, exported_exports, exported_chunk_events, app_nil_r.
Qed.

Lemma inferred_chunked (paths : list string) (chunks : list Audio)
    (outs : list (res string)) :
  length paths = length outs ->
  inferred (zip_with EvExport paths chunks ++ chunk_events paths outs) = outs.
Proof.
  intros Hlen.
  by rewrite inferred_app, inferred_exports, inferred_chunk_events.
Qed.

(** The quotient [(d + l - 1) / l] is the least [n] with [d <= n * l]. *)
Lemma ceil_div_bounds (d l : Z) :
  0 < l ->
  let n := (d + l - 1) / l in
  (n - 1) * l < d <= n * l.
Proof.
  intros Hl n.
  pose proof (Z.mul_div_le (d + l - 1) l Hl).
  pose proof (Z.mul_succ_div_gt (d + l - 1) l Hl).
  fold n in H, H0. lia.
Qed.

(** ** The [finally] block of [transcribe_file] *)

Section Finally.

Context (env : Env) (cfg : Config).

(** The clean-up never raises.  It attempts the removal when the working
    file is there, and the file is gone afterwards unless the removal
    failed. *)
Lemma remove_working_file_run wav w :
  Py.truthy wav = true ->
  exists w' evs,
    remove_working_file env wav w = (Ok tt, w') /\
    trace w' = trace w ++ evs /\
    (evs = [] /\ files w !! wav = None /\ files w' = files w \/
     evs = [EvRemove wav] /\ is_Some (files w !! wav)) /\
    (remove_err env wav = None -> files w' !! wav = None) /\
    (is_Some (remove_err env wav) -> files w' = files w).
Proof.
  intros Ht. unfold remove_working_file. rewrite Ht.
  unfold try_except, bind, os_path_exists, os_remove.
  destruct (files w !! wav) as [f|] eqn:Hf.
  - rewrite bool_decide_true by done. rewrite Hf.
    destruct (remove_err env wav) as [e|]; simpl.
    + eexists _, [EvRemove wav]. split; [reflexivity|]. split; [done|].
      split; [right; by eauto|]. split; [done|]. done.
    + eexists _, [EvRemove wav]. split; [reflexivity|]. split; [done|].
      split; [right; by eauto|]. split; [intros _; simpl; apply lookup_delete_eq|].
      intros [? [=]].
  - rewrite bool_decide_false by (intros [? [=]]). simpl.
    exists w, []. rewrite app_nil_r. repeat split; auto.
Qed.

(** [transcribe_file] after a successful normalisation: the outcome is
    that of the [try] block, and the clean-up runs on both exits. *)
Lemma transcribe_file_run in_path w wav ms w1 :
  ensure_wav_copy env in_path w = (Ok (wav, ms), w1) ->
  transcribe_file env cfg in_path w =
    (fst (transcribe_body env cfg wav ms w1),
     snd (remove_working_file env wav (snd (transcribe_body env cfg wav ms w1)))).
Proof.
  intros Hens.
  destruct (ensure_wav_copy_ok env in_path w wav ms w1 Hens)
    as (a & _ & _ & _ & Htruthy & _).
  unfold transcribe_file, bind. rewrite Hens. unfold try_finally.
  destruct (transcribe_body env cfg wav ms w1) as [r w2]. simpl.
  destruct (remove_working_file_run wav w2 Htruthy) as (w3 & evs & -> & _).
  done.
Qed.

End Finally.

(** C2: with [d] the measured duration, [d <= CHUNK_THRESHOLD_S] takes the
    single-pass branch, where the model is called once, on the whole working
    file; [d > CHUNK_THRESHOLD_S] takes the chunked branch, which cuts
    [ceil(d / SEG_LEN_SECONDS)] windows: the k-th starts at [k] segment
    lengths, all but the last are one segment length long and the last
    holds the rest, and the model is called once per window. *)
Theorem branch_and_segment_count
    (env : Env) (cfg : Config) (in_path : string) (w : World)
    (wav : string) (ms : Z) (w1 : World) :
  0 < SEG_LEN_SECONDS cfg ->
  (forall p, export_err env p = None) ->
  ensure_wav_copy env in_path w = (Ok (wav, ms), w1) ->
  exists a,
    read_audio env w in_path = Ok a /\ audio_len a = ms /\
    let out := transcribe_file env cfg in_path w in
    let l := SEG_LEN_SECONDS cfg * 1000 in
    let n := (ms + l - 1) / l in
    (ms <= 1000 * CHUNK_THRESHOLD_S cfg ->
       since w1 (snd out) =
         [EvInfer wav (model_transcribe env wav a); EvRemove wav] /\
       fst out = match model_transcribe env wav a with
                 | Ok t => Ok (single_summary ms +:+ LF +:+ LF +:+ Py.strip t)
                 | Raise e => Raise e
                 end) /\
    (1000 * CHUNK_THRESHOLD_S cfg < ms ->
       exported (since w1 (snd out)) =
         (fun k => audio_slice a (k * l) (Z.min (k * l + l) ms)) <$> seqZ 0 n /\
       audio_len <$> exported (since w1 (snd out)) =
         (fun k => if k <? n - 1 then l else ms - (n - 1) * l) <$> seqZ 0 n /\
       (0 < n -> 0 < ms - (n - 1) * l <= l) /\
       length (inferred (since w1 (snd out))) = Z.to_nat n /\
       exists body,
         fst out = Ok (chunked_summary (Z.to_nat n) ms +:+ LF +:+ LF +:+ body)).
Proof.
  intros Hseg Hexp Hens.
  destruct (ensure_wav_copy_ok env in_path w wav ms w1 Hens)
    as (a & Hread & Hlen & Hf & Htruthy & _).
  exists a. split; [done|]. split; [done|]. subst ms.
  intros out l n. unfold out. rewrite (transcribe_file_run env cfg _ _ _ _ _ Hens).
  clear out. split.
  - intros Hle.
    rewrite (transcribe_body_single env cfg wav a w1 Hf)
      by (unfold longer_than; apply Z.ltb_ge; lia).
    simpl. split; [|done].
    destruct (remove_working_file_run env wav
                (emit (EvInfer wav (model_transcribe env wav a)) w1) Htruthy)
      as (w3 & evs & -> & Ht3 & Hcase & _). simpl.
    destruct Hcase as [(_ & Hnone & _)|(-> & _)].
    + simpl in Hnone. rewrite Hf in Hnone. discriminate.
    + apply since_app. rewrite Ht3. simpl. rewrite <- app_assoc. done.
  - intros Hgt.
    destruct (transcribe_body_chunked env cfg wav a w1 Hexp Hseg Hf)
      as (paths & outs & w2 & Hlp & Hlo & Hrun & Ht).
    { unfold longer_than. apply Z.ltb_lt. lia. }
    fold l in Hlp, Hlo, Hrun, Ht. fold n in Hlp, Hlo, Hrun, Ht.
    rewrite length_fmap, length_seqZ in Hlp, Hlo, Hrun.
    assert (0 < l) as Hl by (unfold l; lia).
    pose proof (ceil_div_bounds (audio_len a) l Hl) as Hn.
    cbv zeta in Hn. fold n in Hn.
    assert (0 <= audio_len a) as Ha by (unfold audio_len; lia).
    rewrite Hrun. simpl.
    destruct (remove_working_file_run env wav w2 Htruthy)
      as (w3 & evs & -> & Ht3 & Hcase & _). simpl.
    assert (exported evs = [] /\ inferred evs = []) as [Hex Hin].
    { by destruct Hcase as [(-> & _)|(-> & _)]. }
    rewrite Ht, <- app_assoc in Ht3. rewrite (since_app _ _ _ Ht3).
    rewrite exported_app, inferred_app, Hex, Hin, !app_nil_r.
    rewrite exported_chunked by (by rewrite !length_fmap, length_seqZ).
    rewrite inferred_chunked by lia.
    split; [by rewrite <- list_fmap_compose|].
    split.
    { rewrite <- !list_fmap_compose. apply Forall_fmap_ext, Forall_seqZ.
      intros k Hk. simpl.
      assert (0 <= k * l <= (n - 1) * l) by nia.
      rewrite window_length by lia.
      destruct (Z.ltb_spec k (n - 1)) as [Hk1|Hk1].
      - assert (k * l <= (n - 2) * l) by nia. lia.
      - replace k with (n - 1) by lia. lia. }
    split; [nia|]. split; [done|]. by eexists.
Qed.

Lemma branch_and_segment_count_witness :
  let w := one_file "/tmp/in.wav" three_parts in
  let wav := "/tmp/whisper_input_0123456789abcdef0.wav" in
  let w1 := snd (ensure_wav_copy calm_env "/tmp/in.wav" w) in
  let ms := 2500 in
  exists a,
    read_audio calm_env w "/tmp/in.wav" = Ok a /\ audio_len a = ms /\
    let out := transcribe_file calm_env short_segments "/tmp/in.wav" w in
    let l := SEG_LEN_SECONDS short_segments * 1000 in
    let n := (ms + l - 1) / l in
    (ms <= 1000 * CHUNK_THRESHOLD_S short_segments ->
       since w1 (snd out) =
         [EvInfer wav (model_transcribe calm_env wav a); EvRemove wav] /\
       fst out = match model_transcribe calm_env wav a with
                 | Ok t => Ok (single_summary ms +:+ LF +:+ LF +:+ Py.strip t)
                 | Raise e => Raise e
                 end) /\
    (1000 * CHUNK_THRESHOLD_S short_segments < ms ->
       exported (since w1 (snd out)) =
         (fun k => audio_slice a (k * l) (Z.min (k * l + l) ms)) <$> seqZ 0 n /\
       audio_len <$> exported (since w1 (snd out)) =
         (fun k => if k <? n - 1 then l else ms - (n - 1) * l) <$> seqZ 0 n /\
       (0 < n -> 0 < ms - (n - 1) * l <= l) /\
       length (inferred (since w1 (snd out))) = Z.to_nat n /\
       exists body,
         fst out = Ok (chunked_summary (Z.to_nat n) ms +:+ LF +:+ LF +:+ body)).
Proof.
  apply (branch_and_segment_count calm_env short_segments "/tmp/in.wav"
           (one_file "/tmp/in.wav" three_parts)
           "/tmp/whisper_input_0123456789abcdef0.wav" 2500
           (snd (ensure_wav_copy calm_env "/tmp/in.wav"
                   (one_file "/tmp/in.wav" three_parts))));
    [ vm_compute; reflexivity | intros p; reflexivity | vm_compute; reflexivity ].
Defined.

(** C8: a 90-second clip with 20-second segments and a 40-second threshold
    is cut into windows of 20, 20, 20, 20 and 10 seconds (after the working
    copy of the whole clip), the model is called five times, and the
    transcript starts with the header
    "(Chunked — 5 chunks, original duration 90.0s)". *)
Theorem ninety_seconds_five_chunks :
  let w := boot {[ "/tmp/upload_clip.mp3" := Raw ninety_bytes ]} in
  let out := transcribe_file calm_env default_config "/tmp/upload_clip.mp3" w in
  SEG_LEN_SECONDS default_config = 20 /\
  CHUNK_THRESHOLD_S default_config = 40 /\
  audio_len <$> exported (trace (snd out))
    = 90000 :: [20000; 20000; 20000; 20000; 10000] /\
  length (inferred (trace (snd out))) = 5%nat /\
  exists body,
    fst out = Ok ("(Chunked — 5 chunks, original duration 90.0s)"
                  +:+ LF +:+ LF +:+ body).
Proof.
  vm_compute. repeat split. eexists. reflexivity.
Qed.

(** ** Positions of the chunk texts *)

Lemma filter_all {A} (P : A -> Prop) `{!forall x, Decision (P x)} (l : list A) :
  Forall P l -> filter P l = l.
Proof.
  induction 1 as [|x t Hx Ht IH]; [done|].
  rewrite filter_cons_True by done. by rewrite IH.
Qed.

Lemma chunk_error_truthy (idx : nat) (e : exn) :
  Py.truthy (chunk_error idx e) = true.
Proof. reflexivity. Qed.

Lemma chunk_position (outs : list (res string)) (i : nat) (r : res string) :
  outs !! i = Some r ->
  zip_with chunk_text (seq 1 (length outs)) outs !! i = Some (chunk_text (S i) r).
Proof.
  intros Hr. rewrite lookup_zip_with, lookup_seq_lt, Hr; [done|].
  by eapply lookup_lt_Some.
Qed.

(** C3 (as stated) fails: of three segments the model hears words in the
    first, nothing in the second, and fails on the third.  The body holds
    two texts, not three positions: the silent segment is left out. *)
Lemma silent_chunk_loses_its_place :
  let w := one_file "/tmp/in.wav" three_parts in
  let out := transcribe_file patchy_env short_segments "/tmp/in.wav" w in
  let outs := inferred (trace (snd out)) in
  outs = [Ok " first words "; Ok "   "; Raise (Exn "CUDA out of memory")] /\
  fst out = Ok ("(Chunked — 3 chunks, original duration 2.5s)"
                +:+ LF +:+ LF +:+ "first words"
                +:+ LF +:+ LF +:+ "[ERROR transcribing chunk 3: CUDA out of memory]") /\
  fst out <> Ok (chunked_summary 3 2500 +:+ LF +:+ LF +:+ Spec.body outs).
Proof. vm_compute. repeat split. discriminate. Qed.

(** ** The working file *)

(** C9 (as amended): once the working file is made, [transcribe_file] ends
    as its [try] block does, by return or by exception, and on both exits
    the clean-up attempts to remove the working file when it is there; a
    failure of that removal is dropped, and whenever the removal does not
    fail the final file system holds no working file. *)
Theorem working_file_cleanup
    (env : Env) (cfg : Config) (in_path : string) (w : World)
    (wav : string) (ms : Z) (w1 : World) :
  ensure_wav_copy env in_path w = (Ok (wav, ms), w1) ->
  let out := transcribe_file env cfg in_path w in
  let body := transcribe_body env cfg wav ms w1 in
  fst out = fst body /\
  (exists evs,
     trace (snd out) = trace (snd body) ++ evs /\
     (evs = [EvRemove wav] /\ is_Some (files (snd body) !! wav) \/
      evs = [] /\ files (snd body) !! wav = None)) /\
  (remove_err env wav = None -> files (snd out) !! wav = None).
Proof.
  intros Hens out body.
  destruct (ensure_wav_copy_ok env in_path w wav ms w1 Hens)
    as (a & _ & _ & _ & Htruthy & _).
  unfold out. rewrite (transcribe_file_run env cfg _ _ _ _ _ Hens). fold body.
  destruct (remove_working_file_run env wav (snd body) Htruthy)
    as (w3 & evs & -> & Ht3 & Hcase & Hgone & _). simpl.
  split; [done|]. split; [|done].
  exists evs. split; [done|].
  destruct Hcase as [(-> & Hnone & _)|(-> & Hsome)]; auto.
Qed.

Lemma working_file_cleanup_witness :
  let w := one_file "/tmp/in.wav" three_parts in
  let wav := "/tmp/whisper_input_0123456789abcdef0.wav" in
  let w1 := snd (ensure_wav_copy calm_env "/tmp/in.wav" w) in
  let out := transcribe_file calm_env default_config "/tmp/in.wav" w in
  let body := transcribe_body calm_env default_config wav 2500 w1 in
  fst out = fst body /\
  (exists evs,
     trace (snd out) = trace (snd body) ++ evs /\
     (evs = [EvRemove wav] /\ is_Some (files (snd body) !! wav) \/
      evs = [] /\ files (snd body) !! wav = None)) /\
  (remove_err calm_env wav = None -> files (snd out) !! wav = None).
Proof.
  apply (working_file_cleanup calm_env default_config "/tmp/in.wav"
           (one_file "/tmp/in.wav" three_parts)
           "/tmp/whisper_input_0123456789abcdef0.wav" 2500
           (snd (ensure_wav_copy calm_env "/tmp/in.wav"
                   (one_file "/tmp/in.wav" three_parts)))).
  vm_compute. reflexivity.
Defined.

(** C9 (as stated) fails: where the file system refuses the removal, the
    call returns its transcript and the working file is still there. *)
Lemma working_file_survives_refused_removal :
  let w := one_file "/tmp/in.wav" three_parts in
  let out := transcribe_file locked_env default_config "/tmp/in.wav" w in
  fst out = Ok ("(Single-pass — duration 2.5s)" +:+ LF +:+ LF +:+ "hello world") /\
  files (snd out) !! "/tmp/whisper_input_0123456789abcdef0.wav"
    = Some (Wav three_parts).
Proof. vm_compute. split; reflexivity. Qed.

(** ** The queue and the worker *)

Lemma worker_state_app (b : bool) (tr1 tr2 : list Event) :
  worker_state b (tr1 ++ tr2) = worker_state b tr1 ≫= fun b' => worker_state b' tr2.
Proof.
  revert b. induction tr1 as [|ev t IH]; intros b; simpl; [done|].
  destruct ev, b; simpl; auto.
Qed.

Lemma worker_state_no_turn (b : bool) (evs : list Event) :
  forallb no_turn evs = true -> worker_state b evs = Some b.
Proof.
  induction evs as [|ev t IH]; simpl; [done|].
  intros [Hev Ht]%andb_prop. destruct ev; simpl in *; auto; discriminate.
Qed.

Lemma dequeued_no_turn (evs : list Event) :
  forallb no_turn evs = true -> dequeued evs = [].
Proof.
  induction evs as [|ev t IH]; simpl; [done|].
  intros [Hev Ht]%andb_prop. unfold dequeued in *.
  destruct ev; simpl in *; auto; discriminate.
Qed.

Lemma quiet_no_turn (evs : list Event) :
  forallb quiet evs = true -> forallb no_turn evs = true.
Proof.
  induction evs as [|ev t IH]; simpl; [done|].
  intros [Hev Ht]%andb_prop. rewrite IH by done.
  destruct ev; simpl in *; auto.
Qed.

Lemma enqueued_quiet (evs : list Event) :
  forallb quiet evs = true -> enqueued evs = [].
Proof.
  induction evs as [|ev t IH]; simpl; [done|].
  intros [Hev Ht]%andb_prop. unfold enqueued in *.
  destruct ev; simpl in *; auto; discriminate.
Qed.

Lemma dequeued_app (tr1 tr2 : list Event) :
  dequeued (tr1 ++ tr2) = dequeued tr1 ++ dequeued tr2.
Proof. apply omap_app. Qed.

Lemma enqueued_app (tr1 tr2 : list Event) :
  enqueued (tr1 ++ tr2) = enqueued tr1 ++ enqueued tr2.
Proof. apply omap_app. Qed.

(** The events of one processed job. *)
Lemma dequeued_block (j : Job) (evs : list Event) :
  forallb quiet evs = true ->
  dequeued (EvGet j :: evs ++ [EvTaskDone]) = [j].
Proof.
  intros Hf. change (EvGet j :: evs ++ [EvTaskDone])
    with ([EvGet j] ++ evs ++ [EvTaskDone]).
  rewrite !dequeued_app, (dequeued_no_turn evs) by (by apply quiet_no_turn).
  done.
Qed.

Lemma enqueued_block (j : Job) (evs : list Event) :
  forallb quiet evs = true ->
  enqueued (EvGet j :: evs ++ [EvTaskDone]) = [].
Proof.
  intros Hf. change (EvGet j :: evs ++ [EvTaskDone])
    with ([EvGet j] ++ evs ++ [EvTaskDone]).
  rewrite !enqueued_app, (enqueued_quiet evs) by done.
  done.
Qed.

#[local] Instance intake_preorder : PreOrder intake.
Proof.
  split.
  - intros w. exists []. by rewrite !app_nil_r.
  - intros a b c (e1 & Ht1 & Hf1 & Hq1) (e2 & Ht2 & Hf2 & Hq2).
    exists (e1 ++ e2). rewrite Ht2, Ht1, <- app_assoc. split; [done|].
    rewrite forallb_app, Hf1, Hf2. split; [done|].
    by rewrite enqueued_app, Hq2, Hq1, <- app_assoc.
Qed.

Lemma quietly_intake (w w' : World) : quietly w w' -> intake w w'.
Proof.
  intros (Hq & _ & evs & Ht & Hf). exists evs.
  split; [done|]. split; [by apply quiet_no_turn|].
  by rewrite enqueued_quiet, app_nil_r.
Qed.

Lemma keeps_weaken {A} (R R' : relation World) (m : M A) :
  (forall w w', R w w' -> R' w w') -> keeps R m -> keeps R' m.
Proof. intros HR Hm w. apply HR, Hm. Qed.

Section Process.

Context (env : Env) (cfg : Config).

Lemma intake_q_put j : keeps intake (q_put j).
Proof.
  intros w. exists [EvPut j]. simpl. done.
Qed.

Lemma intake_start_worker : keeps intake start_worker.
Proof.
  intros w. exists []. simpl.
  destruct (worker_alive w); simpl; by rewrite !app_nil_r.
Qed.

Lemma intake_submit e f b : keeps intake (submit env cfg e f b).
Proof.
  pose proof (fun p d => keeps_weaken _ _ _ quietly_intake (quiet_write_file env p d)).
  pose proof (fun p => keeps_weaken _ _ _ quietly_intake (quiet_os_remove env p)).
  pose proof (fun p => keeps_weaken _ _ _ quietly_intake (quiet_from_file env p)).
  pose proof (keeps_weaken _ _ _ quietly_intake (quiet_uuid4 env)).
  pose proof (keeps_weaken _ _ _ quietly_intake (quiet_now env)).
  pose proof intake_q_put. pose proof intake_start_worker.
  unfold submit, duration_guard.
  repeat (first [ solve [auto] | keeps_step ]).
Qed.

(** A turn of the loop: nothing on an empty queue; else the head of the
    queue is taken and processed, and marked done on both exits. *)
Lemma worker_iteration_run w :
  job_q w = [] /\ worker_iteration env cfg w = (Ok tt, w) \/
  exists j q r w' evs,
    job_q w = j :: q /\ worker_iteration env cfg w = (r, w') /\
    job_q w' = q /\ worker_alive w' = worker_alive w /\
    trace w' = trace w ++ EvGet j :: evs ++ [EvTaskDone] /\
    forallb quiet evs = true.
Proof.
  unfold worker_iteration, bind, q_get.
  destruct (job_q w) as [|j q] eqn:Hq; [by left|right].
  set (w0 := emit (EvGet j) (with_job_q q w)).
  pose proof (quiet_process_job env cfg j w0) as Hquiet.
  unfold try_finally, task_done.
  destruct (process_job env cfg j w0) as [r w1]. simpl in Hquiet.
  destruct Hquiet as (Hq1 & Ha1 & evs & Ht1 & Hf1).
  exists j, q, r, (emit EvTaskDone w1), evs.
  split; [done|]. split; [done|]. split; [done|]. split; [done|].
  split; [|done]. simpl. rewrite Ht1. simpl.
  by rewrite <- !app_assoc.
Qed.

Lemma in_order_intake w w' : intake w w' -> in_order w -> in_order w'.
Proof.
  intros (evs & Ht & Hf & Hq) [Hfifo Hstate]. split.
  - rewrite Ht, Hq, dequeued_app, enqueued_app.
    rewrite (dequeued_no_turn evs Hf), app_nil_r.
    by rewrite app_assoc, Hfifo.
  - rewrite Ht, worker_state_app, Hstate. simpl.
    by apply worker_state_no_turn.
Qed.

Lemma in_order_worker_turn w : in_order w -> in_order (worker_turn env cfg w).
Proof.
  intros [Hfifo Hstate]. unfold worker_turn.
  destruct (worker_alive w); [|done].
  destruct (worker_iteration_run w)
    as [[_ ->]|(j & q & r & w' & evs & Hq & -> & Hq' & _ & Ht & Hf)]; [done|].
  assert (in_order w') as Hin.
  { split.
    - rewrite Ht, dequeued_app, enqueued_app.
      rewrite (dequeued_block j evs Hf), (enqueued_block j evs Hf).
      rewrite Hq', app_nil_r, <- Hfifo, Hq, <- app_assoc. done.
    - rewrite Ht, worker_state_app, Hstate. simpl.
      rewrite worker_state_app, worker_state_no_turn by (by apply quiet_no_turn).
      done. }
  by destruct r.
Qed.

Lemma in_order_run acts w : in_order w -> in_order (run env cfg acts w).
Proof.
  revert w. induction acts as [|a t IH]; intros w Hw; simpl; [done|].
  apply IH. destruct a as [e f b|]; simpl.
  - eapply in_order_intake; [apply intake_submit | done].
  - by apply in_order_worker_turn.
Qed.

End Process.

(** In every run without interruption the jobs the worker has taken,
    followed by the jobs that wait in the queue, are the jobs that were put,
    in the order they were put; the worker takes a job only when it holds
    none and marks one done only when it holds one. *)
Lemma atomic_runs_in_order
    (env : Env) (cfg : Config) (fs : gmap string FileData) (acts : list Action) :
  let w := run env cfg acts (boot fs) in
  dequeued (trace w) ++ job_q w = enqueued (trace w) /\
  worker_state false (trace w) = Some false /\
  (forall tr1 j tr2,
     trace w = tr1 ++ EvGet j :: tr2 ->
     worker_state false tr1 = Some false /\
     exists later, enqueued (trace w) = dequeued tr1 ++ j :: later).
Proof.
  intros w.
  destruct (in_order_run env cfg acts (boot fs)) as [Hfifo Hstate];
    [split; reflexivity|].
  fold w in Hfifo, Hstate.
  split; [done|]. split; [done|].
  intros tr1 j tr2 Htr. split.
  - rewrite Htr, worker_state_app in Hstate.
    destruct (worker_state false tr1) as [[|]|]; simpl in Hstate; done.
  - exists (dequeued tr2 ++ job_q w).
    rewrite <- Hfifo, Htr, dequeued_app. simpl.
    change (dequeued (EvGet j :: tr2)) with (j :: dequeued tr2).
    by rewrite <- app_assoc.
Qed.

(** ** Line ends in header values *)

Lemma string_app_assoc (s1 s2 s3 : string) :
  (s1 +:+ s2) +:+ s3 = s1 +:+ (s2 +:+ s3).
Proof.
  induction s1 as [|c t IH]; [done|].
  change (String c ((t +:+ s2) +:+ s3) = String c (t +:+ (s2 +:+ s3))).
  by rewrite IH.
Qed.

(** A line end that starts [x] does not depend on what follows [x] when an
    ASCII character follows. *)
Lemma line_end_len_app (a c : ascii) (x y : string) :
  (nat_of_ascii c < 128)%nat -> nat_of_ascii c <> 10%nat ->
  (0 <? Py.line_end_len (String a x +:+ String c y))%nat
  = (0 <? Py.line_end_len (String a x))%nat.
Proof.
  intros Hc Hlf.
  change (String a x +:+ String c y) with (String a (x +:+ String c y)).
  unfold Py.line_end_len.
  destruct (nat_of_ascii a =? 13)%nat.
  { destruct x as [|d x]; simpl.
    - by destruct (nat_of_ascii c =? 10)%nat.
    - by destruct (nat_of_ascii d =? 10)%nat. }
  destruct ((10 <=? nat_of_ascii a)%nat && (nat_of_ascii a <=? 12)%nat
            || (28 <=? nat_of_ascii a)%nat && (nat_of_ascii a <=? 30)%nat); [done|].
  destruct (nat_of_ascii a =? 194)%nat.
  { destruct x as [|d x]; simpl; [|done].
    destruct (Nat.eqb_spec (nat_of_ascii c) 133); [lia|done]. }
  destruct (nat_of_ascii a =? 226)%nat; [|done].
  destruct x as [|d [|e x]]; simpl.
  - destruct y as [|e y]; [done|].
    destruct (Nat.eqb_spec (nat_of_ascii c) 128); [lia|done].
  - destruct (nat_of_ascii d =? 128)%nat; [|done]. simpl.
    destruct (Nat.eqb_spec (nat_of_ascii c) 168); [lia|].
    destruct (Nat.eqb_spec (nat_of_ascii c) 169); [lia|done].
  - done.
Qed.

Lemma has_line_end_app_r (x y : string) :
  Py.has_line_end y = true -> Py.has_line_end (x +:+ y) = true.
Proof.
  intros Hy. induction x as [|a x IH]; [done|].
  change (String a x +:+ y) with (String a (x +:+ y)).
  cbn [Py.has_line_end]. by destruct (0 <? _)%nat.
Qed.

(** A line end of [x] followed by ASCII text is a line end of [x] or of
    that text. *)
Lemma has_line_end_app_inv (x : string) (c : ascii) (y : string) :
  (nat_of_ascii c < 128)%nat -> nat_of_ascii c <> 10%nat ->
  Py.has_line_end (x +:+ String c y) = true ->
  Py.has_line_end x = true \/ Py.has_line_end (String c y) = true.
Proof.
  intros Hc Hlf. induction x as [|a x IH]; [by right|].
  change (String a x +:+ String c y) with (String a (x +:+ String c y)).
  cbn [Py.has_line_end].
  change (String a (x +:+ String c y)) with (String a x +:+ String c y).
  rewrite line_end_len_app by done.
  destruct (0 <? Py.line_end_len (String a x))%nat; [by left|]. exact IH.
Qed.

Lemma skip_app_truthy (n : nat) (x : string) (c : ascii) (y : string) :
  (n <= String.length x)%nat ->
  Py.truthy (Py.skip n (x +:+ String c y)) = true.
Proof.
  revert x. induction n as [|n IH]; intros x Hn.
  - by destruct x.
  - destruct x as [|a x]; simpl in *; [lia|]. apply IH. lia.
Qed.

Lemma line_end_len_bound (a c : ascii) (x y : string) :
  nat_of_ascii c <> 10%nat ->
  (0 < Py.line_end_len (String a x))%nat ->
  (Py.line_end_len (String a (x +:+ String c y)) <= String.length (String a x))%nat.
Proof.
  intros Hlf. unfold Py.line_end_len.
  destruct (nat_of_ascii a =? 13)%nat.
  { destruct x as [|d x]; simpl.
    - destruct (Nat.eqb_spec (nat_of_ascii c) 10); [done|lia].
    - destruct (nat_of_ascii d =? 10)%nat; lia. }
  destruct ((10 <=? nat_of_ascii a)%nat && (nat_of_ascii a <=? 12)%nat
            || (28 <=? nat_of_ascii a)%nat && (nat_of_ascii a <=? 30)%nat);
    [simpl; lia|].
  destruct (nat_of_ascii a =? 194)%nat.
  { destruct x as [|d x]; simpl; [lia|].
    destruct (nat_of_ascii d =? 133)%nat; lia. }
  destruct (nat_of_ascii a =? 226)%nat; [|lia].
  destruct x as [|d [|e x]]; simpl; try lia.
  destruct (_ && _); lia.
Qed.

(** A value with a line end and an ASCII character after it is cut in more
    than one line. *)
Lemma line_inside_after (x : string) (c : ascii) (y : string) :
  (nat_of_ascii c < 128)%nat -> nat_of_ascii c <> 10%nat ->
  Py.has_line_end x = true -> Py.line_inside (x +:+ String c y) = true.
Proof.
  intros Hc Hlf. induction x as [|a x IH]; [done|].
  change (String a x +:+ String c y) with (String a (x +:+ String c y)).
  cbn [Py.has_line_end Py.line_inside].
  pose proof (line_end_len_app a c x y Hc Hlf) as Hsame.
  change (String a x +:+ String c y) with (String a (x +:+ String c y)) in Hsame.
  destruct (Nat.ltb_spec 0 (Py.line_end_len (String a x))) as [Hpos|Hzero].
  - intros _.
    pose proof (line_end_len_bound a c x y Hlf Hpos) as Hb.
    apply Nat.ltb_lt in Hsame.
    destruct (Py.line_end_len (String a (x +:+ String c y))) as [|n] eqn:Hn; [lia|].
    change (String a (x +:+ String c y)) with (String a x +:+ String c y).
    by apply skip_app_truthy.
  - apply Nat.ltb_ge in Hsame.
    destruct (Py.line_end_len (String a (x +:+ String c y))); [exact IH|lia].
Qed.

(** The subject of a job's e-mail and the name of its attachment hold the
    job id between fixed texts: where the subject is accepted, the
    attachment is. *)
Lemma subject_accepts_attachment (env : Env) (id : string) :
  header_err env "Subject" (email_subject id) = None ->
  attach_err env ("transcript_" +:+ id +:+ ".txt") "text" "plain" = None.
Proof.
  intros Hsubject.
  destruct (attach_err env _ _ _) as [e|] eqn:Hatt; [|done].
  exfalso. apply (header_law env "Subject" (email_subject id)); [|done].
  destruct (attach_law env ("transcript_" +:+ id +:+ ".txt") "text" "plain")
    as [Hname|Htype]; [by rewrite Hatt | | discriminate].
  assert (Py.has_line_end id = true) as Hid.
  { assert (Py.has_line_end (id +:+ ".txt") = true) as Hrest by exact Hname.
    destruct (has_line_end_app_inv id "." "txt") as [Hrest'|Hrest'];
      [compute; lia | compute; lia | exact Hrest | done | discriminate]. }
  unfold email_subject. rewrite <- string_app_assoc.
  apply line_inside_after; [compute; lia | compute; lia |].
  by apply has_line_end_app_r.
Qed.

(** ** What the worker absorbs and what it does not *)

Section Worker.

Context (env : Env) (cfg : Config).

Lemma try_except_returns {A} (m : M A) (f : exn -> A) w :
  exists a, fst (try_except m (fun e => ret (f e)) w) = Ok a.
Proof.
  unfold try_except. destruct (m w) as [[a|e] w']; simpl; eauto.
Qed.

(** The message of the worker's e-mail is built when the three headers
    are accepted: its one attachment is of type text/plain. *)
Lemma build_message_accepted a s b name bytes w :
  header_err env "From" (EMAIL_FROM cfg) = None ->
  header_err env "To" a = None ->
  header_err env "Subject" s = None ->
  attach_err env name "text" "plain" = None ->
  exists msg,
    build_message env cfg a s b (Some [attachment name bytes "text/plain"]) w
    = (Ok msg, w).
Proof.
  intros Hfrom Hto Hsubject Hatt.
  unfold build_message, bind, set_header, add_attachment.
  rewrite Hfrom, Hto, Hsubject. simpl. rewrite Hatt. simpl. eauto.
Qed.

Lemma process_job_returns j w :
  header_err env "From" (EMAIL_FROM cfg) = None ->
  header_err env "To" (email j) = None ->
  header_err env "Subject" (email_subject (job_id j)) = None ->
  fst (process_job env cfg j w) = Ok tt.
Proof.
  intros Hfrom Hto Hsubject. unfold process_job, bind at 1.
  destruct (try_except_returns (transcribe_file env cfg (audio_path j))
              (transcription_failed env) w) as [transcript Htr].
  destruct (try_except _ _ w) as [r1 w1]. simpl in Htr. subst r1.
  unfold bind at 1.
  destruct (build_message_accepted (email j) (email_subject (job_id j))
              (email_body (job_id j) (filename j) transcript)
              ("transcript_" +:+ job_id j +:+ ".txt") transcript w1
              Hfrom Hto Hsubject
              (subject_accepts_attachment env (job_id j) Hsubject))
    as [msg Hmsg].
  pose proof (send_email_returns env cfg _ _ _ _
                (Some (fallback_path_of env (job_id j))) _ _ Hmsg) as Hsend.
  unfold attachment in Hsend.
  destruct (send_email_with_fallback _ _ _ _ _ _ _ w1) as [r2 w2].
  simpl in Hsend. subst r2.
  destruct (try_except_returns
              (let* there := os_path_exists (audio_path j) in
               if there then os_remove env (audio_path j) else ret tt)
              (fun _ => tt) w2) as [[] Hrm].
  exact Hrm.
Qed.

End Worker.

(** X1: a job whose three header values are accepted never ends the worker:
    whatever fails in transcription, in the transport, in the fallback
    write or in the removal of files, the turn of the loop returns, the job
    is marked done, and the rest of the queue is left for the next turns. *)
Theorem worker_absorbs_failures
    (env : Env) (cfg : Config) (w : World) (j : Job) (q : list Job) :
  job_q w = j :: q ->
  header_err env "From" (EMAIL_FROM cfg) = None ->
  header_err env "To" (email j) = None ->
  header_err env "Subject" (email_subject (job_id j)) = None ->
  let out := worker_iteration env cfg w in
  fst out = Ok tt /\ job_q (snd out) = q /\
  exists evs, trace (snd out) = trace w ++ EvGet j :: evs ++ [EvTaskDone].
Proof.
  intros Hq Hfrom Hto Hsubject out.
  destruct (worker_iteration_run env cfg w)
    as [[Hnil _]|(j' & q' & r & w' & evs & Hq' & Hrun & Hqw & _ & Ht & _)];
    [congruence|].
  rewrite Hq in Hq'. injection Hq' as <- <-.
  assert (fst out = Ok tt) as Hok.
  { unfold out, worker_iteration, bind, q_get. rewrite Hq.
    unfold try_finally, task_done.
    pose proof (process_job_returns env cfg j
                  (emit (EvGet j) (with_job_q q w)) Hfrom Hto Hsubject) as Hp.
    destruct (process_job env cfg j _) as [r0 w0]. simpl in *. done. }
  unfold out in *. rewrite Hrun in *. simpl in *. eauto.
Qed.

Lemma worker_absorbs_failures_witness :
  let j := job_for "0123456789ab" "a@b.c" "/tmp/upload_1.mp3" in
  let w := with_job_q [j; j] (one_file "/tmp/upload_1.mp3" three_parts) in
  let out := worker_iteration hostile_env default_config w in
  fst out = Ok tt /\ job_q (snd out) = [j] /\
  exists evs, trace (snd out) = trace w ++ EvGet j :: evs ++ [EvTaskDone].
Proof.
  apply (worker_absorbs_failures hostile_env default_config
           (with_job_q [job_for "0123456789ab" "a@b.c" "/tmp/upload_1.mp3";
                        job_for "0123456789ab" "a@b.c" "/tmp/upload_1.mp3"]
              (one_file "/tmp/upload_1.mp3" three_parts))
           (job_for "0123456789ab" "a@b.c" "/tmp/upload_1.mp3")
           [job_for "0123456789ab" "a@b.c" "/tmp/upload_1.mp3"]);
    reflexivity.
Defined.

(** C1: the statements that build the e-mail are outside every [try]
    except the [try ... finally] of the job, which has no [except].  A
    request with a two-line address passes the intake check; when the
    worker takes its job the ValueError of the header leaves the loop and
    ends the thread.  The next job stays in the queue through the
    following turns. *)
Theorem worker_dies_on_two_line_address :
  let w2 := run calm_env default_config two_requests (boot ∅) in
  let w := run calm_env default_config three_turns w2 in
  email <$> job_q w2 = [two_line_address; "good@b.c"] /\
  worker_alive w2 = true /\
  fst (worker_loop calm_env default_config 3 w2)
    = Raise (Exn "Header values may not contain linefeed or carriage return characters") /\
  email <$> dequeued (trace w) = [two_line_address] /\
  email <$> job_q w = ["good@b.c"] /\
  worker_alive w = false.
Proof. vm_compute. repeat split. Qed.

(** X2: once its message is built the dispatcher returns a pair and never
    raises, whatever the transport and the fallback write do: the flag says
    whether the transport delivered, and the error detail is there exactly
    when it did not. *)
Theorem dispatcher_returns_outcome
    (env : Env) (cfg : Config) (a s b : string)
    (atts : option (list Attachment)) (fb : option string)
    (w : World) (msg : EmailMessage) :
  build_message env cfg a s b atts w = (Ok msg, w) ->
  exists delivered detail,
    fst (send_email_with_fallback env cfg a s b atts fb w) = Ok (delivered, detail) /\
    (delivered = true <-> smtp_err env msg = None) /\
    (delivered = true <-> detail = None).
Proof.
  intros Hb.
  unfold send_email_with_fallback, bind at 1. rewrite Hb.
  unfold bind, try_except, smtp_deliver.
  destruct (smtp_err env msg) as [e|]; simpl.
  - exists false, (Some (smtp_error_text env e)).
    split; [|split; split; discriminate].
    destruct (path_given fb) as [path|]; simpl; [|done].
    unfold write_file. by destruct (open_err env path).
  - by exists true, None.
Qed.

Lemma dispatcher_returns_outcome_witness :
  exists delivered detail,
    fst (send_email_with_fallback hostile_env default_config
           "a@b.c" "subject" "hello"
           (Some [attachment "transcript_1.txt" "the text" "text/plain"])
           (Some "/tmp/f.txt") (boot ∅)) = Ok (delivered, detail) /\
    (delivered = true <->
     smtp_err hostile_env
       {| msg_from := "no-reply@example.com"; msg_to := "a@b.c";
          msg_subject := "subject"; msg_content := "hello";
          msg_parts := [ {| part_filename := "transcript_1.txt";
                            part_bytes := "the text";
                            part_maintype := "text";
                            part_subtype := "plain" |} ] |} = None) /\
    (delivered = true <-> detail = None).
Proof.
  apply (dispatcher_returns_outcome hostile_env default_config
           "a@b.c" "subject" "hello"
           (Some [attachment "transcript_1.txt" "the text" "text/plain"])
           (Some "/tmp/f.txt") (boot ∅)).
  reflexivity.
Defined.

(** * Further properties of the program *)

(** ** The dispatcher: one session, fallback only after a failure *)

(** X3: once the message is built, the dispatcher opens exactly one SMTP
    session; it writes the fallback file only when that session failed and
    a non-empty fallback path was given, and otherwise leaves the file
    system as it was. *)
Theorem dispatcher_sends_once
    (env : Env) (cfg : Config) (a s b : string)
    (atts : option (list Attachment)) (fb : option string)
    (w : World) (msg : EmailMessage) :
  build_message env cfg a s b atts w = (Ok msg, w) ->
  let out := send_email_with_fallback env cfg a s b atts fb w in
  since w (snd out) =
    EvSend msg (smtp_err env msg) ::
    match smtp_err env msg, path_given fb with
    | Some _, Some path => [EvWrite path (fallback_payload b atts)]
    | _, _ => []
    end /\
  (smtp_err env msg = None \/ path_given fb = None -> files (snd out) = files w).
Proof.
  intros Hb out.
  destruct (send_email_with_fallback env cfg a s b atts fb w) as [r w'] eqn:Hrun.
  unfold out. clear out. simpl.
  unfold send_email_with_fallback, bind at 1 in Hrun. rewrite Hb in Hrun.
  unfold bind, try_except, smtp_deliver in Hrun.
  destruct (smtp_err env msg) as [e|]; simpl in Hrun.
  - destruct (path_given fb) as [path|]; simpl in Hrun.
    + unfold write_file in Hrun.
      destruct (open_err env path); simpl in Hrun; injection Hrun as <- <-;
        (split; [apply since_app; simpl; by rewrite <- app_assoc|]);
        by intros [|].
    + injection Hrun as <- <-. split; [by apply since_app|]. done.
  - injection Hrun as <- <-. split; [by apply since_app|]. done.
Qed.

Lemma dispatcher_sends_once_witness :
  let atts := Some [attachment "transcript_1.txt" "the text" "text/plain"] in
  let msg := {| msg_from := "no-reply@example.com"; msg_to := "a@b.c";
                msg_subject := "subject"; msg_content := "hello";
                msg_parts := [ {| part_filename := "transcript_1.txt";
                                  part_bytes := "the text";
                                  part_maintype := "text";
                                  part_subtype := "plain" |} ] |} in
  let out := send_email_with_fallback calm_env default_config
               "a@b.c" "subject" "hello" atts (Some "/tmp/f.txt") (boot ∅) in
  since (boot ∅) (snd out) =
    EvSend msg (smtp_err calm_env msg) ::
    match smtp_err calm_env msg, path_given (Some "/tmp/f.txt") with
    | Some _, Some path => [EvWrite path (fallback_payload "hello" atts)]
    | _, _ => []
    end /\
  (smtp_err calm_env msg = None \/ path_given (Some "/tmp/f.txt") = None ->
   files (snd out) = files (boot ∅)).
Proof.
  apply (dispatcher_sends_once calm_env default_config "a@b.c" "subject" "hello"
           (Some [attachment "transcript_1.txt" "the text" "text/plain"])
           (Some "/tmp/f.txt") (boot ∅)).
  reflexivity.
Defined.

(** ** What the audio pipeline adds to the trace *)

#[local] Instance adding_preorder (P : Event -> bool) : PreOrder (adding P).
Proof.
  split.
  - intros w. exists []. by rewrite app_nil_r.
  - intros a b c (e1 & Ht1 & Hf1) (e2 & Ht2 & Hf2).
    exists (e1 ++ e2). rewrite Ht2, Ht1, <- app_assoc. split; [done|].
    by rewrite forallb_app, Hf1, Hf2.
Qed.

Lemma adding_emit (P : Event -> bool) (ev : Event) (w : World) :
  P ev = true -> adding P w (emit ev w).
Proof. intros H. exists [ev]. split; [done|]. simpl. by rewrite H. Qed.

Lemma sent_app (tr1 tr2 : list Event) : sent (tr1 ++ tr2) = sent tr1 ++ sent tr2.
Proof. apply omap_app. Qed.

Lemma written_app (tr1 tr2 : list Event) :
  written (tr1 ++ tr2) = written tr1 ++ written tr2.
Proof. apply omap_app. Qed.

Lemma sent_audio (evs : list Event) :
  forallb audio_event evs = true -> sent evs = [].
Proof.
  induction evs as [|ev t IH]; simpl; [done|].
  intros [Hev Ht]%andb_prop. unfold sent in *.
  destruct ev; simpl in *; auto; discriminate.
Qed.

Lemma written_audio (evs : list Event) :
  forallb audio_event evs = true -> written evs = [].
Proof.
  induction evs as [|ev t IH]; simpl; [done|].
  intros [Hev Ht]%andb_prop. unfold written in *.
  destruct ev; simpl in *; auto; discriminate.
Qed.

Section Audio.

Context (env : Env) (cfg : Config).

Lemma audio_uuid4 : keeps (adding audio_event) (uuid4 env).
Proof. intros w. exists []. simpl. by rewrite app_nil_r. Qed.

Lemma audio_now : keeps (adding audio_event) (now env).
Proof. intros w. exists []. simpl. by rewrite app_nil_r. Qed.

Lemma audio_from_file p : keeps (adding audio_event) (from_file env p).
Proof. intros w. simpl. reflexivity. Qed.

Lemma audio_os_path_exists p : keeps (adding audio_event) (os_path_exists p).
Proof. intros w. simpl. reflexivity. Qed.

Lemma audio_export a p : keeps (adding audio_event) (export env a p).
Proof.
  intros w. unfold export. destruct (export_err env p); simpl;
    by apply (adding_emit audio_event (EvExport p a)).
Qed.

Lemma audio_whisper p : keeps (adding audio_event) (whisper env p).
Proof. intros w. unfold whisper. simpl. by apply adding_emit. Qed.

Lemma audio_os_remove p : keeps (adding audio_event) (os_remove env p).
Proof.
  intros w. unfold os_remove.
  destruct (files w !! p); [destruct (remove_err env p)|]; simpl;
    by apply (adding_emit audio_event (EvRemove p)).
Qed.

(** [transcribe_file] exports, calls the model and removes; it sends
    nothing, writes no fallback and leaves the queue alone. *)
Lemma audio_transcribe_file p : keeps (adding audio_event) (transcribe_file env cfg p).
Proof.
  pose proof audio_uuid4. pose proof audio_now. pose proof audio_from_file.
  pose proof audio_os_path_exists. pose proof audio_export.
  pose proof audio_whisper. pose proof audio_os_remove.
  unfold transcribe_file, ensure_wav_copy, transcribe_body,
    remove_working_file, split_audio_to_files, segment_starts,
    export_segment, transcribe_one, transcribe_chunk.
  repeat (first [ solve [auto] | keeps_step ]).
Qed.

(** A transcript starts with its summary header. *)
Lemma transcribe_body_truthy wav ms w t w' :
  transcribe_body env cfg wav ms w = (Ok t, w') -> Py.truthy t = true.
Proof.
  unfold transcribe_body. destruct (longer_than ms (CHUNK_THRESHOLD_S cfg)).
  - unfold bind.
    destruct (split_audio_to_files env wav (SEG_LEN_SECONDS cfg) w)
      as [[paths|e] w1]; [|discriminate].
    destruct (for_each _ _ w1) as [[parts|e] w2]; [|discriminate].
    by intros [= <- <-].
  - unfold bind. destruct (whisper env wav w) as [[text|e] w1]; [|discriminate].
    by intros [= <- <-].
Qed.

Lemma transcribe_file_truthy p w t :
  fst (transcribe_file env cfg p w) = Ok t -> Py.truthy t = true.
Proof.
  unfold transcribe_file, bind.
  destruct (ensure_wav_copy env p w) as [[[wav ms]|e] w1]; [|discriminate].
  unfold try_finally.
  destruct (transcribe_body env cfg wav ms w1) as [r w2] eqn:Hbody.
  destruct (remove_working_file env wav w2) as [[u|e] w3]; [|discriminate].
  simpl. intros ->. by eapply transcribe_body_truthy.
Qed.

Lemma mailed_transcript_truthy p w :
  Py.truthy (mailed_transcript env (fst (transcribe_file env cfg p w))) = true.
Proof.
  destruct (fst (transcribe_file env cfg p w)) as [t|e] eqn:Hr; simpl.
  - by eapply transcribe_file_truthy.
  - reflexivity.
Qed.

End Audio.

Lemma fallback_path_given (env : Env) (id : string) :
  path_given (Some (fallback_path_of env id)) = Some (fallback_path_of env id).
Proof.
  unfold path_given.
  assert (Py.truthy (fallback_path_of env id) = true) as ->; [|done].
  unfold fallback_path_of, tmp_path, Py.path_join. simpl.
  destruct (tmpdir env) as [|c t]; [done|].
  by destruct (String.eqb _ _).
Qed.

(** ** A job, step by step *)

Section JobSteps.

Context (env : Env) (cfg : Config).

Lemma send_email_run a s b atts fb w msg :
  build_message env cfg a s b atts w = (Ok msg, w) ->
  exists r w',
    send_email_with_fallback env cfg a s b atts fb w = (Ok r, w') /\
    trace w' = trace w ++
      EvSend msg (smtp_err env msg) ::
      match smtp_err env msg, path_given fb with
      | Some _, Some path => [EvWrite path (fallback_payload b atts)]
      | _, _ => []
      end.
Proof.
  intros Hb. unfold send_email_with_fallback, bind at 1. rewrite Hb.
  unfold bind, try_except, smtp_deliver.
  destruct (smtp_err env msg) as [e|]; simpl.
  - destruct (path_given fb) as [path|]; simpl.
    + unfold write_file. destruct (open_err env path); simpl;
        eexists _, _; (split; [reflexivity|]); simpl; by rewrite <- app_assoc.
    + eexists _, _. split; reflexivity.
  - eexists _, _. split; reflexivity.
Qed.

(** [if os.path.exists(p): os.remove(p)] under [try ... except: pass]. *)
Lemma guarded_remove_run p w :
  exists w' evs,
    try_except
      (let* there := os_path_exists p in
       if there then os_remove env p else ret tt)
      (fun _ => ret tt) w = (Ok tt, w') /\
    trace w' = trace w ++ evs /\
    (evs = [] \/ evs = [EvRemove p]) /\
    (remove_err env p = None -> files w' !! p = None) /\
    (forall q, q <> p -> files w' !! q = files w !! q).
Proof.
  unfold try_except, bind, os_path_exists, os_remove.
  destruct (files w !! p) as [f|] eqn:Hf.
  - rewrite bool_decide_true by done. rewrite Hf.
    destruct (remove_err env p) as [e|]; simpl.
    + eexists _, [EvRemove p]. split; [reflexivity|]. split; [done|].
      split; [by right|]. split; [done|]. done.
    + eexists _, [EvRemove p]. split; [reflexivity|]. split; [done|].
      split; [by right|]. split; [intros _; simpl; apply lookup_delete_eq|].
      intros q Hq. simpl. by apply lookup_delete_ne.
  - rewrite bool_decide_false by (intros [? [=]]). simpl.
    exists w, []. rewrite app_nil_r. repeat split; auto.
Qed.

Lemma build_job_message j t w :
  headers_accepted env cfg j ->
  build_message env cfg (email j) (email_subject (job_id j))
    (email_body (job_id j) (filename j) t)
    (Some [ {| att_filename := "transcript_" +:+ job_id j +:+ ".txt";
               att_bytes := t; att_mime := "text/plain" |} ]) w
  = (Ok (job_message cfg j t), w).
Proof.
  intros (Hfrom & Hto & Hsubject).
  unfold build_message, bind, set_header, add_attachment.
  rewrite Hfrom, Hto, Hsubject. simpl.
  by rewrite (subject_accepts_attachment env (job_id j) Hsubject).
Qed.

(** The events of a job whose headers are accepted: those of the audio
    pipeline, one SMTP session, the fallback write when the session failed,
    and the removal of the upload when it is there. *)
Lemma process_job_run j w :
  headers_accepted env cfg j ->
  let t := mailed_transcript env (fst (transcribe_file env cfg (audio_path j) w)) in
  let msg := job_message cfg j t in
  exists w3 evs_t evs_c,
    process_job env cfg j w = (Ok tt, w3) /\
    forallb audio_event evs_t = true /\
    (evs_c = [] \/ evs_c = [EvRemove (audio_path j)]) /\
    trace w3 = trace w ++ evs_t ++
      (EvSend msg (smtp_err env msg) ::
       match smtp_err env msg with
       | Some _ => [EvWrite (fallback_path_of env (job_id j)) t]
       | None => []
       end) ++ evs_c /\
    (remove_err env (audio_path j) = None -> files w3 !! audio_path j = None).
Proof.
  intros Hacc t msg.
  pose proof (audio_transcribe_file env cfg (audio_path j) w) as (evs_t & Ht & Hf).
  pose proof (mailed_transcript_truthy env cfg (audio_path j) w) as Htruthy.
  fold t in Htruthy.
  unfold process_job, bind at 1, try_except at 1.
  destruct (transcribe_file env cfg (audio_path j) w) as [r w1] eqn:Hrun.
  simpl in Ht, t.
  assert ((let (r0, w') := (r, w1) in
           match r0 with
           | Ok a => (Ok a, w')
           | Raise e => ret (transcription_failed env e) w'
           end) = (Ok t, w1)) as -> by (by destruct r).
  unfold bind at 1.
  destruct (send_email_run _ _ _ _
              (Some (fallback_path_of env (job_id j))) _ _
              (build_job_message j t w1 Hacc)) as (r2 & w2 & Hsend & Ht2).
  rewrite Hsend.
  rewrite fallback_path_given in Ht2.
  assert (fallback_payload (email_body (job_id j) (filename j) t)
            (Some [ {| att_filename := "transcript_" +:+ job_id j +:+ ".txt";
                       att_bytes := t; att_mime := "text/plain" |} ]) = t) as Hpay.
  { unfold fallback_payload. simpl. by rewrite Htruthy. }
  rewrite Hpay in Ht2. fold msg in Ht2.
  destruct (guarded_remove_run (audio_path j) w2)
    as (w3 & evs_c & Hrm & Ht3 & Hcase & Hgone & _).
  exists w3, evs_t, evs_c.
  split; [exact Hrm|]. split; [done|]. split; [done|]. split; [|done].
  rewrite Ht3, Ht2, Ht, <- !app_assoc. reflexivity.
Qed.

End JobSteps.

(** ** What the submitter gets *)

(** X4: a job whose headers are accepted sends exactly one e-mail, to the
    job's address, titled with the job id; its body embeds the transcript
    and its one attachment, transcript_<id>.txt of type text/plain, holds
    it.  When [transcribe_file] raised, the transcript is the text
    "[ERROR] Transcription failed: ..." of the worker: the failure is
    mailed, not dropped. *)
Theorem job_mails_transcript_or_failure
    (env : Env) (cfg : Config) (j : Job) (w : World) :
  headers_accepted env cfg j ->
  let t := mailed_transcript env (fst (transcribe_file env cfg (audio_path j) w)) in
  sent (since w (snd (process_job env cfg j w))) = [job_message cfg j t].
Proof.
  intros Hacc t.
  destruct (process_job_run env cfg j w Hacc)
    as (w3 & evs_t & evs_c & -> & Hf & Hcase & Ht & _).
  fold t in Ht. simpl. rewrite (since_app _ _ _ Ht).
  rewrite !sent_app, (sent_audio evs_t Hf).
  destruct Hcase as [-> | ->]; by destruct (smtp_err env _).
Qed.

Lemma job_mails_transcript_or_failure_witness :
  let t := mailed_transcript hostile_env
             (fst (transcribe_file hostile_env default_config
                     (audio_path waiting_job) one_waiting)) in
  sent (since one_waiting
          (snd (process_job hostile_env default_config waiting_job one_waiting)))
  = [job_message default_config waiting_job t].
Proof.
  apply (job_mails_transcript_or_failure hostile_env default_config
           waiting_job one_waiting).
  vm_compute. repeat split.
Defined.

(** X5: when the SMTP session of a job fails, the worker writes exactly one
    file, <tmpdir>/transcript_fallback_<id>.txt, and what it writes is the
    transcript, never the e-mail body; when the session succeeds it writes
    no file. *)
Theorem job_fallback_is_the_transcript
    (env : Env) (cfg : Config) (j : Job) (w : World) :
  headers_accepted env cfg j ->
  let t := mailed_transcript env (fst (transcribe_file env cfg (audio_path j) w)) in
  written (since w (snd (process_job env cfg j w))) =
    match smtp_err env (job_message cfg j t) with
    | Some _ => [(tmp_path env ("transcript_fallback_" +:+ job_id j +:+ ".txt"), t)]
    | None => []
    end.
Proof.
  intros Hacc t.
  destruct (process_job_run env cfg j w Hacc)
    as (w3 & evs_t & evs_c & -> & Hf & Hcase & Ht & _).
  fold t in Ht. simpl. rewrite (since_app _ _ _ Ht).
  rewrite !written_app, (written_audio evs_t Hf).
  destruct Hcase as [-> | ->]; by destruct (smtp_err env _).
Qed.

Lemma job_fallback_is_the_transcript_witness :
  let t := mailed_transcript offline_env
             (fst (transcribe_file offline_env default_config
                     (audio_path waiting_job) one_waiting)) in
  written (since one_waiting
             (snd (process_job offline_env default_config waiting_job one_waiting))) =
    match smtp_err offline_env (job_message default_config waiting_job t) with
    | Some _ => [(tmp_path offline_env
                    ("transcript_fallback_" +:+ job_id waiting_job +:+ ".txt"), t)]
    | None => []
    end.
Proof.
  apply (job_fallback_is_the_transcript offline_env default_config
           waiting_job one_waiting).
  vm_compute. repeat split.
Defined.

(** X6: a job whose headers are accepted ends with its uploaded audio file
    gone, whatever happened to transcription and delivery, unless the
    removal itself fails. *)
Theorem job_removes_its_upload
    (env : Env) (cfg : Config) (j : Job) (w : World) :
  headers_accepted env cfg j ->
  remove_err env (audio_path j) = None ->
  files (snd (process_job env cfg j w)) !! audio_path j = None.
Proof.
  intros Hacc Hrm.
  destruct (process_job_run env cfg j w Hacc)
    as (w3 & evs_t & evs_c & -> & _ & _ & _ & Hgone).
  by apply Hgone.
Qed.

Lemma job_removes_its_upload_witness :
  files (snd (process_job offline_env default_config waiting_job one_waiting))
    !! audio_path waiting_job = None.
Proof.
  apply (job_removes_its_upload offline_env default_config
           waiting_job one_waiting);
    [vm_compute; repeat split | reflexivity].
Defined.

(** ** The loop of the worker *)

Lemma tasks_done_app (tr1 tr2 : list Event) :
  tasks_done (tr1 ++ tr2) = (tasks_done tr1 + tasks_done tr2)%nat.
Proof. unfold tasks_done. by rewrite omap_app, length_app. Qed.

Lemma tasks_done_quiet (evs : list Event) :
  forallb quiet evs = true -> tasks_done evs = 0%nat.
Proof.
  induction evs as [|ev t IH]; simpl; [done|].
  intros [Hev Ht]%andb_prop. unfold tasks_done in *.
  destruct ev; simpl in *; auto; discriminate.
Qed.

Lemma tasks_done_block (j : Job) (evs : list Event) :
  forallb quiet evs = true ->
  tasks_done (EvGet j :: evs ++ [EvTaskDone]) = 1%nat.
Proof.
  intros Hf. change (EvGet j :: evs ++ [EvTaskDone])
    with ([EvGet j] ++ evs ++ [EvTaskDone]).
  rewrite !tasks_done_app, (tasks_done_quiet evs Hf). done.
Qed.

Section Loop.

Context (env : Env) (cfg : Config).

(** A turn on a job whose headers are accepted returns. *)
Lemma worker_iteration_ok w j q :
  job_q w = j :: q ->
  headers_accepted env cfg j ->
  exists w' evs,
    worker_iteration env cfg w = (Ok tt, w') /\ job_q w' = q /\
    trace w' = trace w ++ EvGet j :: evs ++ [EvTaskDone] /\
    forallb quiet evs = true.
Proof.
  intros Hq (Hfrom & Hto & Hsubject).
  destruct (worker_iteration_run env cfg w)
    as [[Hnil _]|(j' & q' & r & w' & evs & Hq' & Hrun & Hqw & _ & Ht & Hf)];
    [congruence|].
  rewrite Hq in Hq'. injection Hq' as <- <-.
  exists w', evs. split; [|done].
  assert (fst (worker_iteration env cfg w) = Ok tt) as Hok.
  { unfold worker_iteration, bind, q_get. rewrite Hq.
    unfold try_finally, task_done.
    pose proof (process_job_returns env cfg j
                  (emit (EvGet j) (with_job_q q w)) Hfrom Hto Hsubject) as Hp.
    destruct (process_job env cfg j _) as [r0 w0]. simpl in *. done. }
  rewrite Hrun in *. simpl in Hok. by subst r.
Qed.

Lemma worker_loop_drains_run n w :
  Forall (headers_accepted env cfg) (job_q w) ->
  (length (job_q w) <= n)%nat ->
  exists w' evs,
    worker_loop env cfg n w = (Ok tt, w') /\ job_q w' = [] /\
    trace w' = trace w ++ evs /\
    dequeued evs = job_q w /\ tasks_done evs = length (job_q w).
Proof.
  revert w. induction n as [|n IH]; intros w Hacc Hlen.
  - destruct (job_q w) as [|j q] eqn:Hq; [|simpl in Hlen; lia].
    exists w, []. simpl. by rewrite app_nil_r.
  - cbn [worker_loop]. unfold bind at 1.
    destruct (job_q w) as [|j q] eqn:Hq.
    + destruct (worker_iteration_run env cfg w)
        as [[_ ->]|(j' & q' & ? & ? & ? & Hq' & _)]; [|congruence].
      destruct (IH w) as (w' & evs & Hrun & Hqe & Ht & Hd & Hn);
        [by rewrite Hq | rewrite Hq; simpl; lia |].
      rewrite Hq in Hd, Hn. by exists w', evs.
    + apply Forall_cons in Hacc as [Hj Hrest].
      destruct (worker_iteration_ok w j q Hq Hj) as (w1 & evs1 & -> & Hq1 & Ht1 & Hf1).
      destruct (IH w1) as (w' & evs & Hrun & Hqe & Ht & Hd & Hn);
        [by rewrite Hq1 | rewrite Hq1; simpl in Hlen; lia |].
      rewrite Hq1 in Hd, Hn.
      exists w', ((EvGet j :: evs1 ++ [EvTaskDone]) ++ evs).
      split; [done|]. split; [done|].
      split; [by rewrite Ht, Ht1, <- app_assoc|].
      rewrite dequeued_app, tasks_done_app.
      rewrite (dequeued_block j evs1 Hf1), (tasks_done_block j evs1 Hf1), Hd, Hn.
      done.
Qed.

(** Whatever a run of the loop does, it marks done as many jobs as it
    took. *)
Lemma worker_loop_balanced_run n w :
  exists evs,
    trace (snd (worker_loop env cfg n w)) = trace w ++ evs /\
    length (dequeued evs) = tasks_done evs.
Proof.
  revert w. induction n as [|n IH]; intros w.
  - exists []. simpl. by rewrite app_nil_r.
  - cbn [worker_loop]. unfold bind at 1.
    destruct (worker_iteration_run env cfg w)
      as [[_ ->]|(j & q & r & w1 & evs1 & _ & -> & _ & _ & Ht1 & Hf1)].
    + apply IH.
    + assert (length (dequeued (EvGet j :: evs1 ++ [EvTaskDone]))
              = tasks_done (EvGet j :: evs1 ++ [EvTaskDone])) as Hblock.
      { by rewrite (dequeued_block j evs1 Hf1), (tasks_done_block j evs1 Hf1). }
      destruct r as [[]|e]; simpl.
      * destruct (IH w1) as (evs & Ht & Hb).
        exists ((EvGet j :: evs1 ++ [EvTaskDone]) ++ evs).
        split; [by rewrite Ht, Ht1, <- app_assoc|].
        rewrite dequeued_app, tasks_done_app, length_app. lia.
      * by exists (EvGet j :: evs1 ++ [EvTaskDone]).
Qed.

End Loop.

(** X7: given as many turns as there are jobs in the queue, and jobs whose
    headers are accepted, the loop returns with an empty queue: it has
    taken every job, in the order of the queue, and marked each done. *)
Theorem worker_loop_drains_the_queue
    (env : Env) (cfg : Config) (n : nat) (w : World) :
  Forall (headers_accepted env cfg) (job_q w) ->
  (length (job_q w) <= n)%nat ->
  let out := worker_loop env cfg n w in
  fst out = Ok tt /\ job_q (snd out) = [] /\
  dequeued (since w (snd out)) = job_q w /\
  tasks_done (since w (snd out)) = length (job_q w).
Proof.
  intros Hacc Hlen out.
  destruct (worker_loop_drains_run env cfg n w Hacc Hlen)
    as (w' & evs & Hrun & Hq & Ht & Hd & Hn).
  unfold out. rewrite Hrun. simpl. rewrite (since_app _ _ _ Ht). done.
Qed.

Lemma worker_loop_drains_the_queue_witness :
  let w := with_job_q [waiting_job; waiting_job] one_waiting in
  let out := worker_loop hostile_env default_config 3 w in
  fst out = Ok tt /\ job_q (snd out) = [] /\
  dequeued (since w (snd out)) = job_q w /\
  tasks_done (since w (snd out)) = length (job_q w).
Proof.
  apply (worker_loop_drains_the_queue hostile_env default_config 3
           (with_job_q [waiting_job; waiting_job] one_waiting)).
  - repeat constructor.
  - vm_compute. lia.
Defined.

(** X8: in every run of the loop, whether it returns or is left by an
    exception, each job taken from the queue is marked done exactly once:
    the number of [task_done] calls equals the number of jobs taken. *)
Theorem every_taken_job_is_marked_done
    (env : Env) (cfg : Config) (n : nat) (w : World) :
  let out := worker_loop env cfg n w in
  tasks_done (since w (snd out)) = length (dequeued (since w (snd out))).
Proof.
  intros out.
  destruct (worker_loop_balanced_run env cfg n w) as (evs & Ht & Hb).
  unfold out. by rewrite (since_app _ _ _ Ht).
Qed.

(** ** The windows of the chunked branch cover the recording *)

Lemma windows_take (a : Audio) (l : Z) (m : nat) :
  0 < l ->
  mjoin (window a l <$> ((fun k => k * l) <$> seqZ 0 (Z.of_nat m)))
  = take (Z.to_nat (Z.of_nat m * l)) a.
Proof.
  intros Hl. induction m as [|m IH].
  - done.
  - rewrite seqZ_S, !fmap_app, (join_app (A := frame)), IH. simpl.
    rewrite app_nil_r.
    unfold window, audio_slice, audio_len.
    rewrite take_take_drop.
    assert (0 <= Z.of_nat m * l) by nia.
    destruct (Z.le_gt_cases (Z.of_nat m * l + l) (Z.of_nat (length a))) as [Hin|Hout].
    + f_equal. lia.
    + rewrite !take_ge; [done | nia | lia].
Qed.

Lemma windows_cover (a : Audio) (l : Z) :
  0 < l ->
  mjoin (window a l <$> ((fun k => k * l) <$> seqZ 0 ((audio_len a + l - 1) / l)))
  = a.
Proof.
  intros Hl.
  pose proof (ceil_div_bounds (audio_len a) l Hl) as Hn. cbv zeta in Hn.
  set (n := (audio_len a + l - 1) / l) in *.
  assert (0 <= n).
  { apply Z.div_pos; unfold audio_len; lia. }
  rewrite <- (Z2Nat.id n) by done.
  rewrite windows_take by done. apply take_ge.
  rewrite Z2Nat.id by done. unfold audio_len in Hn. lia.
Qed.

Section Chunked.

Context (env : Env) (cfg : Config).

(** The events of [transcribe_file] on a long file, after the working copy
    is made. *)
Lemma transcribe_file_chunked_run in_path w wav ms w1 :
  0 < SEG_LEN_SECONDS cfg ->
  (forall p, export_err env p = None) ->
  ensure_wav_copy env in_path w = (Ok (wav, ms), w1) ->
  1000 * CHUNK_THRESHOLD_S cfg < ms ->
  let l := SEG_LEN_SECONDS cfg * 1000 in
  exists a paths outs evs,
    read_audio env w in_path = Ok a /\ audio_len a = ms /\
    length paths = Z.to_nat ((ms + l - 1) / l) /\
    length outs = Z.to_nat ((ms + l - 1) / l) /\
    (evs = [] \/ evs = [EvRemove wav]) /\
    since w1 (snd (transcribe_file env cfg in_path w)) =
      (zip_with EvExport paths
         (window a l <$> ((fun k => k * l) <$> seqZ 0 ((ms + l - 1) / l)))
       ++ chunk_events paths outs) ++ evs.
Proof.
  intros Hseg Hexp Hens Hgt l.
  destruct (ensure_wav_copy_ok env in_path w wav ms w1 Hens)
    as (a & Hread & Hlen & Hf & Htruthy & _).
  subst ms.
  destruct (transcribe_body_chunked env cfg wav a w1 Hexp Hseg Hf)
    as (paths & outs & w2 & Hlp & Hlo & Hrun & Ht).
  { unfold longer_than. apply Z.ltb_lt. lia. }
  fold l in Hlp, Hlo, Hrun, Ht.
  rewrite length_fmap, length_seqZ in Hlp, Hlo.
  destruct (remove_working_file_run env wav w2 Htruthy)
    as (w3 & evs & Hfin & Ht3 & Hcase & _).
  exists a, paths, outs, evs.
  split; [done|]. split; [done|]. split; [done|]. split; [done|].
  split; [destruct Hcase as [(-> & _)|(-> & _)]; auto|].
  rewrite (transcribe_file_run env cfg _ _ _ _ _ Hens), Hrun. simpl.
  rewrite Hfin. simpl. apply since_app.
  by rewrite Ht3, Ht, <- !app_assoc.
Qed.

End Chunked.

(** X9: the chunks cut from a long recording, put end to end in the order
    they are exported, are the recording: no millisecond is lost, repeated
    or reordered. *)
Theorem chunks_cover_the_recording
    (env : Env) (cfg : Config) (in_path : string) (w : World)
    (wav : string) (ms : Z) (w1 : World) :
  0 < SEG_LEN_SECONDS cfg ->
  (forall p, export_err env p = None) ->
  ensure_wav_copy env in_path w = (Ok (wav, ms), w1) ->
  1000 * CHUNK_THRESHOLD_S cfg < ms ->
  read_audio env w in_path
  = Ok (mjoin (exported (since w1 (snd (transcribe_file env cfg in_path w))))).
Proof.
  intros Hseg Hexp Hens Hgt.
  destruct (transcribe_file_chunked_run env cfg in_path w wav ms w1
              Hseg Hexp Hens Hgt)
    as (a & paths & outs & evs & Hread & Hlen & Hlp & Hlo & Hcase & ->).
  rewrite Hread. f_equal.
  rewrite exported_app, exported_chunked
    by (by rewrite !length_fmap, length_seqZ).
  assert (exported evs = []) as -> by (by destruct Hcase as [-> | ->]).
  rewrite app_nil_r, <- Hlen, windows_cover; [done | lia].
Qed.

Lemma chunks_cover_the_recording_witness :
  read_audio calm_env (one_file "/tmp/in.wav" three_parts) "/tmp/in.wav"
  = Ok (mjoin (exported
                 (since (snd (ensure_wav_copy calm_env "/tmp/in.wav"
                                (one_file "/tmp/in.wav" three_parts)))
                        (snd (transcribe_file calm_env short_segments "/tmp/in.wav"
                                (one_file "/tmp/in.wav" three_parts)))))).
Proof.
  apply (chunks_cover_the_recording calm_env short_segments "/tmp/in.wav"
           (one_file "/tmp/in.wav" three_parts)
           "/tmp/whisper_input_0123456789abcdef0.wav" 2500);
    [ vm_compute; reflexivity | intros p; reflexivity
    | vm_compute; reflexivity | vm_compute; reflexivity ].
Defined.

(** ** Temporary files *)

Section TempFiles.

Context (env : Env) (cfg : Config).

Hypothesis exports_succeed : forall p, export_err env p = None.
Hypothesis removals_succeed : forall p, remove_err env p = None.

Lemma export_loop_files a d l ts (entries : list (nat * Z)) w :
  exists paths w',
    for_each (export_segment env a d l ts) entries w = (Ok paths, w') /\
    (forall p, p ∉ paths -> files w' !! p = files w !! p).
Proof.
  revert w. induction entries as [|[i s] t IH]; intros w; cbn [for_each].
  - exists [], w. done.
  - unfold bind at 1, export_segment at 1, bind at 1 2, uuid4, export.
    rewrite exports_succeed. unfold ret at 1.
    set (path := tmp_path env _).
    set (w1 := with_files _ _).
    destruct (IH w1) as (paths & w2 & Hloop & Hfiles).
    exists (path :: paths), w2. unfold bind at 1. rewrite Hloop. split; [done|].
    intros p [Hp Hps]%not_elem_of_cons.
    rewrite Hfiles by done. unfold w1. simpl. by apply lookup_insert_ne.
Qed.

Lemma transcribe_one_files idx p w :
  exists t w',
    transcribe_one env (idx, p) w = (Ok t, w') /\
    files w' = delete p (files w).
Proof.
  destruct (transcribe_one_run env idx p w) as (r & w' & Hrun & _).
  exists (chunk_text idx r), w'. split; [done|].
  revert Hrun.
  unfold transcribe_one, bind at 1, try_except at 1, transcribe_chunk,
    bind at 1, whisper.
  set (r0 := match read_audio env w p with
             | Ok a => model_transcribe env p a
             | Raise e => Raise e
             end).
  assert (forall w0 (t0 : string), files w0 = files w ->
            files (snd ((try_except (os_remove env p) (fun _ => ret tt);;
                         ret t0) w0)) = delete p (files w)) as Hrm.
  { intros w0 t0 Hw0. unfold bind, try_except, os_remove. rewrite Hw0.
    destruct (files w !! p) eqn:Hf; simpl.
    - rewrite removals_succeed. simpl. by rewrite Hw0.
    - rewrite Hw0. by rewrite delete_id. }
  destruct r0 as [t|e]; simpl; intros Heq;
    apply (f_equal snd) in Heq; simpl in Heq; rewrite <- Heq; by apply Hrm.
Qed.

Lemma chunk_loop_files (entries : list (nat * string)) w :
  exists parts w',
    for_each (transcribe_one env) entries w = (Ok parts, w') /\
    (forall p, p ∈ entries.*2 -> files w' !! p = None) /\
    (forall p, p ∉ entries.*2 -> files w' !! p = files w !! p).
Proof.
  revert w. induction entries as [|[idx p] t IH]; intros w; cbn [for_each].
  - exists [], w. split; [done|]. split; [|done]. intros p Hp. by inversion Hp.
  - destruct (transcribe_one_files idx p w) as (txt & w1 & Hrun & Hf1).
    destruct (IH w1) as (parts & w2 & Hloop & Hin & Hout).
    exists (txt :: parts), w2. unfold bind at 1. rewrite Hrun.
    unfold bind at 1. rewrite Hloop. split; [done|]. simpl. split.
    + intros q Hq. destruct (decide (q ∈ t.*2)) as [Ht|Ht]; [by apply Hin|].
      rewrite Hout, Hf1 by done.
      apply elem_of_cons in Hq as [->|Hq]; [apply lookup_delete_eq | done].
    + intros q [Hq Ht]%not_elem_of_cons.
      rewrite Hout, Hf1 by done. by apply lookup_delete_ne.
Qed.

(** The [try] block leaves no new file: what it exports it removes. *)
Lemma transcribe_body_files wav ms w :
  files (snd (transcribe_body env cfg wav ms w)) ⊆ files w.
Proof.
  unfold transcribe_body. destruct (longer_than ms (CHUNK_THRESHOLD_S cfg)).
  - unfold split_audio_to_files, bind at 1 2, from_file.
    destruct (read_audio env w wav) as [a|e]; [|done].
    unfold bind at 1, now. simpl. unfold bind at 1, segment_starts.
    destruct (Py.range0 _ _) as [starts|]; [|done].
    unfold ret at 1. set (w0 := with_n_time _ w).
    destruct (export_loop_files a (audio_len a) (SEG_LEN_SECONDS cfg * 1000)
                (time_time env (n_time w)) (Py.enumerate 0 starts) w0)
      as (paths & w1 & -> & Hexp).
    destruct (chunk_loop_files (Py.enumerate 1 paths) w1)
      as (parts & w2 & Hloop & Hin & Hout).
    rewrite enumerate_snd in Hin, Hout.
    unfold bind at 1. rewrite Hloop. simpl.
    apply map_subseteq_spec. intros p x Hp.
    destruct (decide (p ∈ paths)) as [Hpaths|Hpaths].
    + rewrite Hin in Hp by done. discriminate.
    + rewrite Hout, Hexp in Hp by done. exact Hp.
  - unfold bind, whisper. by destruct (match read_audio env w wav with
                                        | Ok a => model_transcribe env wav a
                                        | Raise e => Raise e
                                        end).
Qed.

End TempFiles.

Lemma remove_working_file_others (env : Env) (wav : string) (w : World) (q : string) :
  q <> wav ->
  files (snd (remove_working_file env wav w)) !! q = files w !! q.
Proof.
  intros Hq. unfold remove_working_file.
  destruct (Py.truthy wav); [|done].
  unfold try_except, bind, os_path_exists, os_remove.
  destruct (files w !! wav) eqn:Hf.
  - rewrite bool_decide_true by done. rewrite Hf.
    destruct (remove_err env wav); simpl; [done|].
    by apply lookup_delete_ne.
  - rewrite bool_decide_false by (intros [? [=]]). done.
Qed.

(** X10: on a machine where no export and no removal fails,
    [transcribe_file] leaves no file behind, whatever it returns or raises:
    every file of the temporary directory afterwards was there before, with
    the same content.  The working copy and every chunk file are gone. *)
Theorem transcribe_file_leaves_no_file
    (env : Env) (cfg : Config) (in_path : string) (w : World) :
  (forall p, export_err env p = None) ->
  (forall p, remove_err env p = None) ->
  files (snd (transcribe_file env cfg in_path w)) ⊆ files w.
Proof.
  intros Hexp Hrm.
  destruct (ensure_wav_copy env in_path w) as [[[wav ms]|e] w1] eqn:Hens.
  - destruct (ensure_wav_copy_ok env in_path w wav ms w1 Hens)
      as (a & _ & _ & _ & Htruthy & _).
    assert (forall p, p <> wav -> files w1 !! p = files w !! p) as Hw1.
    { revert Hens. unfold ensure_wav_copy, bind, uuid4, from_file, export.
      change (read_audio env (with_n_uuid (S (n_uuid w)) w) in_path)
        with (read_audio env w in_path).
      destruct (read_audio env w in_path); [|discriminate].
      destruct (export_err env _); [discriminate|].
      unfold ret. intros [= <- _ <-] p Hp. simpl. by apply lookup_insert_ne. }
    rewrite (transcribe_file_run env cfg _ _ _ _ _ Hens).
    pose proof (transcribe_body_files env cfg Hexp Hrm wav ms w1) as Hbody.
    pose proof (remove_working_file_others env wav
                  (snd (transcribe_body env cfg wav ms w1))) as Hothers.
    destruct (remove_working_file_run env wav
                (snd (transcribe_body env cfg wav ms w1)) Htruthy)
      as (w3 & evs & Hfin & _ & _ & Hgone & _).
    rewrite Hfin in Hothers. rewrite Hfin. simpl in *.
    apply map_subseteq_spec. intros p x Hp.
    destruct (decide (p = wav)) as [->|Hne].
    + rewrite Hgone in Hp by done. discriminate.
    + rewrite <- Hw1 by done.
      eapply lookup_weaken; [|exact Hbody].
      by rewrite <- Hothers.
  - unfold transcribe_file, bind. rewrite Hens. simpl.
    revert Hens. unfold ensure_wav_copy, bind, uuid4, from_file, export.
    change (read_audio env (with_n_uuid (S (n_uuid w)) w) in_path)
      with (read_audio env w in_path).
    destruct (read_audio env w in_path); [|by intros [= _ <-]].
    rewrite Hexp. discriminate.
Qed.

Lemma transcribe_file_leaves_no_file_witness :
  files (snd (transcribe_file patchy_env short_segments "/tmp/in.wav"
                (one_file "/tmp/in.wav" three_parts)))
  ⊆ files (one_file "/tmp/in.wav" three_parts).
Proof.
  apply (transcribe_file_leaves_no_file patchy_env short_segments "/tmp/in.wav"
           (one_file "/tmp/in.wav" three_parts));
    intros p; reflexivity.
Defined.

(** ** A segment length that is not positive *)

Section BadSegmentLength.

Context (env : Env) (cfg : Config).

(** The chunked branch up to [range(0, duration_ms, seg_len_ms)]. *)
Lemma split_reaches_range wav a w :
  files w !! wav = Some (Wav a) ->
  split_audio_to_files env wav (SEG_LEN_SECONDS cfg) w =
    (let* starts := segment_starts (audio_len a) (SEG_LEN_SECONDS cfg * 1000) in
     for_each (export_segment env a (audio_len a) (SEG_LEN_SECONDS cfg * 1000)
                 (time_time env (n_time w)))
              (Py.enumerate 0 starts))
      (with_n_time (S (n_time w)) w).
Proof.
  intros Hf. unfold split_audio_to_files, bind at 1 2, from_file, read_audio.
  rewrite Hf. unfold bind at 1, now. reflexivity.
Qed.

(** The clean-up of a working file that is still there. *)
Lemma remove_working_file_present wav w f :
  Py.truthy wav = true ->
  files w !! wav = Some f ->
  trace (snd (remove_working_file env wav w)) = trace w ++ [EvRemove wav].
Proof.
  intros Ht Hf.
  destruct (remove_working_file_run env wav w Ht)
    as (w' & evs & -> & Htr & [(_ & Hnone & _)|(-> & _)] & _); simpl.
  - rewrite Hf in Hnone. discriminate.
  - done.
Qed.

End BadSegmentLength.

(** X11: with [SEG_LEN_SECONDS = 0] every recording longer than the
    threshold fails: [transcribe_file] raises the ValueError of a zero
    range step, having exported no chunk and called the model on nothing;
    the working copy is still cleaned up. *)
Theorem zero_segment_length_raises
    (env : Env) (cfg : Config) (in_path : string) (w : World)
    (wav : string) (ms : Z) (w1 : World) :
  SEG_LEN_SECONDS cfg = 0 ->
  ensure_wav_copy env in_path w = (Ok (wav, ms), w1) ->
  1000 * CHUNK_THRESHOLD_S cfg < ms ->
  let out := transcribe_file env cfg in_path w in
  fst out = Raise (Exn "range() arg 3 must not be zero") /\
  since w1 (snd out) = [EvRemove wav].
Proof.
  intros Hseg Hens Hgt out.
  destruct (ensure_wav_copy_ok env in_path w wav ms w1 Hens)
    as (a & _ & Hlen & Hf & Htruthy & _).
  subst ms.
  assert (transcribe_body env cfg wav (audio_len a) w1
          = (Raise (Exn "range() arg 3 must not be zero"),
             with_n_time (S (n_time w1)) w1)) as Hbody.
  { unfold transcribe_body, longer_than.
    rewrite (proj2 (Z.ltb_lt _ _) Hgt).
    unfold bind at 1. rewrite (split_reaches_range env cfg wav a w1 Hf).
    unfold bind, segment_starts. by rewrite Hseg. }
  unfold out. rewrite (transcribe_file_run env cfg _ _ _ _ _ Hens), Hbody.
  simpl. split; [done|].
  apply since_app.
  by rewrite (remove_working_file_present env wav _ (Wav a) Htruthy).
Qed.

Lemma zero_segment_length_raises_witness :
  let w := one_file "/tmp/in.wav" three_parts in
  let w1 := snd (ensure_wav_copy calm_env "/tmp/in.wav" w) in
  let out := transcribe_file calm_env zero_segments "/tmp/in.wav" w in
  fst out = Raise (Exn "range() arg 3 must not be zero") /\
  since w1 (snd out) = [EvRemove "/tmp/whisper_input_0123456789abcdef0.wav"].
Proof.
  apply (zero_segment_length_raises calm_env zero_segments "/tmp/in.wav"
           (one_file "/tmp/in.wav" three_parts)
           "/tmp/whisper_input_0123456789abcdef0.wav" 2500);
    vm_compute; reflexivity.
Defined.

(** X12: with a negative [SEG_LEN_SECONDS] a recording longer than the
    threshold is not transcribed at all: no chunk is exported, the model is
    never called, and [transcribe_file] returns a header that reports 0
    chunks, followed by an empty body. *)
Theorem negative_segment_length_transcribes_nothing
    (env : Env) (cfg : Config) (in_path : string) (w : World)
    (wav : string) (ms : Z) (w1 : World) :
  SEG_LEN_SECONDS cfg < 0 ->
  ensure_wav_copy env in_path w = (Ok (wav, ms), w1) ->
  1000 * CHUNK_THRESHOLD_S cfg < ms ->
  let out := transcribe_file env cfg in_path w in
  fst out = Ok (chunked_summary 0 ms +:+ LF +:+ LF) /\
  since w1 (snd out) = [EvRemove wav].
Proof.
  intros Hseg Hens Hgt out.
  destruct (ensure_wav_copy_ok env in_path w wav ms w1 Hens)
    as (a & _ & Hlen & Hf & Htruthy & _).
  subst ms.
  assert (Py.range0 (audio_len a) (SEG_LEN_SECONDS cfg * 1000) = Some []) as Hrange.
  { unfold Py.range0.
    destruct (Z.eqb_spec (SEG_LEN_SECONDS cfg * 1000) 0); [lia|].
    destruct (Z.ltb_spec (SEG_LEN_SECONDS cfg * 1000) 0); [|lia].
    replace (Z.to_nat (- audio_len a)) with 0%nat by (unfold audio_len; lia).
    done. }
  assert (transcribe_body env cfg wav (audio_len a) w1
          = (Ok (chunked_summary 0 (audio_len a) +:+ LF +:+ LF),
             with_n_time (S (n_time w1)) w1)) as Hbody.
  { unfold transcribe_body, longer_than.
    rewrite (proj2 (Z.ltb_lt _ _) Hgt).
    unfold bind at 1. rewrite (split_reaches_range env cfg wav a w1 Hf).
    unfold bind at 1, segment_starts. rewrite Hrange. simpl.
    unfold bind. reflexivity. }
  unfold out. rewrite (transcribe_file_run env cfg _ _ _ _ _ Hens), Hbody.
  simpl. split; [done|].
  apply since_app.
  by rewrite (remove_working_file_present env wav _ (Wav a) Htruthy).
Qed.

Lemma negative_segment_length_transcribes_nothing_witness :
  let w := one_file "/tmp/in.wav" three_parts in
  let w1 := snd (ensure_wav_copy calm_env "/tmp/in.wav" w) in
  let out := transcribe_file calm_env negative_segments "/tmp/in.wav" w in
  fst out = Ok (chunked_summary 0 2500 +:+ LF +:+ LF) /\
  since w1 (snd out) = [EvRemove "/tmp/whisper_input_0123456789abcdef0.wav"].
Proof.
  apply (negative_segment_length_transcribes_nothing calm_env negative_segments
           "/tmp/in.wav" (one_file "/tmp/in.wav" three_parts)
           "/tmp/whisper_input_0123456789abcdef0.wav" 2500);
    vm_compute; reflexivity.
Defined.

(** ** The four ways a request ends *)

Section Requests.

Context (env : Env) (cfg : Config).

Lemma submit_invalid w e f b :
  Py.contains "@" e = false ->
  submit env cfg e f b w = (Ok (JSONError 400 "Invalid email"), w).
Proof. intros Hat. unfold submit. by rewrite Hat. Qed.

Lemma submit_save_fails w e f b err :
  Py.contains "@" e = true ->
  open_err env (dest_of env w f) = Some err ->
  submit env cfg e f b w
  = (Raise err, emit (EvWrite (dest_of env w f) b) (with_n_uuid (S (n_uuid w)) w)).
Proof.
  intros Hat Ho. unfold submit. rewrite Hat. simpl.
  unfold bind at 1. simpl. unfold bind at 1, write_file.
  fold (dest_of env w f). simpl. by rewrite Ho.
Qed.

Lemma submit_too_long w e f b a :
  Py.contains "@" e = true ->
  open_err env (dest_of env w f) = None ->
  decode env b = Ok a ->
  1000 * MAX_UPLOAD_S cfg < audio_len a ->
  submit env cfg e f b w
  = (Ok (JSONError 400 (too_long_message cfg (audio_len a))),
     snd (try_except (os_remove env (dest_of env w f)) (fun _ => ret tt)
            (saved env w f b))).
Proof.
  intros Hat Ho Hd Hlen. rewrite submit_after_save by done.
  unfold bind at 1, duration_guard, try_except at 1, bind at 1, from_file.
  rewrite saved_read, Hd.
  unfold longer_than. rewrite (proj2 (Z.ltb_lt _ _) Hlen).
  unfold bind at 1.
  destruct (try_except (os_remove env (dest_of env w f)) (fun _ => ret tt)
              (saved env w f b)) as [[[]|err] w'] eqn:Hrm; [done|].
  exfalso. revert Hrm. unfold try_except.
  by destruct (os_remove env (dest_of env w f) (saved env w f b)) as [[|] ?].
Qed.

Lemma duration_guard_passes dest w :
  (forall a, read_audio env w dest = Ok a -> audio_len a <= 1000 * MAX_UPLOAD_S cfg) ->
  duration_guard env cfg dest w = (Ok None, w).
Proof.
  intros Hd. unfold duration_guard, try_except, bind, from_file.
  destruct (read_audio env w dest) as [a|err]; [|done].
  unfold longer_than. specialize (Hd a eq_refl).
  by rewrite (proj2 (Z.ltb_ge _ _) Hd).
Qed.

Lemma submit_accepts w e f b :
  Py.contains "@" e = true ->
  open_err env (dest_of env w f) = None ->
  (forall a, decode env b = Ok a -> audio_len a <= 1000 * MAX_UPLOAD_S cfg) ->
  let id := Py.prefix 12 (uuid4_hex env (S (n_uuid w))) in
  let job := {| job_id := id; email := e; audio_path := dest_of env w f;
                filename := f; submitted_at := time_time env (n_time w) |} in
  exists w',
    submit env cfg e f b w
    = (Ok (Accepted ("Job accepted (ID: " +:+ id
                     +:+ "). Check email (or fallback file).") id), w') /\
    job_q w' = job_q w ++ [job] /\ worker_alive w' = true /\
    files w' = <[dest_of env w f := Raw b]> (files w) /\
    trace w' = trace w ++ [EvWrite (dest_of env w f) b; EvPut job].
Proof.
  intros Hat Ho Hd id job. rewrite submit_after_save by done.
  unfold bind at 1. rewrite duration_guard_passes
    by (intros a; rewrite saved_read; apply Hd).
  cbv beta iota delta [bind ret uuid4 now q_put start_worker].
  fold id. fold job.
  eexists. split; [reflexivity|].
  unfold saved. cbn -[Py.prefix String.append dest_of].
  destruct (worker_alive w) eqn:Ha; cbn -[Py.prefix String.append dest_of];
    rewrite ?Ha, <- app_assoc; repeat split.
Qed.

(** The world after the removal of a too long upload. *)
Lemma rejected_upload_removed w f b :
  let dest := dest_of env w f in
  let w' := snd (try_except (os_remove env dest) (fun _ => ret tt)
                   (saved env w f b)) in
  job_q w' = job_q w /\ worker_alive w' = worker_alive w /\
  trace w' = trace w ++ [EvWrite dest b; EvRemove dest] /\
  (remove_err env dest = None -> files w' = delete dest (files w)).
Proof.
  intros dest w'. unfold w', try_except, os_remove, saved. fold dest. simpl.
  rewrite lookup_insert_eq.
  destruct (remove_err env dest); simpl;
    rewrite <- app_assoc; repeat split; try done.
  intros _. by rewrite delete_insert_eq.
Qed.

End Requests.

Section RequestOutcome.

Context (env : Env) (cfg : Config).

(** A request ends in one of four ways: the address is refused; saving the
    upload raises; the upload is too long; the job is accepted. *)
Lemma submit_outcome w e f b :
  let out := submit env cfg e f b w in
  let dest := dest_of env w f in
  (Py.contains "@" e = false /\
   out = (Ok (JSONError 400 "Invalid email"), w)) \/
  (Py.contains "@" e = true /\
   exists err, open_err env dest = Some err /\
     out = (Raise err, emit (EvWrite dest b) (with_n_uuid (S (n_uuid w)) w))) \/
  (Py.contains "@" e = true /\ open_err env dest = None /\
   exists a, decode env b = Ok a /\ 1000 * MAX_UPLOAD_S cfg < audio_len a /\
     out = (Ok (JSONError 400 (too_long_message cfg (audio_len a))),
            snd (try_except (os_remove env dest) (fun _ => ret tt)
                   (saved env w f b)))) \/
  (Py.contains "@" e = true /\ open_err env dest = None /\
   (forall a, decode env b = Ok a -> audio_len a <= 1000 * MAX_UPLOAD_S cfg) /\
   exists w' message id t,
     out = (Ok (Accepted message id), w') /\
     job_q w' = job_q w ++ [ {| job_id := id; email := e; audio_path := dest;
                                filename := f; submitted_at := t |} ] /\
     worker_alive w' = true /\
     files w' = <[dest := Raw b]> (files w)).
Proof.
  intros out dest. unfold out.
  destruct (Py.contains "@" e) eqn:Hat;
    [|left; split; [done|]; by apply submit_invalid].
  right.
  destruct (open_err env dest) as [err|] eqn:Ho.
  { left. split; [done|]. exists err. split; [done|]. by apply submit_save_fails. }
  right.
  destruct (decode env b) as [a|err] eqn:Hd.
  - destruct (Z.lt_ge_cases (1000 * MAX_UPLOAD_S cfg) (audio_len a)) as [Hlong|Hshort].
    + left. split; [done|]. split; [done|]. exists a.
      split; [done|]. split; [done|]. by apply submit_too_long.
    + right. split; [done|]. split; [done|].
      assert (forall a0, Ok a = Ok a0 -> audio_len a0 <= 1000 * MAX_UPLOAD_S cfg)
        as Hall by (by intros a0 [= <-]).
      split; [done|].
      destruct (submit_accepts env cfg w e f b Hat Ho) as (w' & Hrun & Hq & Ha & Hf & _).
      { by rewrite Hd. }
      eexists w', _, _, _. split; [exact Hrun|]. done.
  - right. split; [done|]. split; [done|]. split; [done|].
    destruct (submit_accepts env cfg w e f b Hat Ho) as (w' & Hrun & Hq & Ha & Hf & _).
    { by rewrite Hd. }
    eexists w', _, _, _. split; [exact Hrun|]. done.
Qed.

End RequestOutcome.


(** X14: a request puts a job on the queue and starts the worker exactly
    when it is accepted.  The accepted job carries the returned id, the
    address and file name of the request and the path of the saved upload,
    which holds the uploaded bytes; a request that is rejected, or whose
    save raises, leaves the queue and the worker as they were. *)
Theorem request_enqueues_iff_accepted
    (env : Env) (cfg : Config) (w : World) (e f b : string) :
  let out := submit env cfg e f b w in
  match fst out with
  | Ok (Accepted _ id) =>
      exists t,
        job_q (snd out) =
          job_q w ++ [ {| job_id := id; email := e;
                          audio_path := dest_of env w f;
                          filename := f; submitted_at := t |} ] /\
        worker_alive (snd out) = true /\
        files (snd out) !! dest_of env w f = Some (Raw b)
  | _ => job_q (snd out) = job_q w /\ worker_alive (snd out) = worker_alive w
  end.
Proof.
  intros out. unfold out.
  destruct (submit_outcome env cfg w e f b)
    as [(Hat & ->)|[(Hat & err' & Ho & ->)|[(Hat & Ho & a & _ & _ & ->)
       |(Hat & Ho & _ & w' & m & id & t & -> & Hq & Ha & Hf)]]]; simpl.
  - done.
  - done.
  - destruct (rejected_upload_removed env w f b) as (Hq & Ha & _). done.
  - exists t. split; [done|]. split; [done|].
    rewrite Hf. apply lookup_insert_eq.
Qed.

(** X15: an upload that was saved is accepted exactly when it does not
    decode to more than [MAX_UPLOAD_S] seconds; a recording of exactly
    [MAX_UPLOAD_S] seconds is accepted. *)
Theorem saved_upload_accepted_iff_not_too_long
    (env : Env) (cfg : Config) (w : World) (e f b : string) :
  Py.contains "@" e = true ->
  open_err env (dest_of env w f) = None ->
  (exists message id, fst (submit env cfg e f b w) = Ok (Accepted message id)) <->
  (forall a, decode env b = Ok a -> audio_len a <= 1000 * MAX_UPLOAD_S cfg).
Proof.
  intros Hat Ho.
  destruct (submit_outcome env cfg w e f b)
    as [(Hat' & _)|[(_ & err' & Ho' & _)|[(_ & _ & a & Hd & Hlong & ->)
       |(_ & _ & Hall & w' & m & id & t & -> & _)]]]; simpl.
  - congruence.
  - congruence.
  - split; [intros (? & ? & [=])|]. intros Hall. specialize (Hall a Hd). lia.
  - split; [done|]. intros _. by eexists _, _.
Qed.

Lemma saved_upload_accepted_iff_not_too_long_witness :
  (exists message id,
      fst (submit calm_env short_segments "a@b.c" "clip.mp3" ninety_bytes (boot ∅))
      = Ok (Accepted message id)) <->
  (forall a, decode calm_env ninety_bytes = Ok a ->
             audio_len a <= 1000 * MAX_UPLOAD_S short_segments).
Proof.
  apply (saved_upload_accepted_iff_not_too_long calm_env short_segments (boot ∅)
           "a@b.c" "clip.mp3" ninety_bytes);
    reflexivity.
Defined.

(** X16: a rejected request leaves no upload behind: when the removal does
    not fail, every file of the temporary directory after the rejection was
    there before, with the same content. *)
Theorem rejected_request_leaves_no_upload
    (env : Env) (cfg : Config) (w : World) (e f b : string)
    (status : Z) (error : string) :
  fst (submit env cfg e f b w) = Ok (JSONError status error) ->
  remove_err env (dest_of env w f) = None ->
  files (snd (submit env cfg e f b w)) ⊆ files w.
Proof.
  intros Hrej Hrm. revert Hrej.
  destruct (submit_outcome env cfg w e f b)
    as [(Hat & ->)|[(Hat & err' & Ho & ->)|[(Hat & Ho & a & _ & _ & ->)
       |(Hat & Ho & _ & w' & m & id & t & -> & _)]]]; simpl;
    try discriminate.
  - done.
  - intros _.
    destruct (rejected_upload_removed env w f b) as (_ & _ & _ & Hf).
    rewrite (Hf Hrm). apply delete_subseteq.
Qed.

Lemma rejected_request_leaves_no_upload_witness :
  files (snd (submit calm_env short_segments "a@b.c" "clip.mp3"
                (ninety_bytes +:+ ninety_bytes +:+ ninety_bytes +:+ ninety_bytes
                 +:+ ninety_bytes +:+ ninety_bytes +:+ ninety_bytes) (boot ∅)))
  ⊆ files (boot ∅).
Proof.
  apply (rejected_request_leaves_no_upload calm_env short_segments (boot ∅)
           "a@b.c" "clip.mp3"
           (ninety_bytes +:+ ninety_bytes +:+ ninety_bytes +:+ ninety_bytes
            +:+ ninety_bytes +:+ ninety_bytes +:+ ninety_bytes)
           400 "Uploaded audio too long (630.0s). Max 600s.");
    [vm_compute; reflexivity | reflexivity].
Defined.

(** ** The name of the saved upload *)

Lemma contains_append (c : ascii) (s1 s2 : string) :
  Py.contains c (s1 +:+ s2) = Py.contains c s1 || Py.contains c s2.
Proof.
  induction s1 as [|d t IH]; simpl; [done|].
  destruct (Ascii.eqb c d); [done | exact IH].
Qed.

Lemma last_component_no_slash (s acc : string) :
  (Py.contains "/" s = false -> Py.contains "/" acc = false) ->
  Py.contains "/" (Py.last_component acc s) = false.
Proof.
  revert acc. induction s as [|c t IH]; intros acc Hacc; cbn [Py.last_component].
  - by apply Hacc.
  - destruct (Ascii.eqb_spec c "/") as [->|Hc]; [by apply IH|].
    apply IH. intros Ht. apply Hacc. cbn [Py.contains].
    assert (Ascii.eqb "/" c = false) as -> by (apply Ascii.eqb_neq; congruence).
    exact Ht.
Qed.

Lemma skip_dots_suffix (s : string) :
  exists pre, s = pre +:+ Py.skip_dots s.
Proof.
  induction s as [|c t [pre IH]]; [by exists ""|].
  destruct (Ascii.eqb_spec c ".") as [->|Hc].
  - exists (String "." pre).
    change (Py.skip_dots (String "." t)) with (Py.skip_dots t).
    change (String "." pre +:+ Py.skip_dots t)
      with (String "." (pre +:+ Py.skip_dots t)).
    by rewrite <- IH.
  - exists "". simpl.
    destruct c as [[] [] [] [] [] [] [] []]; try reflexivity. by destruct Hc.
Qed.

Lemma ext_after_dot_suffix (s e : string) :
  Py.ext_after_dot s = Some e ->
  exists pre rest, s = pre +:+ e /\ e = String "." rest.
Proof.
  revert e. induction s as [|c t IH]; intros e; simpl; [discriminate|].
  destruct (Py.ext_after_dot t) as [e'|].
  - intros [= <-]. destruct (IH e' eq_refl) as (pre & rest & -> & ->).
    by exists (String c pre), rest.
  - destruct (Ascii.eqb_spec c ".") as [->|Hc]; [|discriminate].
    intros [= <-]. by exists "", t.
Qed.

Lemma splitext_ext_shape (p : string) :
  Py.contains "/" (Py.splitext_ext p) = false /\
  (Py.splitext_ext p = "" \/ exists rest, Py.splitext_ext p = String "." rest).
Proof.
  unfold Py.splitext_ext.
  pose proof (last_component_no_slash p p (fun H => H)) as Hlast.
  destruct (skip_dots_suffix (Py.last_component p p)) as [pre Hskip].
  rewrite Hskip, contains_append in Hlast.
  apply orb_false_elim in Hlast as [_ Hdots].
  destruct (Py.ext_after_dot _) as [e|] eqn:Hext; [|by split; [|left]].
  destruct (ext_after_dot_suffix _ _ Hext) as (pre' & rest & Heq & ->).
  rewrite Heq, contains_append in Hdots.
  apply orb_false_elim in Hdots as [_ He].
  split; [done|]. right. by exists rest.
Qed.



(** ** One attempt per job *)

Section OneAttempt.

Context (env : Env) (cfg : Config).

Lemma process_job_sessions j w :
  exists evs,
    trace (snd (process_job env cfg j w)) = trace w ++ evs /\
    (length (sent evs) <= 1)%nat /\ (length (written evs) <= 1)%nat.
Proof.
  pose proof (audio_transcribe_file env cfg (audio_path j) w) as (evs_t & Ht & Hf).
  unfold process_job, bind at 1, try_except at 1.
  destruct (transcribe_file env cfg (audio_path j) w) as [r w1].
  simpl in Ht.
  set (t := mailed_transcript env r).
  assert ((let (r0, w') := (r, w1) in
           match r0 with
           | Ok a => (Ok a, w')
           | Raise e => ret (transcription_failed env e) w'
           end) = (Ok t, w1)) as -> by (by destruct r).
  unfold bind at 1.
  set (atts := Some [ {| att_filename := "transcript_" +:+ job_id j +:+ ".txt";
                         att_bytes := t; att_mime := "text/plain" |} ]).
  set (body := email_body (job_id j) (filename j) t).
  pose proof (build_message_unchanged env cfg (email j)
                (email_subject (job_id j)) body atts w1) as Hsame.
  destruct (build_message env cfg (email j) (email_subject (job_id j)) body atts w1)
    as [[msg|e] w1'] eqn:Hb; unfold unchanged in Hsame; simpl in Hsame; subst w1'.
  - destruct (send_email_run env cfg _ _ _ _
                (Some (fallback_path_of env (job_id j))) _ _ Hb)
      as (r2 & w2 & -> & Ht2).
    rewrite fallback_path_given in Ht2.
    destruct (guarded_remove_run env (audio_path j) w2)
      as (w3 & evs_c & -> & Ht3 & Hcase & _).
    simpl. eexists. split; [by rewrite Ht3, Ht2, Ht, <- !app_assoc|].
    rewrite !sent_app, !written_app, (sent_audio evs_t Hf), (written_audio evs_t Hf).
    destruct Hcase as [-> | ->];
      destruct (smtp_err env msg); simpl; lia.
  - assert (send_email_with_fallback env cfg (email j) (email_subject (job_id j))
              body atts (Some (fallback_path_of env (job_id j))) w1
            = (Raise e, w1)) as ->.
    { unfold send_email_with_fallback, bind at 1. by rewrite Hb. }
    simpl. exists evs_t. split; [done|].
    rewrite (sent_audio evs_t Hf), (written_audio evs_t Hf). simpl. lia.
Qed.

End OneAttempt.

(** X18: a job is processed once: whatever fails, processing it opens at
    most one SMTP session and writes at most one file, and it leaves the
    queue as it is: no job is put back for another try. *)
Theorem job_is_processed_once
    (env : Env) (cfg : Config) (j : Job) (w : World) :
  let out := process_job env cfg j w in
  job_q (snd out) = job_q w /\
  enqueued (since w (snd out)) = [] /\
  (length (sent (since w (snd out))) <= 1)%nat /\
  (length (written (since w (snd out))) <= 1)%nat.
Proof.
  intros out.
  destruct (quiet_process_job env cfg j w) as (Hq & _ & evs & Ht & Hquiet).
  destruct (process_job_sessions env cfg j w) as (evs' & Ht' & Hsent & Hwritten).
  fold out in Hq, Ht, Ht'.
  split; [done|].
  rewrite (since_app _ _ _ Ht), (enqueued_quiet evs Hquiet).
  split; [done|].
  rewrite <- (since_app _ _ _ Ht), (since_app _ _ _ Ht'). done.
Qed.

(** ** The names of the chunk files *)

Lemma string_length_app (s1 s2 : string) :
  String.length (s1 +:+ s2) = (String.length s1 + String.length s2)%nat.
Proof. induction s1 as [|c t IH]; simpl; [done|]. by rewrite IH. Qed.

Lemma string_app_inv_tail (x y s : string) : x +:+ s = y +:+ s -> x = y.
Proof.
  revert y. induction x as [|c x IH]; intros [|d y] H;
    change ("" +:+ s) with s in *;
    change (String ?a ?b +:+ s) with (String a (b +:+ s)) in *.
  - done.
  - apply (f_equal String.length) in H. simpl in H.
    rewrite string_length_app in H. lia.
  - apply (f_equal String.length) in H. simpl in H.
    rewrite string_length_app in H. lia.
  - injection H as -> H. f_equal. by apply IH.
Qed.

Lemma after_last_none (c : ascii) (acc s : string) :
  Py.contains c s = false -> after_last c acc s = acc.
Proof.
  induction s as [|d t IH]; simpl; [done|].
  rewrite Ascii.eqb_sym.
  destruct (Ascii.eqb d c); [discriminate|]. exact IH.
Qed.

Lemma after_last_app (c : ascii) (acc x d : string) :
  Py.contains c d = false ->
  after_last c acc (x +:+ String c d) = d.
Proof.
  intros Hd. revert acc. induction x as [|e x IH]; intros acc; simpl.
  - rewrite Ascii.eqb_refl. by apply after_last_none.
  - destruct (Ascii.eqb e c); apply IH.
Qed.

Lemma pretty_N_char_not (c : ascii) (x : N) :
  Py.contains c "0123456789" = false -> Ascii.eqb c (pretty_N_char x) = false.
Proof.
  intros H. simpl in H.
  repeat match type of H with
         | (if ?b then _ else _) = false => destruct b eqn:?; [discriminate|]
         end.
  unfold pretty_N_char. by repeat case_match.
Qed.

Lemma pretty_N_go_contains (c : ascii) (x : N) (s : string) :
  Py.contains c "0123456789" = false ->
  Py.contains c s = false -> Py.contains c (pretty_N_go x s) = false.
Proof.
  intros Hc. revert s. induction (N.lt_wf_0 x) as [x _ IH]; intros s Hs.
  assert (x = 0 \/ 0 < x)%N as [->|Hx] by lia.
  - by rewrite pretty_N_go_0.
  - rewrite pretty_N_go_step by done. apply IH.
    + by apply N.div_lt.
    + simpl. by rewrite pretty_N_char_not.
Qed.

Lemma pretty_nat_contains (c : ascii) (i : nat) :
  Py.contains c "0123456789" = false -> Py.contains c (pretty i) = false.
Proof.
  intros Hc. unfold pretty, pretty_nat, pretty, pretty_N.
  case_decide.
  - simpl. simpl in Hc. by destruct (Ascii.eqb c "0").
  - by apply pretty_N_go_contains.
Qed.

(** Two names that end in "_<i>.wav" and "_<j>.wav" differ when the
    indices do. *)
Lemma indexed_name_inj (x y : string) (i j : nat) :
  x +:+ "_" +:+ pretty i +:+ ".wav" = y +:+ "_" +:+ pretty j +:+ ".wav" -> i = j.
Proof.
  intros H.
  assert (forall k : nat, Py.contains "_" (pretty k +:+ ".wav") = false) as Hk.
  { intros k. rewrite contains_append, pretty_nat_contains; done. }
  apply (f_equal (after_last "_" "")) in H.
  change (?a +:+ "_" +:+ ?b) with (a +:+ String "_" b) in H.
  rewrite !after_last_app in H by apply Hk.
  apply string_app_inv_tail in H. by apply (inj pretty).
Qed.

Lemma tmp_path_prefix (env : Env) (c : ascii) (name : string) :
  c <> "/"%char -> tmp_path env (String c name) = tmp_prefix env +:+ String c name.
Proof.
  intros Hc. unfold tmp_path, tmp_prefix, Py.path_join.
  assert (forall A (x y : A), match String c name with
                              | String "/" _ => x | _ => y end = y) as ->.
  { intros A x y. destruct c as [[] [] [] [] [] [] [] []]; try done. }
  destruct (tmpdir env) as [|d t]; [done|].
  destruct (String.eqb _ _); [done|]. by rewrite string_app_assoc.
Qed.

Lemma chunk_named_inj (env : Env) (p : string) (i j : nat) :
  chunk_named env p i -> chunk_named env p j -> i = j.
Proof.
  intros [m1 H1] [m2 H2]. rewrite H1 in H2.
  apply String.app_inj in H2.
  apply (indexed_name_inj ("whisper_chunk_" +:+ m1) ("whisper_chunk_" +:+ m2)).
  rewrite !string_app_assoc. exact H2.
Qed.

Lemma chunk_not_input (env : Env) (u : string) (i : nat) :
  ~ chunk_named env (tmp_path env ("whisper_input_" +:+ u +:+ ".wav")) i.
Proof.
  intros [mid H].
  change ("whisper_input_" +:+ u +:+ ".wav")
    with (String "w" ("hisper_input_" +:+ u +:+ ".wav")) in H.
  rewrite tmp_path_prefix in H by done.
  apply String.app_inj in H. discriminate.
Qed.

Section Named.

Context (env : Env) (cfg : Config).

Hypothesis exports_succeed : forall p, export_err env p = None.

Lemma export_segment_named a d l ts i s w :
  exists path w',
    export_segment env a d l ts (i, s) w = (Ok path, w') /\
    chunk_named env path i /\
    files w' = <[path := Wav (audio_slice a s (Z.min (s + l) d))]> (files w) /\
    trace w' = trace w ++ [EvExport path (audio_slice a s (Z.min (s + l) d))].
Proof.
  unfold export_segment, bind, uuid4, export.
  rewrite exports_succeed. unfold ret.
  eexists _, _. split; [reflexivity|]. split; [|done].
  exists (pretty ts +:+ "_" +:+ uuid4_hex env (n_uuid w)).
  change ("whisper_chunk_" +:+ ?x) with (String "w" ("hisper_chunk_" +:+ x)).
  rewrite tmp_path_prefix by done.
  change (String "w" ("hisper_chunk_" +:+ ?x)) with ("whisper_chunk_" +:+ x).
  by rewrite !string_app_assoc.
Qed.

Lemma export_loop_named a d l ts (entries : list (nat * Z)) w :
  NoDup entries.*1 ->
  exists paths w',
    for_each (export_segment env a d l ts) entries w = (Ok paths, w') /\
    Forall2 (fun p e => chunk_named env p e.1) paths entries /\
    NoDup paths /\
    (forall k p s, paths !! k = Some p -> entries.*2 !! k = Some s ->
       files w' !! p = Some (Wav (audio_slice a s (Z.min (s + l) d)))) /\
    (forall q, q ∉ paths -> files w' !! q = files w !! q) /\
    trace w' = trace w ++
      zip_with EvExport paths
        ((fun s => audio_slice a s (Z.min (s + l) d)) <$> entries.*2).
Proof.
  revert w. induction entries as [|[i s] t IH]; intros w Hnd; cbn [for_each].
  - exists [], w. simpl. rewrite app_nil_r.
    repeat split; auto using NoDup_nil_2. intros k p s0 Hk. done.
  - rewrite fmap_cons in Hnd. apply NoDup_cons in Hnd as [Hi Hnd]. cbn [fst] in Hi.
    destruct (export_segment_named a d l ts i s w)
      as (path & w1 & Hrun & Hname & Hf1 & Ht).
    destruct (IH w1 Hnd) as (paths & w2 & Hloop & Hnames & Hndp & Hin & Hout & Ht2).
    assert (path ∉ paths) as Hfresh.
    { intros Hp. apply list_elem_of_lookup in Hp as [k Hk].
      destruct (Forall2_lookup_l _ _ _ _ _ Hnames Hk) as ([j s'] & Hj & Hnamed).
      simpl in Hnamed.
      rewrite (chunk_named_inj env path i j Hname Hnamed) in Hi.
      apply Hi. apply list_elem_of_lookup. exists k.
      by rewrite list_lookup_fmap, Hj. }
    exists (path :: paths), w2. unfold bind at 1. rewrite Hrun.
    unfold bind at 1. rewrite Hloop. simpl. split; [done|].
    split; [by constructor|]. split; [by constructor|].
    split; [|split].
    + intros [|k] p s0 Hp Hs; simpl in *.
      * injection Hp as <-. injection Hs as <-.
        rewrite Hout, Hf1 by done. apply lookup_insert_eq.
      * by eapply Hin.
    + intros q [Hq Hqs]%not_elem_of_cons.
      rewrite Hout, Hf1 by done. by apply lookup_insert_ne.
    + rewrite Ht2, Ht, <- app_assoc. done.
Qed.

(** A turn of the chunk loop on a chunk file that is there: the model is
    given what the file holds, and no other file is touched. *)
Lemma transcribe_one_reads idx p c w :
  files w !! p = Some (Wav c) ->
  exists w',
    transcribe_one env (idx, p) w
      = (Ok (chunk_text idx (model_transcribe env p c)), w') /\
    trace w' = trace w ++ [EvInfer p (model_transcribe env p c); EvRemove p] /\
    (forall q, q <> p -> files w' !! q = files w !! q).
Proof.
  intros Hf.
  unfold transcribe_one, bind at 1, try_except at 1, transcribe_chunk,
    bind at 1, whisper, read_audio.
  rewrite Hf. set (r := model_transcribe env p c).
  assert (forall w0 (t0 : string),
            files w0 = files w -> trace w0 = trace w ++ [EvInfer p r] ->
            exists w',
              (try_except (os_remove env p) (fun _ => ret tt);; ret t0) w0
                = (Ok t0, w') /\
              trace w' = trace w ++ [EvInfer p r; EvRemove p] /\
              (forall q, q <> p -> files w' !! q = files w !! q)) as Hrm.
  { intros w0 t0 Hfw Ht. unfold bind, try_except, os_remove.
    rewrite Hfw, Hf.
    destruct (remove_err env p); simpl;
      eexists; (split; [reflexivity|]); simpl;
      rewrite Ht, <- app_assoc, ?Hfw; (split; [done|]); [done|].
    intros q Hq. by apply lookup_delete_ne. }
  destruct r as [t|e]; simpl; apply Hrm; done.
Qed.

Lemma chunk_loop_reads (entries : list (nat * string)) (chunks : list Audio) w :
  NoDup entries.*2 ->
  length chunks = length entries ->
  (forall k p c, entries.*2 !! k = Some p -> chunks !! k = Some c ->
     files w !! p = Some (Wav c)) ->
  exists w',
    for_each (transcribe_one env) entries w
      = (Ok (zip_with chunk_text entries.*1 (model_on env entries.*2 chunks)), w') /\
    trace w' = trace w ++
      chunk_events entries.*2 (model_on env entries.*2 chunks) /\
    (forall q, q ∉ entries.*2 -> files w' !! q = files w !! q).
Proof.
  revert chunks w.
  induction entries as [|[idx p] t IH]; intros chunks w Hnd Hlen Hfiles;
    cbn [for_each].
  - exists w. simpl. by rewrite app_nil_r.
  - destruct chunks as [|c cs]; [discriminate|].
    rewrite fmap_cons in Hnd. apply NoDup_cons in Hnd as [Hp Hnd]. cbn [snd] in Hp.
    destruct (transcribe_one_reads idx p c w) as (w1 & Hrun & Ht & Hothers).
    { by apply (Hfiles 0%nat). }
    destruct (IH cs w1 Hnd) as (w2 & Hloop & Ht2 & Hout).
    { simpl in Hlen. lia. }
    { intros k q c' Hq Hc'. rewrite Hothers.
      - by apply (Hfiles (S k)).
      - intros ->. apply Hp. by eapply list_elem_of_lookup_2. }
    exists w2. unfold bind at 1. rewrite Hrun.
    unfold bind at 1. rewrite Hloop. simpl. split; [done|]. split.
    + rewrite Ht2, Ht. unfold chunk_events. simpl. by rewrite <- app_assoc.
    + intros q [Hq Hqs]%not_elem_of_cons. rewrite Hout, Hothers; done.
Qed.

End Named.

(** ** The chunked branch, exactly *)

Lemma filter_all_inv {A} (P : A -> Prop) `{!forall x, Decision (P x)} (l : list A) :
  filter P l = l -> Forall P l.
Proof.
  intros Hfl. apply Forall_forall. intros x Hx.
  rewrite <- Hfl in Hx. by apply list_elem_of_filter in Hx as [? _].
Qed.

Lemma chunk_events_model (env : Env) (paths : list string) (chunks : list Audio) :
  chunk_events paths (model_on env paths chunks) =
  mjoin (zip_with (fun p c => [EvInfer p (model_transcribe env p c); EvRemove p])
           paths chunks).
Proof.
  unfold chunk_events, model_on. revert chunks.
  induction paths as [|p t IH]; intros [|c cs]; simpl; try done.
  by rewrite IH.
Qed.

Lemma model_on_lookup (env : Env) (paths : list string) (chunks : list Audio)
    (i : nat) (p : string) (c : Audio) :
  paths !! i = Some p -> chunks !! i = Some c ->
  model_on env paths chunks !! i = Some (model_transcribe env p c).
Proof.
  intros Hp Hc. unfold model_on. by rewrite lookup_zip_with, Hp, Hc.
Qed.

Section Exact.

Context (env : Env) (cfg : Config).

Hypothesis exports_succeed : forall p, export_err env p = None.

Lemma ensure_wav_copy_name in_path w wav ms w1 :
  ensure_wav_copy env in_path w = (Ok (wav, ms), w1) ->
  exists u, wav = tmp_path env ("whisper_input_" +:+ u +:+ ".wav").
Proof.
  unfold ensure_wav_copy, bind, uuid4, from_file, export.
  change (read_audio env (with_n_uuid (S (n_uuid w)) w) in_path)
    with (read_audio env w in_path).
  destruct (read_audio env w in_path) as [a|e]; [|discriminate].
  destruct (export_err env _); [discriminate|].
  unfold ret. intros [= <- _ _]. by eexists.
Qed.

(** The long file, exactly: the windows are exported to files with
    different names; the model is then given each file in turn, and the
    file still holds the window that was exported to it. *)
Lemma transcribe_body_chunked_exact wav a w :
  0 < SEG_LEN_SECONDS cfg ->
  files w !! wav = Some (Wav a) ->
  (forall i, ~ chunk_named env wav i) ->
  longer_than (audio_len a) (CHUNK_THRESHOLD_S cfg) = true ->
  let l := SEG_LEN_SECONDS cfg * 1000 in
  let starts := (fun k => k * l) <$> seqZ 0 ((audio_len a + l - 1) / l) in
  let chunks := window a l <$> starts in
  exists paths w',
    length paths = length starts /\ NoDup paths /\
    transcribe_body env cfg wav (audio_len a) w =
      (Ok (chunked_summary (length starts) (audio_len a) +:+ LF +:+ LF +:+
           Py.join (LF +:+ LF)
             (filter (fun p => Py.truthy p = true)
                (zip_with chunk_text (seq 1 (length starts))
                   (model_on env paths chunks)))), w') /\
    trace w' = trace w ++ zip_with EvExport paths chunks
                       ++ chunk_events paths (model_on env paths chunks) /\
    files w' !! wav = Some (Wav a).
Proof.
  intros Hseg Hf Hwav Hlong l starts chunks.
  unfold transcribe_body. rewrite Hlong.
  unfold split_audio_to_files, bind at 1 2, from_file, read_audio.
  rewrite Hf. unfold bind at 1, now. simpl.
  unfold bind at 1, segment_starts.
  rewrite range0_positive by (unfold audio_len; lia).
  fold l. fold starts. unfold ret at 1.
  set (w0 := with_n_time _ w).
  destruct (export_loop_named env exports_succeed a (audio_len a) l
              (time_time env (n_time w)) (Py.enumerate 0 starts) w0)
    as (paths & w1 & Hloop & Hnames & Hnd & Hin & Hout & Ht).
  { rewrite enumerate_fst. apply NoDup_seq. }
  rewrite Hloop.
  rewrite enumerate_snd in Hin, Ht.
  assert (length paths = length starts) as Hlen.
  { apply Forall2_length in Hnames. by rewrite enumerate_length in Hnames. }
  assert (wav ∉ paths) as Hfresh.
  { intros Hp. apply list_elem_of_lookup in Hp as [k Hk].
    destruct (Forall2_lookup_l _ _ _ _ _ Hnames Hk) as (e & _ & Hnamed).
    by apply (Hwav e.1). }
  destruct (chunk_loop_reads env (Py.enumerate 1 paths) chunks w1)
    as (w2 & Hloop2 & Ht2 & Hout2).
  { by rewrite enumerate_snd. }
  { unfold chunks. by rewrite length_fmap, enumerate_length. }
  { rewrite enumerate_snd. intros k p c Hp Hc.
    unfold chunks in Hc. rewrite list_lookup_fmap in Hc.
    destruct (starts !! k) as [s|] eqn:Hs; [|done].
    injection Hc as <-. by apply (Hin k p s). }
  rewrite enumerate_fst, enumerate_snd in Hloop2. rewrite enumerate_snd in Ht2, Hout2.
  exists paths, w2.
  split; [done|]. split; [done|].
  unfold bind at 1. rewrite Hloop2. unfold ret. rewrite Hlen.
  split; [done|]. split.
  - rewrite Ht2, Ht. subst w0. simpl. by rewrite <- app_assoc.
  - rewrite Hout2, Hout by done. exact Hf.
Qed.

(** The events of [transcribe_file] on a long file after the working copy
    is made, and what it returns. *)
Lemma transcribe_file_chunked_exact in_path w wav ms w1 :
  0 < SEG_LEN_SECONDS cfg ->
  ensure_wav_copy env in_path w = (Ok (wav, ms), w1) ->
  1000 * CHUNK_THRESHOLD_S cfg < ms ->
  let l := SEG_LEN_SECONDS cfg * 1000 in
  let n := Z.to_nat ((ms + l - 1) / l) in
  exists a paths,
    read_audio env w in_path = Ok a /\ audio_len a = ms /\
    length paths = n /\ NoDup paths /\
    let segments := window a l <$> ((fun k => k * l) <$> seqZ 0 ((ms + l - 1) / l)) in
    let outs := model_on env paths segments in
    fst (transcribe_file env cfg in_path w) =
      Ok (chunked_summary n ms +:+ LF +:+ LF +:+
          Py.join (LF +:+ LF)
            (filter (fun p => Py.truthy p = true)
               (zip_with chunk_text (seq 1 n) outs))) /\
    since w1 (snd (transcribe_file env cfg in_path w)) =
      zip_with EvExport paths segments ++ chunk_events paths outs
      ++ [EvRemove wav].
Proof.
  intros Hseg Hens Hgt l n.
  destruct (ensure_wav_copy_ok env in_path w wav ms w1 Hens)
    as (a & Hread & Hlen & Hf & Htruthy & _).
  destruct (ensure_wav_copy_name in_path w wav ms w1 Hens) as [u Hname].
  subst ms.
  destruct (transcribe_body_chunked_exact wav a w1 Hseg Hf)
    as (paths & w2 & Hlp & Hnd & Hrun & Ht & Hstill).
  { intros i. rewrite Hname. apply chunk_not_input. }
  { unfold longer_than. apply Z.ltb_lt. lia. }
  fold l in Hlp, Hrun, Ht.
  rewrite length_fmap, length_seqZ in Hlp, Hrun. fold n in Hlp, Hrun.
  destruct (remove_working_file_run env wav w2 Htruthy)
    as (w3 & evs & Hfin & Ht3 & Hcase & _).
  exists a, paths.
  split; [done|]. split; [done|]. split; [done|]. split; [done|].
  intros segments outs.
  rewrite (transcribe_file_run env cfg _ _ _ _ _ Hens), Hrun. simpl.
  split; [done|]. rewrite Hfin. simpl. apply since_app.
  destruct Hcase as [(_ & Hnone & _)|(-> & _)]; [congruence|].
  by rewrite Ht3, Ht, <- !app_assoc.
Qed.

End Exact.

(** C3 (as amended): in the chunked branch the model is given the segments
    of the recording one by one in temporal order, each from the file it
    was exported to, and the transcript is built from one position per
    segment, in that order: the position of a segment on which the model
    fails holds the marker with the segment's 1-based index, and the marker
    is always part of the body; the position of a segment on which it
    succeeds holds the stripped text.  The body is the blank-line join of
    the positions that are not empty, so that it holds all of them exactly
    when no real text is empty. *)
Theorem chunk_failure_keeps_its_place
    (env : Env) (cfg : Config) (in_path : string) (w : World)
    (wav : string) (ms : Z) (w1 : World) :
  0 < SEG_LEN_SECONDS cfg ->
  (forall p, export_err env p = None) ->
  ensure_wav_copy env in_path w = (Ok (wav, ms), w1) ->
  1000 * CHUNK_THRESHOLD_S cfg < ms ->
  let out := transcribe_file env cfg in_path w in
  let l := SEG_LEN_SECONDS cfg * 1000 in
  let n := Z.to_nat ((ms + l - 1) / l) in
  exists a paths,
    read_audio env w in_path = Ok a /\ length paths = n /\
    let segments := window a l <$> ((fun k => k * l) <$> seqZ 0 ((ms + l - 1) / l)) in
    let outs := inferred (since w1 (snd out)) in
    let parts := zip_with chunk_text (seq 1 n) outs in
    since w1 (snd out) =
      zip_with EvExport paths segments ++ chunk_events paths outs
      ++ [EvRemove wav] /\
    (forall i p, paths !! i = Some p ->
       segments !! i = Some (window a l (Z.of_nat i * l)) /\
       outs !! i = Some (model_transcribe env p (window a l (Z.of_nat i * l)))) /\
    length outs = n /\ length parts = n /\
    fst out = Ok (chunked_summary n ms +:+ LF +:+ LF +:+
                  Py.join (LF +:+ LF) (filter (fun p => Py.truthy p = true) parts)) /\
    (forall i e, outs !! i = Some (Raise e) ->
       parts !! i = Some (chunk_error (S i) e) /\
       chunk_error (S i) e ∈ filter (fun p => Py.truthy p = true) parts) /\
    (forall i t, outs !! i = Some (Ok t) -> parts !! i = Some (Py.strip t)) /\
    (filter (fun p => Py.truthy p = true) parts = parts <->
     Forall (fun r => forall t, r = Ok t -> Py.truthy (Py.strip t) = true) outs).
Proof.
  intros Hseg Hexp Hens Hgt out l n.
  destruct (transcribe_file_chunked_exact env cfg Hexp in_path w wav ms w1
              Hseg Hens Hgt)
    as (a & paths & Hread & Hlen & Hlp & Hnd & Hout & Hsince).
  fold l in Hlp, Hout, Hsince. fold n in Hlp, Hout. fold out in Hout, Hsince.
  exists a, paths. split; [done|]. split; [done|].
  intros segments outs parts.
  fold segments in Hout, Hsince.
  assert (length segments = n) as Hls.
  { unfold segments. by rewrite !length_fmap, length_seqZ. }
  assert (outs = model_on env paths segments) as Houts.
  { unfold outs. rewrite Hsince, !inferred_app, inferred_exports.
    rewrite inferred_chunk_events
      by (unfold model_on; rewrite length_zip_with; lia).
    simpl. by rewrite app_nil_r. }
  assert (length outs = n) as Hlo.
  { rewrite Houts. unfold model_on. rewrite length_zip_with. lia. }
  assert (parts = zip_with chunk_text (seq 1 (length outs)) outs) as Hparts.
  { unfold parts. by rewrite Hlo. }
  split; [by rewrite Houts|].
  split.
  { intros i p Hp.
    assert (i < n)%nat as Hi by (rewrite <- Hlp; by eapply lookup_lt_Some).
    assert (segments !! i = Some (window a l (Z.of_nat i * l))) as Hs.
    { unfold segments. rewrite !list_lookup_fmap, lookup_seqZ_lt by lia.
      simpl. repeat (f_equal; try lia). }
    split; [done|]. rewrite Houts. by apply model_on_lookup. }
  split; [done|].
  split; [unfold parts; rewrite length_zip_with, length_seq; lia|].
  split; [by rewrite Hout, <- Houts|].
  split.
  { intros i e Hi. pose proof (chunk_position outs i _ Hi) as Hp.
    rewrite <- Hparts in Hp. split; [exact Hp|].
    apply list_elem_of_filter. split; [apply chunk_error_truthy|].
    eapply list_elem_of_lookup_2. exact Hp. }
  split.
  { intros i t Hi. rewrite Hparts. apply (chunk_position outs i _ Hi). }
  split.
  - intros Hall%filter_all_inv. apply Forall_lookup. intros i r Hr t ->.
    pose proof (chunk_position outs i _ Hr) as Hp. rewrite <- Hparts in Hp.
    by eapply Forall_lookup_1 in Hall; [|exact Hp].
  - intros Hall. apply filter_all. rewrite Hparts.
    apply Forall_lookup. intros i p Hp.
    rewrite lookup_zip_with in Hp.
    destruct (seq 1 (length outs) !! i) as [idx|]; [|done]. simpl in Hp.
    destruct (outs !! i) as [r|] eqn:Hr; [|done]. simpl in Hp.
    injection Hp as <-.
    destruct r as [t|e]; [|apply chunk_error_truthy].
    eapply Forall_lookup_1 in Hall; [|exact Hr]. by apply Hall.
Qed.

Lemma chunk_failure_keeps_its_place_witness :
  let w := one_file "/tmp/in.wav" three_parts in
  let w1 := snd (ensure_wav_copy patchy_env "/tmp/in.wav" w) in
  let wav := "/tmp/whisper_input_0123456789abcdef0.wav" in
  let ms := 2500 in
  let out := transcribe_file patchy_env short_segments "/tmp/in.wav" w in
  let l := SEG_LEN_SECONDS short_segments * 1000 in
  let n := Z.to_nat ((ms + l - 1) / l) in
  exists a paths,
    read_audio patchy_env w "/tmp/in.wav" = Ok a /\ length paths = n /\
    let segments := window a l <$> ((fun k => k * l) <$> seqZ 0 ((ms + l - 1) / l)) in
    let outs := inferred (since w1 (snd out)) in
    let parts := zip_with chunk_text (seq 1 n) outs in
    since w1 (snd out) =
      zip_with EvExport paths segments ++ chunk_events paths outs
      ++ [EvRemove wav] /\
    (forall i p, paths !! i = Some p ->
       segments !! i = Some (window a l (Z.of_nat i * l)) /\
       outs !! i = Some (model_transcribe patchy_env p (window a l (Z.of_nat i * l)))) /\
    length outs = n /\ length parts = n /\
    fst out = Ok (chunked_summary n ms +:+ LF +:+ LF +:+
                  Py.join (LF +:+ LF) (filter (fun p => Py.truthy p = true) parts)) /\
    (forall i e, outs !! i = Some (Raise e) ->
       parts !! i = Some (chunk_error (S i) e) /\
       chunk_error (S i) e ∈ filter (fun p => Py.truthy p = true) parts) /\
    (forall i t, outs !! i = Some (Ok t) -> parts !! i = Some (Py.strip t)) /\
    (filter (fun p => Py.truthy p = true) parts = parts <->
     Forall (fun r => forall t, r = Ok t -> Py.truthy (Py.strip t) = true) outs).
Proof.
  apply (chunk_failure_keeps_its_place patchy_env short_segments "/tmp/in.wav"
           (one_file "/tmp/in.wav" three_parts)
           "/tmp/whisper_input_0123456789abcdef0.wav" 2500
           (snd (ensure_wav_copy patchy_env "/tmp/in.wav"
                   (one_file "/tmp/in.wav" three_parts))));
    [ vm_compute; reflexivity | intros p; reflexivity
    | vm_compute; reflexivity | vm_compute; reflexivity ].
Defined.

(** X19: on a long recording the chunk files are all exported first, one
    per window of the recording in temporal order and under different
    names; then, chunk by chunk in that order, the model is called on the
    chunk file and that file is removed before the next call, whether the
    call succeeded or raised; the removal of the working copy comes last. *)
Theorem chunks_are_removed_in_turn
    (env : Env) (cfg : Config) (in_path : string) (w : World)
    (wav : string) (ms : Z) (w1 : World) :
  0 < SEG_LEN_SECONDS cfg ->
  (forall p, export_err env p = None) ->
  ensure_wav_copy env in_path w = (Ok (wav, ms), w1) ->
  1000 * CHUNK_THRESHOLD_S cfg < ms ->
  let l := SEG_LEN_SECONDS cfg * 1000 in
  let n := (ms + l - 1) / l in
  exists a paths,
    read_audio env w in_path = Ok a /\
    length paths = Z.to_nat n /\ NoDup paths /\
    since w1 (snd (transcribe_file env cfg in_path w)) =
      zip_with EvExport paths (window a l <$> ((fun k => k * l) <$> seqZ 0 n))
      ++ mjoin (zip_with
                  (fun p c => [EvInfer p (model_transcribe env p c); EvRemove p])
                  paths (window a l <$> ((fun k => k * l) <$> seqZ 0 n)))
      ++ [EvRemove wav].
Proof.
  intros Hseg Hexp Hens Hgt l n.
  destruct (transcribe_file_chunked_exact env cfg Hexp in_path w wav ms w1
              Hseg Hens Hgt)
    as (a & paths & Hread & Hlen & Hlp & Hnd & _ & Hsince).
  exists a, paths. split; [done|]. split; [done|]. split; [done|].
  rewrite Hsince. by rewrite chunk_events_model.
Qed.

Lemma chunks_are_removed_in_turn_witness :
  let w := one_file "/tmp/in.wav" three_parts in
  let l := SEG_LEN_SECONDS short_segments * 1000 in
  let n := (2500 + l - 1) / l in
  exists a paths,
    read_audio patchy_env w "/tmp/in.wav" = Ok a /\
    length paths = Z.to_nat n /\ NoDup paths /\
    since (snd (ensure_wav_copy patchy_env "/tmp/in.wav" w))
          (snd (transcribe_file patchy_env short_segments "/tmp/in.wav" w)) =
      zip_with EvExport paths (window a l <$> ((fun k => k * l) <$> seqZ 0 n))
      ++ mjoin (zip_with
                  (fun p c => [EvInfer p (model_transcribe patchy_env p c); EvRemove p])
                  paths (window a l <$> ((fun k => k * l) <$> seqZ 0 n)))
      ++ [EvRemove "/tmp/whisper_input_0123456789abcdef0.wav"].
Proof.
  apply (chunks_are_removed_in_turn patchy_env short_segments "/tmp/in.wav"
           (one_file "/tmp/in.wav" three_parts)
           "/tmp/whisper_input_0123456789abcdef0.wav" 2500);
    [ vm_compute; reflexivity | intros p; reflexivity
    | vm_compute; reflexivity | vm_compute; reflexivity ].
Defined.

(** ** A thread alone is the program of [Section App] *)

Lemma interp_and_then {A B} (p : Prog A) (f : res A -> Prog B) w :
  interp (and_then p f) w = let (r, w') := interp p w in interp (f r) w'.
Proof.
  revert w. induction p as [r|X op k IH]; intros w; simpl; [done|].
  destruct (op w) as [x w']. apply IH.
Qed.

Lemma runs_as_call {X} (op : M X) : runs_as (Steps.call op) op.
Proof. intros w. simpl. by destruct (op w). Qed.

Lemma runs_as_ret {A} (a : A) : runs_as (Steps.ret a) (ret a).
Proof. done. Qed.

Lemma runs_as_bind {A B} (p : Prog A) (k : A -> Prog B) m k' :
  runs_as p m -> (forall a, runs_as (k a) (k' a)) ->
  runs_as (Steps.bind p k) (bind m k').
Proof.
  intros Hp Hk w. unfold Steps.bind, bind.
  rewrite interp_and_then, Hp. destruct (m w) as [[a|e] w']; [apply Hk|done].
Qed.

Lemma runs_as_try_except {A} (p : Prog A) (h : exn -> Prog A) m h' :
  runs_as p m -> (forall e, runs_as (h e) (h' e)) ->
  runs_as (Steps.try_except p h) (try_except m h').
Proof.
  intros Hp Hh w. unfold Steps.try_except, try_except.
  rewrite interp_and_then, Hp. destruct (m w) as [[a|e] w']; [done|apply Hh].
Qed.

Lemma runs_as_try_finally {A} (p : Prog A) (fin : Prog unit) m fin' :
  runs_as p m -> runs_as fin fin' ->
  runs_as (Steps.try_finally p fin) (try_finally m fin').
Proof.
  intros Hp Hf w. unfold Steps.try_finally, try_finally.
  rewrite interp_and_then, Hp. destruct (m w) as [r w'].
  rewrite interp_and_then, Hf. by destruct (fin' w') as [[u|e] w''].
Qed.

Lemma runs_as_for_each {A B} (body : A -> Prog B) body' (l : list A) :
  (forall x, runs_as (body x) (body' x)) ->
  runs_as (Steps.for_each body l) (for_each body' l).
Proof.
  intros Hb. induction l as [|x t IH]; simpl; [done|].
  apply runs_as_bind; [apply Hb|]. intros y.
  apply runs_as_bind; [apply IH|]. intros ys. done.
Qed.

(** Following the text of the two programs side by side. *)
Ltac runs_as_step :=
  first
    [ apply runs_as_ret | apply runs_as_call
    | apply runs_as_bind | apply runs_as_try_except | apply runs_as_try_finally
    | apply runs_as_for_each
    | match goal with
      | |- runs_as (match ?x with _ => _ end) _ => destruct x
      | |- forall _, _ => intro
      end ].

Ltac runs_as_tac := repeat (first [ solve [auto] | runs_as_step ]).

Section SameProgram.

Context (env : Env) (cfg : Config).

Lemma transcribe_file_runs_as p :
  runs_as (Steps.transcribe_file env cfg p) (transcribe_file env cfg p).
Proof.
  unfold Steps.transcribe_file, transcribe_file,
    Steps.ensure_wav_copy, ensure_wav_copy,
    Steps.transcribe_body, transcribe_body,
    Steps.remove_working_file, remove_working_file,
    Steps.split_audio_to_files, split_audio_to_files,
    Steps.export_segment, export_segment,
    Steps.transcribe_one, transcribe_one,
    Steps.transcribe_chunk, transcribe_chunk.
  runs_as_tac.
Qed.

Lemma send_email_runs_as a s b atts fb :
  runs_as (Steps.send_email_with_fallback env cfg a s b atts fb)
          (send_email_with_fallback env cfg a s b atts fb).
Proof.
  unfold Steps.send_email_with_fallback, send_email_with_fallback,
    Steps.build_message, build_message.
  runs_as_tac.
Qed.

Lemma process_job_runs_as j :
  runs_as (Steps.process_job env cfg j) (process_job env cfg j).
Proof.
  pose proof transcribe_file_runs_as. pose proof send_email_runs_as.
  unfold Steps.process_job, process_job. runs_as_tac.
Qed.

Lemma worker_iteration_runs_as :
  runs_as (Steps.worker_iteration env cfg) (worker_iteration env cfg).
Proof.
  pose proof process_job_runs_as.
  unfold Steps.worker_iteration, worker_iteration. runs_as_tac.
Qed.

Lemma submit_runs_as e f b :
  runs_as (Steps.submit env cfg e f b) (submit env cfg e f b).
Proof.
  unfold Steps.submit, submit, Steps.duration_guard, duration_guard.
  runs_as_tac.
Qed.

End SameProgram.

(** ** Threads: what a thread does whatever the others do *)

Lemma since_same (w : World) : since w w = [].
Proof. unfold since. apply drop_all. Qed.

Lemma emits_mono {A} (p : Prog A) (Q Q' : list Event -> res A -> Prop) :
  (forall evs r, Q evs r -> Q' evs r) -> emits p Q -> emits p Q'.
Proof.
  revert Q Q'. induction p as [r|X op k IH]; intros Q Q' HQ; simpl.
  - apply HQ.
  - intros Hp w. eapply IH; [|apply Hp]. intros evs r. apply HQ.
Qed.

Lemma emits_and_then {A B} (p : Prog A) (f : res A -> Prog B)
    (Q : list Event -> res B -> Prop) :
  emits p (fun e1 r1 => emits (f r1) (fun e2 r2 => Q (e1 ++ e2) r2)) ->
  emits (and_then p f) Q.
Proof.
  revert Q. induction p as [r|X op k IH]; intros Q; simpl; [done|].
  intros Hp w. apply IH. eapply emits_mono; [|apply Hp].
  intros e1 r1. apply emits_mono. intros e2 r2. by rewrite app_assoc.
Qed.

Lemma emits_call {X} (op : M X) (Q : list Event -> res X -> Prop) :
  (forall w, Q (since w (snd (op w))) (fst (op w))) ->
  emits (Steps.call op) Q.
Proof. intros H w. simpl. rewrite app_nil_r. apply H. Qed.

Lemma emits_bind {A B} (p : Prog A) (k : A -> Prog B)
    (Q : list Event -> res B -> Prop) :
  emits p (fun e1 r1 => match r1 with
                        | Ok a => emits (k a) (fun e2 r2 => Q (e1 ++ e2) r2)
                        | Raise e => Q e1 (Raise e)
                        end) ->
  emits (Steps.bind p k) Q.
Proof.
  intros Hp. apply emits_and_then. eapply emits_mono; [|apply Hp].
  intros e1 [a|e]; simpl; [done|]. by rewrite app_nil_r.
Qed.

(** Some run of the thread shows what [emits] promises. *)
Lemma emits_inhabited {A} (p : Prog A) (Q : list Event -> res A -> Prop) :
  emits p Q -> exists evs r, Q evs r.
Proof.
  revert Q. induction p as [r|X op k IH]; intros Q; simpl.
  - by eexists _, _.
  - intros Hp. destruct (IH _ _ (Hp (boot ∅))) as (evs & r & HQ). by eexists _, _.
Qed.

(** *** Threads that add only some events *)

Lemma yields_done {A} (P : Event -> bool) (r : res A) : yields P (Done r).
Proof. done. Qed.

Lemma yields_ret {A} (P : Event -> bool) (a : A) : yields P (Steps.ret a).
Proof. done. Qed.

Lemma yields_call {X} (P : Event -> bool) (op : M X) :
  keeps (adding P) op -> yields P (Steps.call op).
Proof.
  intros Hop. apply emits_call. intros w.
  destruct (Hop w) as (evs & Ht & Hf). by rewrite (since_app _ _ _ Ht).
Qed.

Lemma yields_and_then {A B} (P : Event -> bool) (p : Prog A)
    (f : res A -> Prog B) :
  yields P p -> (forall r, yields P (f r)) -> yields P (and_then p f).
Proof.
  intros Hp Hf. apply emits_and_then. eapply emits_mono; [|apply Hp].
  intros e1 r1 H1. eapply emits_mono; [|apply Hf].
  intros e2 r2 H2. simpl in *. by rewrite forallb_app, H1, H2.
Qed.

Lemma yields_bind {A B} (P : Event -> bool) (p : Prog A) (k : A -> Prog B) :
  yields P p -> (forall a, yields P (k a)) -> yields P (Steps.bind p k).
Proof.
  intros Hp Hk. apply yields_and_then; [done|]. intros [a|e]; [apply Hk|done].
Qed.

Lemma yields_try_except {A} (P : Event -> bool) (p : Prog A)
    (h : exn -> Prog A) :
  yields P p -> (forall e, yields P (h e)) -> yields P (Steps.try_except p h).
Proof.
  intros Hp Hh. apply yields_and_then; [done|]. intros [a|e]; [done|apply Hh].
Qed.

Lemma yields_try_finally {A} (P : Event -> bool) (p : Prog A)
    (fin : Prog unit) :
  yields P p -> yields P fin -> yields P (Steps.try_finally p fin).
Proof.
  intros Hp Hf. apply yields_and_then; [done|]. intros r.
  apply yields_and_then; [done|]. by intros [u|e].
Qed.

Lemma yields_for_each {A B} (P : Event -> bool) (body : A -> Prog B)
    (l : list A) :
  (forall x, yields P (body x)) -> yields P (Steps.for_each body l).
Proof.
  intros Hb. induction l as [|x t IH]; simpl; [done|].
  apply yields_bind; [apply Hb|]. intros y.
  apply yields_bind; [apply IH|]. intros ys. done.
Qed.

Lemma yields_weaken {A} (P P' : Event -> bool) (p : Prog A) :
  (forall ev, P ev = true -> P' ev = true) -> yields P p -> yields P' p.
Proof.
  intros HP. apply emits_mono. intros evs _ H.
  apply forallb_forall. intros ev Hev. apply HP.
  by eapply forallb_forall in H.
Qed.

Ltac yields_step :=
  first
    [ match goal with
      | |- yields ?P (Steps.ret ?a) => exact (yields_ret P a)
      | |- yields ?P (Done ?r) => exact (yields_done P r)
      end
    | apply yields_call
    | apply yields_bind | apply yields_try_except | apply yields_try_finally
    | apply yields_for_each
    | match goal with
      | |- yields _ (match ?x with _ => _ end) => destruct x
      | |- forall _, _ => intro
      end ].

(** *** The calls of a thread *)

Lemma calls_ret {A} (R : relation World) (a : A) : calls R (Steps.ret a).
Proof. done. Qed.

Lemma calls_call {X} (R : relation World) (op : M X) :
  keeps R op -> calls R (Steps.call op).
Proof. by split. Qed.

Lemma calls_and_then {A B} (R : relation World) (p : Prog A)
    (f : res A -> Prog B) :
  calls R p -> (forall r, calls R (f r)) -> calls R (and_then p f).
Proof.
  intros Hp Hf. induction p as [r|X op k IH]; simpl; [apply Hf|].
  destruct Hp as [Hop Hk]. split; [done|]. intros x. apply IH, Hk.
Qed.

Lemma calls_bind {A B} (R : relation World) (p : Prog A) (k : A -> Prog B) :
  calls R p -> (forall a, calls R (k a)) -> calls R (Steps.bind p k).
Proof.
  intros Hp Hk. apply calls_and_then; [done|]. intros [a|e]; [apply Hk|done].
Qed.

Lemma calls_try_except {A} (R : relation World) (p : Prog A)
    (h : exn -> Prog A) :
  calls R p -> (forall e, calls R (h e)) -> calls R (Steps.try_except p h).
Proof.
  intros Hp Hh. apply calls_and_then; [done|]. intros [a|e]; [done|apply Hh].
Qed.

Lemma calls_try_finally {A} (R : relation World) (p : Prog A)
    (fin : Prog unit) :
  calls R p -> calls R fin -> calls R (Steps.try_finally p fin).
Proof.
  intros Hp Hf. apply calls_and_then; [done|]. intros r.
  apply calls_and_then; [done|]. by intros [u|e].
Qed.

Lemma calls_for_each {A B} (R : relation World) (body : A -> Prog B)
    (l : list A) :
  (forall x, calls R (body x)) -> calls R (Steps.for_each body l).
Proof.
  intros Hb. induction l as [|x t IH]; simpl; [done|].
  apply calls_bind; [apply Hb|]. intros y.
  apply calls_bind; [apply IH|]. intros ys. done.
Qed.

Lemma calls_weaken {A} (R R' : relation World) (p : Prog A) :
  (forall w w', R w w' -> R' w w') -> calls R p -> calls R' p.
Proof.
  intros HR. induction p as [r|X op k IH]; simpl; [done|].
  intros [Hop Hk]. split; [by eapply keeps_weaken|]. intros x. apply IH, Hk.
Qed.

Ltac calls_step :=
  first
    [ match goal with
      | |- calls ?R (Steps.ret ?a) => exact (calls_ret R a)
      end
    | apply calls_call
    | apply calls_bind | apply calls_try_except | apply calls_try_finally
    | apply calls_for_each
    | match goal with
      | |- calls _ (match ?x with _ => _ end) => destruct x
      | |- forall _, _ => intro
      end ].

Lemma emits_always {A} (p : Prog A) (Q : list Event -> res A -> Prop) :
  (forall evs r, Q evs r) -> emits p Q.
Proof.
  revert Q. induction p as [r|X op k IH]; intros Q HQ; simpl; [apply HQ|].
  intros w. apply IH. intros evs r. apply HQ.
Qed.

Lemma emits_conj {A} (p : Prog A) (Q1 Q2 : list Event -> res A -> Prop) :
  emits p Q1 -> emits p Q2 -> emits p (fun evs r => Q1 evs r /\ Q2 evs r).
Proof.
  revert Q1 Q2. induction p as [r|X op k IH]; intros Q1 Q2; simpl; [done|].
  intros H1 H2 w. apply IH; [apply H1 | apply H2].
Qed.

Lemma returns_ret {A} (a : A) : returns (Steps.ret a).
Proof. by exists a. Qed.

Lemma returns_bind {A B} (p : Prog A) (k : A -> Prog B) :
  returns p -> (forall a, returns (k a)) -> returns (Steps.bind p k).
Proof.
  intros Hp Hk. apply emits_bind. eapply emits_mono; [|apply Hp].
  intros e1 r1 [a ->]. eapply emits_mono; [|apply Hk]. by intros e2 r2.
Qed.

Lemma returns_try_except {A} (p : Prog A) (h : exn -> Prog A) :
  (forall e, returns (h e)) -> returns (Steps.try_except p h).
Proof.
  intros Hh. apply emits_and_then. apply emits_always. intros e1 [a|e].
  - by exists a.
  - eapply emits_mono; [|apply Hh]. by intros e2 r2.
Qed.

Lemma emits_call_pure {X} (op : M X) (r : res X)
    (Q : list Event -> res X -> Prop) :
  (forall w, op w = (r, w)) -> Q [] r -> emits (Steps.call op) Q.
Proof.
  intros Hop HQ. apply emits_call. intros w.
  rewrite Hop. simpl. by rewrite since_same.
Qed.

Lemma backstage_quiet (evs : list Event) :
  forallb backstage evs = true -> forallb quiet evs = true /\ sent evs = [].
Proof.
  induction evs as [|ev t IH]; simpl; [done|].
  intros [Hev Ht]%andb_prop. destruct (IH Ht) as [Hq Hs].
  unfold sent in *. destruct ev; simpl in *; try done; by rewrite Hq.
Qed.

Lemma audio_backstage (ev : Event) : audio_event ev = true -> backstage ev = true.
Proof. by destruct ev. Qed.

Section ThreadFacts.

Context (env : Env) (cfg : Config).

(** *** The calls of the program *)

Lemma unchanged_set_header name value : keeps unchanged (set_header env name value).
Proof. intros w. unfold set_header. by destruct (header_err env name value). Qed.

Lemma unchanged_split_mime mime : keeps unchanged (split_mime mime).
Proof.
  intros w. unfold split_mime.
  by destruct (Py.split1 "/" mime) as [|? [|? [|? ?]]].
Qed.

Lemma unchanged_add_attachment f mt st : keeps unchanged (add_attachment env f mt st).
Proof. intros w. unfold add_attachment. by destruct (attach_err env f mt st). Qed.

Lemma unchanged_segment_starts d l : keeps unchanged (segment_starts d l).
Proof. intros w. unfold segment_starts. by destruct (Py.range0 d l). Qed.

Lemma unchanged_keeps {A} (R : relation World) `{!Reflexive R} (m : M A) :
  keeps unchanged m -> keeps R m.
Proof. intros Hm w. rewrite (Hm w). reflexivity. Qed.

Lemma quietly_fifo (w w' : World) : quietly w w' -> fifo w w'.
Proof.
  intros (Hq & _ & evs & Ht & Hf). exists evs. split; [done|].
  rewrite Hq, enqueued_quiet, app_nil_r by done.
  by rewrite (dequeued_no_turn evs (quiet_no_turn evs Hf)).
Qed.

Lemma fifo_q_get : keeps fifo q_get.
Proof.
  intros w. unfold q_get. destruct (job_q w) as [|j q] eqn:Hq; simpl.
  - exists []. by rewrite Hq, !app_nil_r.
  - exists [EvGet j]. simpl. by rewrite Hq, app_nil_r.
Qed.

Lemma fifo_task_done : keeps fifo task_done.
Proof. intros w. exists [EvTaskDone]. simpl. by rewrite app_nil_r. Qed.

Lemma calls_process_job j : calls quietly (Steps.process_job env cfg j).
Proof.
  pose proof (fun n v => unchanged_keeps quietly _ (unchanged_set_header n v)).
  pose proof (fun m => unchanged_keeps quietly _ (unchanged_split_mime m)).
  pose proof (fun f mt st =>
                unchanged_keeps quietly _ (unchanged_add_attachment f mt st)).
  pose proof (fun d l => unchanged_keeps quietly _ (unchanged_segment_starts d l)).
  pose proof (quiet_uuid4 env). pose proof (quiet_now env).
  pose proof (quiet_from_file env). pose proof quiet_os_path_exists.
  pose proof (quiet_export env). pose proof (quiet_whisper env).
  pose proof (quiet_os_remove env). pose proof (quiet_write_file env).
  pose proof (quiet_smtp_deliver env).
  unfold Steps.process_job, Steps.send_email_with_fallback, Steps.build_message,
    Steps.transcribe_file, Steps.ensure_wav_copy, Steps.transcribe_body,
    Steps.remove_working_file, Steps.split_audio_to_files,
    Steps.export_segment, Steps.transcribe_one, Steps.transcribe_chunk.
  repeat (first [ solve [auto] | calls_step ]).
Qed.

Lemma calls_worker_iteration : calls fifo (Steps.worker_iteration env cfg).
Proof.
  pose proof fifo_q_get. pose proof fifo_task_done.
  pose proof (fun j => calls_weaken _ _ _ quietly_fifo (calls_process_job j)).
  unfold Steps.worker_iteration.
  repeat (first [ solve [auto] | calls_step ]).
Qed.

Lemma serving_quiet {X} (op : M X) :
  (forall w, job_q (snd (op w)) = job_q w /\
             exists evs, trace (snd (op w)) = trace w ++ evs /\
                         forallb request_event evs = true /\ enqueued evs = []) ->
  keeps serving op.
Proof.
  intros Hop w. destruct (Hop w) as (Hq & evs & Ht & Hf & He).
  exists evs. by rewrite Hq, He, app_nil_r.
Qed.

Lemma serving_uuid4 : keeps serving (uuid4 env).
Proof. apply serving_quiet. intros w. split; [done|]. exists []. simpl. by rewrite app_nil_r. Qed.

Lemma serving_now : keeps serving (now env).
Proof. apply serving_quiet. intros w. split; [done|]. exists []. simpl. by rewrite app_nil_r. Qed.

Lemma serving_from_file p : keeps serving (from_file env p).
Proof. apply serving_quiet. intros w. split; [done|]. exists []. simpl. by rewrite app_nil_r. Qed.

Lemma serving_write_file p d : keeps serving (write_file env p d).
Proof.
  apply serving_quiet. intros w. unfold write_file.
  destruct (open_err env p); simpl; (split; [done|]); by exists [EvWrite p d].
Qed.

Lemma serving_os_remove p : keeps serving (os_remove env p).
Proof.
  apply serving_quiet. intros w. unfold os_remove.
  destruct (files w !! p); [destruct (remove_err env p)|]; simpl;
    (split; [done|]); by exists [EvRemove p].
Qed.

Lemma serving_q_put j : keeps serving (q_put j).
Proof. intros w. by exists [EvPut j]. Qed.

Lemma serving_start_worker : keeps serving start_worker.
Proof.
  apply serving_quiet. intros w. unfold start_worker.
  destruct (worker_alive w); simpl; (split; [done|]); exists [];
    by rewrite app_nil_r.
Qed.

Lemma calls_submit e f b : calls serving (Steps.submit env cfg e f b).
Proof.
  pose proof serving_uuid4. pose proof serving_now. pose proof serving_from_file.
  pose proof serving_write_file. pose proof serving_os_remove.
  pose proof serving_q_put. pose proof serving_start_worker.
  unfold Steps.submit, Steps.duration_guard.
  repeat (first [ solve [auto] | calls_step ]).
Qed.

(** *** The events of a job *)

Lemma yields_transcribe_file p :
  yields audio_event (Steps.transcribe_file env cfg p).
Proof.
  pose proof (audio_uuid4 env). pose proof (audio_now env).
  pose proof (audio_from_file env). pose proof (audio_os_path_exists).
  pose proof (audio_export env). pose proof (audio_whisper env).
  pose proof (audio_os_remove env).
  pose proof (fun d l => unchanged_keeps (adding audio_event) _
                           (unchanged_segment_starts d l)).
  unfold Steps.transcribe_file, Steps.ensure_wav_copy, Steps.transcribe_body,
    Steps.remove_working_file, Steps.split_audio_to_files,
    Steps.export_segment, Steps.transcribe_one, Steps.transcribe_chunk.
  repeat (first [ solve [auto] | yields_step ]).
Qed.

(** The transcript of a job: the audio pipeline runs and a text comes out
    of it, the transcript or the text of the failure. *)
Lemma transcript_phase p :
  emits (Steps.try_except (Steps.transcribe_file env cfg p)
                          (fun e => Steps.ret (transcription_failed env e)))
        (fun evs r => forallb backstage evs = true /\ exists t, r = Ok t).
Proof.
  apply emits_conj.
  - apply (yields_weaken audio_event); [apply audio_backstage|].
    apply yields_try_except; [apply yields_transcribe_file|].
    intros e. apply yields_ret.
  - apply returns_try_except. intros e. apply returns_ret.
Qed.

(** The message of a job: it is built exactly when the headers of the job
    are accepted, and in no world does building it add an event. *)
Lemma build_phase j t :
  emits (Steps.build_message env cfg (email j) (email_subject (job_id j))
           (email_body (job_id j) (filename j) t)
           (Some [ {| att_filename := "transcript_" +:+ job_id j +:+ ".txt";
                      att_bytes := t; att_mime := "text/plain" |} ]))
        (fun evs r =>
           evs = [] /\
           (headers_accepted env cfg j /\ r = Ok (job_message cfg j t) \/
            ~ headers_accepted env cfg j /\ exists e, r = Raise e)).
Proof.
  unfold Steps.build_message, headers_accepted.
  apply emits_bind.
  apply (emits_call_pure _ (match header_err env "From" (EMAIL_FROM cfg) with
                            | Some e => Raise e | None => Ok tt end)).
  { intros w. unfold set_header. by destruct (header_err env "From" _). }
  destruct (header_err env "From" (EMAIL_FROM cfg)) as [e|] eqn:Hfrom.
  { split; [done|]. right. split; [intros (? & _); congruence|by eexists]. }
  apply emits_bind.
  apply (emits_call_pure _ (match header_err env "To" (email j) with
                            | Some e => Raise e | None => Ok tt end)).
  { intros w. unfold set_header. by destruct (header_err env "To" _). }
  destruct (header_err env "To" (email j)) as [e|] eqn:Hto.
  { split; [done|]. right. split; [intros (_ & ? & _); congruence|by eexists]. }
  apply emits_bind.
  apply (emits_call_pure _ (match header_err env "Subject" (email_subject (job_id j)) with
                            | Some e => Raise e | None => Ok tt end)).
  { intros w. unfold set_header. by destruct (header_err env "Subject" _). }
  destruct (header_err env "Subject" (email_subject (job_id j))) as [e|] eqn:Hsubject.
  { split; [done|]. right. split; [intros (_ & _ & ?); congruence|by eexists]. }
  pose proof (subject_accepts_attachment env (job_id j) Hsubject) as Hatt.
  cbn [some_attachments Steps.for_each].
  apply emits_bind. apply emits_bind. apply emits_bind.
  apply (emits_call_pure _ (Ok ("text", "plain"))); [done|].
  apply emits_bind.
  apply (emits_call_pure _ (Ok tt)).
  { intros w. unfold add_attachment. cbn [att_filename]. by rewrite Hatt. }
  simpl. split; [done|]. left. done.
Qed.

(** The fallback write, when the session failed. *)
Lemma fallback_phase (fb : option string) (payload err : string) :
  quietly_returns backstage
    (Steps.bind
       match path_given fb with
       | Some path =>
           Steps.try_except (Steps.call (write_file env path payload))
                            (fun _ => Steps.ret tt)
       | None => Steps.ret tt
       end
       (fun _ => Steps.ret (false, Some err))).
Proof.
  apply emits_conj.
  - apply yields_bind; [|intros; apply yields_ret].
    destruct (path_given fb); [|apply yields_ret].
    apply yields_try_except; [|intros; apply yields_ret].
    apply yields_call. intros w. unfold write_file.
    destruct (open_err env s); simpl.
    + by exists [EvWrite s payload].
    + by exists [EvWrite s payload].
  - apply returns_bind; [|intros; apply returns_ret].
    destruct (path_given fb); [|apply returns_ret].
    apply returns_try_except. intros. apply returns_ret.
Qed.

(** The removal of the upload. *)
Lemma cleanup_phase (p : string) :
  quietly_returns backstage
    (Steps.try_except
       (Steps.bind (Steps.call (os_path_exists p))
          (fun there => if there then Steps.call (os_remove env p)
                        else Steps.ret tt))
       (fun _ => Steps.ret tt)).
Proof.
  apply emits_conj.
  - apply yields_try_except; [|intros; apply yields_ret].
    apply yields_bind.
    + apply yields_call. intros w. exists []. simpl. by rewrite app_nil_r.
    + intros [|]; [|apply yields_ret].
      apply yields_call. intros w. unfold os_remove.
      destruct (files w !! p); [destruct (remove_err env p)|]; simpl;
        by exists [EvRemove p].
  - apply returns_try_except. intros. apply returns_ret.
Qed.

(** The dispatcher on the message of a job. *)
Lemma send_phase j t :
  emits (Steps.send_email_with_fallback env cfg (email j)
           (email_subject (job_id j)) (email_body (job_id j) (filename j) t)
           (Some [ {| att_filename := "transcript_" +:+ job_id j +:+ ".txt";
                      att_bytes := t; att_mime := "text/plain" |} ])
           (Some (fallback_path_of env (job_id j))))
        (fun evs r =>
           headers_accepted env cfg j /\
           (exists failure rest,
              evs = EvSend (job_message cfg j t) failure :: rest /\
              forallb backstage rest = true) /\
           (exists a, r = Ok a) \/
           ~ headers_accepted env cfg j /\ evs = [] /\ exists e, r = Raise e).
Proof.
  unfold Steps.send_email_with_fallback. apply emits_bind.
  eapply emits_mono; [|apply build_phase].
  intros e1 r1 [-> [[Hacc ->]|[Hacc [e ->]]]];
    [|right; split; [done|split; [done|by eexists]]].
  set (msg := job_message cfg j t).
  apply emits_bind. unfold Steps.try_except at 1, Steps.bind at 1.
  cbn [and_then Steps.call]. intros w.
  assert (since w (snd (smtp_deliver env msg w)) = [EvSend msg (smtp_err env msg)]) as ->.
  { unfold smtp_deliver. destruct (smtp_err env msg); apply since_emit. }
  unfold smtp_deliver.
  destruct (smtp_err env msg) as [e|] eqn:Hsmtp; cbn [fst and_then emits Steps.ret].
  - eapply emits_mono; [|apply fallback_phase].
    intros e3 r3 [H3 Hr3]. left. split; [done|]. split; [|done].
    exists (Some e), e3. by rewrite app_nil_r.
  - left. split; [done|]. split; [by exists None, []|by eexists].
Qed.

(** The work on a job, whatever the other threads do meanwhile. *)
Lemma process_job_emits j :
  emits (Steps.process_job env cfg j)
        (fun evs r =>
           job_work j evs /\
           (headers_accepted env cfg j ->
              r = Ok tt /\ exists t, sent evs = [job_message cfg j t])).
Proof.
  unfold Steps.process_job. apply emits_bind.
  eapply emits_mono; [|apply transcript_phase].
  intros e1 r1 [H1 [t ->]].
  destruct (backstage_quiet e1 H1) as [Hq1 Hs1].
  apply emits_bind. eapply emits_mono; [|apply (send_phase j t)].
  intros e2 r2 [(Hacc & (failure & ws & -> & Hws) & [a ->])
               |(Hacc & -> & [e ->])].
  - eapply emits_mono; [|apply cleanup_phase].
    intros e3 r3 [H3 [[] ->]].
    destruct (backstage_quiet ws Hws) as [Hqw Hsw].
    destruct (backstage_quiet e3 H3) as [Hq3 Hs3].
    assert (sent (e1 ++ (EvSend (job_message cfg j t) failure :: ws) ++ e3)
            = [job_message cfg j t]) as Hsent.
    { rewrite !sent_app, Hs1, Hs3, app_nil_r.
      change (sent (EvSend ?m ?f :: ws)) with (m :: sent ws). by rewrite Hsw. }
    split; [|intros _; split; [done|by exists t]].
    split; [|rewrite Hsent; split; [simpl; lia|by repeat constructor]].
    rewrite !forallb_app, Hq1, Hq3. simpl. by rewrite Hqw.
  - rewrite app_nil_r. split; [|done].
    split; [done|]. rewrite Hs1. split; [simpl; lia|constructor].
Qed.

(** A turn of the loop of the worker, whatever the other threads do
    meanwhile. *)
Lemma worker_iteration_emits :
  emits (Steps.worker_iteration env cfg) (whole_turn env cfg).
Proof.
  unfold Steps.worker_iteration. apply emits_bind, emits_call. intros w.
  unfold q_get. destruct (job_q w) as [|j q]; cbn [fst snd].
  - rewrite since_same. by left.
  - assert (since w (emit (EvGet j) (with_job_q q w)) = [EvGet j]) as ->.
    { by apply since_app. }
    unfold Steps.try_finally. apply emits_and_then.
    eapply emits_mono; [|apply process_job_emits].
    intros work r [Hwork Hacc].
    apply emits_and_then, emits_call. intros w'. simpl.
    rewrite (since_emit EvTaskDone w'). right. exists j, work.
    split; [by rewrite app_nil_r|]. done.
Qed.

End ThreadFacts.

(** ** The process, call by call *)

Lemma by_thread_app (who : Who) (j1 j2 : list (Who * Event)) :
  by_thread who (j1 ++ j2) = by_thread who j1 ++ by_thread who j2.
Proof. apply omap_app. Qed.

Lemma by_thread_same (who : Who) (evs : list Event) :
  by_thread who ((fun ev => (who, ev)) <$> evs) = evs.
Proof.
  unfold by_thread. induction evs as [|ev t IH]; [done|].
  simpl in *. destruct (decide (who = who)); [|done]. simpl. by f_equal.
Qed.

Lemma by_thread_other (who who' : Who) (evs : list Event) :
  who' <> who -> by_thread who ((fun ev => (who', ev)) <$> evs) = [].
Proof.
  intros Hne. unfold by_thread. induction evs as [|ev t IH]; [done|].
  simpl in *. by destruct (decide (who' = who)).
Qed.

Lemma journal_events (who : Who) (evs : list Event) :
  snd <$> ((fun ev => (who, ev)) <$> evs) = evs.
Proof. rewrite <- list_fmap_compose. apply list_fmap_id. Qed.

Lemma dequeued_request (evs : list Event) :
  forallb request_event evs = true -> dequeued evs = [].
Proof.
  induction evs as [|ev t IH]; simpl; [done|].
  intros [Hev Ht]%andb_prop. unfold dequeued in *.
  destruct ev; simpl in *; auto; discriminate.
Qed.

(** The jobs taken are taken by the worker. *)
Lemma dequeued_by_worker (jl : list (Who * Event)) :
  forallb request_event (by_thread EventLoop jl) = true ->
  dequeued (snd <$> jl) = dequeued (by_thread WorkerThread jl).
Proof.
  induction jl as [|[who ev] t IH]; [done|].
  rewrite fmap_cons.
  change ((who, ev) :: t) with ([(who, ev)] ++ t).
  change ((who, ev).2 :: t.*2) with ([ev] ++ t.*2).
  rewrite (by_thread_app EventLoop [(who, ev)] t), (by_thread_app WorkerThread [(who, ev)] t).
  rewrite forallb_app, (dequeued_app [ev]), dequeued_app.
  intros [Hev Ht]%andb_prop. rewrite IH by done. f_equal.
  destruct who; [done|]. by destruct ev.
Qed.

Section Interleaving.

Context (env : Env) (cfg : Config).

Lemma tidy_start fs : tidy env cfg (start fs).
Proof.
  repeat split; try done. exists [], []. repeat split; done.
Qed.

Lemma tidy_serve pr i :
  tidy env cfg pr -> tidy env cfg (step env cfg pr (Serve i)).
Proof.
  intros (Hj & Hfifo & Hh & Hhe & turns & pre & Hw & Hturns & Hworker).
  unfold step. destruct (handlers pr !! i) as [[r|X op k]|] eqn:Hi.
  - split; [done|]. split; [done|]. split; [by apply Forall_delete|].
    split; [done|]. exists turns, pre. auto.
  - pose proof (Forall_lookup_1 _ _ _ _ Hh Hi) as [Hop Hk].
    specialize (Hop (world pr)).
    destruct (op (world pr)) as [x w'] eqn:Hrun. simpl in Hop.
    destruct Hop as (evs & Ht & Hreq & Hq).
    rewrite (since_app _ _ _ Ht). unfold tidy. cbn [world worker handlers journal].
    split; [by rewrite fmap_app, journal_events, Hj, Ht|].
    split.
    { rewrite Ht, Hq, dequeued_app, enqueued_app, (dequeued_request evs Hreq).
      by rewrite app_nil_r, <- Hfifo, <- app_assoc. }
    split; [by apply Forall_insert|].
    split; [by rewrite by_thread_app, by_thread_same, forallb_app, Hhe|].
    exists turns, pre.
    rewrite by_thread_app, by_thread_other, app_nil_r by done. auto.
  - unfold tidy. eauto 10.
Qed.

Lemma tidy_work pr :
  tidy env cfg pr -> tidy env cfg (step env cfg pr Work).
Proof.
  intros (Hj & Hfifo & Hh & Hhe & turns & pre & Hw & Hturns & Hworker).
  unfold step. destruct (worker pr) as [[[u|e]|X op k]|] eqn:Hp.
  - destruct Hworker as [_ Hturn]. simpl in Hturn. rewrite app_nil_r in Hturn.
    repeat (split; [done|]). exists (turns ++ [pre]), []. simpl.
    split; [by rewrite (join_app (A := Event)), app_nil_r; simpl; rewrite app_nil_r|].
    split; [|done]. apply Forall_app. split; [done|]. repeat constructor. by eexists.
  - destruct Hworker as [_ Hturn]. simpl in Hturn. rewrite app_nil_r in Hturn.
    repeat (split; [done|]). exists (turns ++ [pre]), []. simpl.
    split; [by rewrite (join_app (A := Event)), app_nil_r; simpl; rewrite app_nil_r|].
    split; [|done]. apply Forall_app. split; [done|]. repeat constructor. by eexists.
  - destruct Hworker as [[Hop Hk] Hemits].
    specialize (Hop (world pr)). simpl in Hemits. specialize (Hemits (world pr)).
    destruct (op (world pr)) as [x w'] eqn:Hrun. simpl in Hop, Hemits.
    destruct Hop as (evs & Ht & Hq).
    rewrite (since_app _ _ _ Ht) in *. unfold tidy. cbn [world worker handlers journal].
    split; [by rewrite fmap_app, journal_events, Hj, Ht|].
    split.
    { rewrite Ht, dequeued_app, enqueued_app, <- app_assoc, Hq.
      by rewrite <- Hfifo, <- app_assoc. }
    split; [done|].
    split; [by rewrite by_thread_app, by_thread_other, app_nil_r|].
    exists turns, (pre ++ evs).
    split; [by rewrite by_thread_app, by_thread_same, Hw, app_assoc|].
    split; [done|]. split; [apply Hk|].
    eapply emits_mono; [|apply Hemits]. intros evs' r. cbv beta.
    by rewrite <- app_assoc.
  - subst pre. destruct (worker_alive (world pr)).
    + repeat (split; [done|]). exists turns, []. simpl.
      split; [done|]. split; [done|].
      split; [apply calls_worker_iteration|apply worker_iteration_emits].
    + repeat (split; [done|]). exists turns, []. by rewrite Hp.
Qed.

Lemma tidy_step pr pick :
  tidy env cfg pr -> tidy env cfg (step env cfg pr pick).
Proof.
  destruct pick as [e f b|i|].
  - intros (Hj & Hfifo & Hh & Hhe & Hrest).
    repeat (split; [done|]). split; [|done].
    apply Forall_app. split; [done|]. repeat constructor. apply calls_submit.
  - apply tidy_serve.
  - apply tidy_work.
Qed.

Lemma tidy_run picks pr :
  tidy env cfg pr -> tidy env cfg (run_picks env cfg picks pr).
Proof.
  revert pr. induction picks as [|pick t IH]; intros pr Hpr; [done|].
  apply IH. by apply tidy_step.
Qed.

End Interleaving.

Lemma job_work_prefix (j : Job) (work rest : list Event) :
  job_work j (work ++ rest) -> job_work j work.
Proof.
  intros (Hq & Hlen & Hto). rewrite forallb_app in Hq.
  apply andb_prop in Hq as [Hq _]. rewrite sent_app in Hlen, Hto.
  rewrite length_app in Hlen. apply Forall_app in Hto as [Hto _].
  split; [done|]. split; [lia|done].
Qed.

Lemma dequeued_turns (done : list (Job * list Event)) :
  Forall (fun jw => job_work jw.1 jw.2) done ->
  dequeued (mjoin (job_turn <$> done)) = done.*1.
Proof.
  induction 1 as [|[j work] t (Hq & _) _ IH]; [done|].
  rewrite !fmap_cons.
  change (mjoin (job_turn (j, work) :: (job_turn <$> t)))
    with (job_turn (j, work) ++ mjoin (job_turn <$> t)).
  rewrite dequeued_app, IH. unfold job_turn. cbn [fst snd] in *.
  by rewrite (dequeued_block j work Hq).
Qed.

Lemma dequeued_open_turn (current : option (Job * list Event)) :
  (forall jw, current = Some jw -> job_work jw.1 jw.2) ->
  dequeued (open_turn current) = option_list (fst <$> current).
Proof.
  destruct current as [[j work]|]; [|done]. intros Hw.
  destruct (Hw _ eq_refl) as (Hq & _). unfold open_turn. cbn [fst snd] in *.
  change (EvGet j :: work) with ([EvGet j] ++ work).
  rewrite dequeued_app, (dequeued_no_turn work) by (by apply quiet_no_turn).
  done.
Qed.

Section Turns.

Context (env : Env) (cfg : Config).

(** Whole turns are the turns of the jobs that were processed; a turn on an
    empty queue leaves no event. *)
Lemma whole_turns_processed (turns : list (list Event)) :
  Forall (fun t => exists r, whole_turn env cfg t r) turns ->
  exists done,
    mjoin turns = mjoin (job_turn <$> done) /\ Forall (processed env cfg) done.
Proof.
  induction 1 as [|t ts [r [->|(j & work & -> & Hwork & Hacc)]] _ (done & Hj & Hd)].
  - by exists [].
  - by exists done.
  - exists ((j, work) :: done). rewrite fmap_cons.
    change (mjoin (?x :: ?l)) with (x ++ mjoin l). rewrite Hj.
    split; [done|]. constructor; [|done]. split; [done|].
    intros Ha. by destruct (Hacc Ha).
Qed.

(** The turn the worker is in: either it is whole, or a job is taken and
    worked on. *)
Lemma open_or_whole (pre : list Event) (p : Prog unit) :
  emits p (fun evs r => whole_turn env cfg (pre ++ evs) r) ->
  (exists jw, pre = job_turn jw /\ processed env cfg jw) \/
  (exists current, pre = open_turn current /\
                   forall jw, current = Some jw -> job_work jw.1 jw.2).
Proof.
  intros Hp. destruct (emits_inhabited _ _ Hp) as (evs & r & Hturn).
  destruct Hturn as [Hnil|(j & work & Heq & Hwork & Hacc)].
  - apply app_eq_nil in Hnil as [-> _]. right. by exists None.
  - destruct pre as [|ev pre]; [right; by exists None|].
    unfold job_turn in Heq. simpl in Heq. injection Heq as -> Heq.
    destruct evs as [|ev evs _] using rev_ind.
    + rewrite app_nil_r in Heq. subst pre. left. exists (j, work).
      split; [done|]. split; [done|]. intros Ha. by destruct (Hacc Ha).
    + rewrite app_assoc in Heq. apply app_inj_tail in Heq as [Heq _].
      subst work. right. exists (Some (j, pre)). split; [done|].
      intros jw [= <-]. by apply job_work_prefix in Hwork.
Qed.

End Turns.


(** ** Runs without interruption are interleavings *)

Section Atomic.

Context (env : Env) (cfg : Config).

(** A handler that is alone in service and is picked until it answers does
    what the computation of [M] does. *)
Lemma serve_to_end (p : Prog Response) (pr : Proc) :
  handlers pr = [p] ->
  exists n,
    let pr' := run_picks env cfg (replicate n (Serve 0)) pr in
    world pr' = snd (interp p (world pr)) /\
    worker pr' = worker pr /\ handlers pr' = [].
Proof.
  revert pr. induction p as [r|X op k IH]; intros pr Hh.
  - exists 1%nat. simpl. by rewrite Hh.
  - destruct (op (world pr)) as [x w'] eqn:Hop.
    destruct (IH x {| world := w'; worker := worker pr; handlers := [k x];
                      journal := journal pr
                        ++ ((fun ev => (EventLoop, ev)) <$> since (world pr) w') |}
                 eq_refl) as (n & Hw & Hwk & Hhs).
    exists (S n). simpl. rewrite Hh. simpl. rewrite Hop.
    simpl in Hw, Hwk, Hhs. done.
Qed.

(** The worker, picked until its turn ends. *)
Lemma work_to_end (p : Prog unit) (pr : Proc) :
  worker pr = Some p ->
  exists n,
    let pr' := run_picks env cfg (replicate n Work) pr in
    world pr' = match interp p (world pr) with
                | (Ok _, w') => w'
                | (Raise _, w') => with_worker_alive false w'
                end /\
    worker pr' = None /\ handlers pr' = handlers pr.
Proof.
  revert pr. induction p as [r|X op k IH]; intros pr Hp.
  - exists 1%nat. simpl. rewrite Hp. by destruct r.
  - destruct (op (world pr)) as [x w'] eqn:Hop.
    destruct (IH x {| world := w'; worker := Some (k x); handlers := handlers pr;
                      journal := journal pr
                        ++ ((fun ev => (WorkerThread, ev)) <$> since (world pr) w') |}
                 eq_refl) as (n & Hw & Hwk & Hhs).
    exists (S n). simpl. rewrite Hp, Hop. simpl in Hw, Hwk, Hhs. done.
Qed.

Lemma run_picks_app (p1 p2 : list Pick) (pr : Proc) :
  run_picks env cfg (p1 ++ p2) pr = run_picks env cfg p2 (run_picks env cfg p1 pr).
Proof. apply fold_left_app. Qed.

(** Every run in which the requests are served and the turns of the worker
    are taken one after the other, without interruption, is an
    interleaving. *)
Lemma atomic_runs_are_interleavings (acts : list Action) (pr : Proc) :
  worker pr = None -> handlers pr = [] ->
  exists picks,
    let pr' := run_picks env cfg picks pr in
    world pr' = run env cfg acts (world pr) /\
    worker pr' = None /\ handlers pr' = [].
Proof.
  revert pr. induction acts as [|a acts IH]; intros pr Hw Hh.
  - by exists [].
  - assert (exists picks,
              let pr1 := run_picks env cfg picks pr in
              world pr1 = act env cfg (world pr) a /\
              worker pr1 = None /\ handlers pr1 = [])
      as (picks1 & H1 & Hw1 & Hh1).
    { destruct a as [e f b|].
      - destruct (serve_to_end (Steps.submit env cfg e f b)
                    (step env cfg pr (Arrive e f b)))
          as (n & Hwd & Hwk & Hhs).
        { simpl. by rewrite Hh. }
        exists (Arrive e f b :: replicate n (Serve 0)).
        unfold run_picks in *. cbn [fold_left]. cbv zeta in *.
        rewrite Hwd, Hwk, Hhs. cbn [step world worker].
        by rewrite (submit_runs_as env cfg e f b).
      - simpl. unfold worker_turn.
        destruct (worker_alive (world pr)) eqn:Halive.
        + assert (step env cfg pr Work =
                  {| world := world pr;
                     worker := Some (Steps.worker_iteration env cfg);
                     handlers := handlers pr; journal := journal pr |}) as Hstep.
          { unfold step. by rewrite Hw, Halive. }
          destruct (work_to_end (Steps.worker_iteration env cfg)
                      (step env cfg pr Work)) as (n & Hwd & Hwk & Hhs).
          { by rewrite Hstep. }
          exists (Work :: replicate n Work).
          unfold run_picks in *. cbn [fold_left]. cbv zeta in *.
          rewrite Hwd, Hwk, Hhs, Hstep. cbn [world handlers].
          rewrite (worker_iteration_runs_as env cfg), Hh.
          by destruct (worker_iteration env cfg (world pr)) as [[|] ?].
        + by exists []. }
    destruct (IH _ Hw1 Hh1) as (picks2 & H2 & Hw2 & Hh2).
    exists (picks1 ++ picks2). simpl in *.
    rewrite run_picks_app, H2, Hw2, Hh2, H1. done.
Qed.

End Atomic.

(** A second request is served while the worker is at work on the first
    job: its upload is saved and its job is put between two events of that
    work, and its job is taken after the first is marked done. *)
Example request_during_a_job :
  let pr := run_picks calm_env default_config during_a_job (start ∅) in
  (fun x => (x.1, label x.2)) <$> journal pr =
    [ (EventLoop, "write /tmp/upload_0123456789abcdef0.mp3");
      (EventLoop, "put 0123456789ab");
      (WorkerThread, "get 0123456789ab");
      (WorkerThread, "export /tmp/whisper_input_0123456789abcdef2.wav");
      (EventLoop, "write /tmp/upload_0123456789abcdef3.mp3");
      (EventLoop, "put 0123456789ab");
      (WorkerThread, "transcribe /tmp/whisper_input_0123456789abcdef2.wav");
      (WorkerThread, "remove /tmp/whisper_input_0123456789abcdef2.wav");
      (WorkerThread, "send to first@b.c");
      (WorkerThread, "remove /tmp/upload_0123456789abcdef0.mp3");
      (WorkerThread, "task_done");
      (WorkerThread, "get 0123456789ab");
      (WorkerThread, "export /tmp/whisper_input_0123456789abcdef5.wav");
      (WorkerThread, "transcribe /tmp/whisper_input_0123456789abcdef5.wav");
      (WorkerThread, "remove /tmp/whisper_input_0123456789abcdef5.wav");
      (WorkerThread, "send to second@b.c");
      (WorkerThread, "remove /tmp/upload_0123456789abcdef3.mp3");
      (WorkerThread, "task_done") ].
Proof. vm_compute. reflexivity. Qed.
